(** * Frame-by-frame colour propagation of BasicPBC

    A shallow embedding of [ModelInference.inference_frame_by_frame]
    (basicsr/models/pbc_model.py, lines 210-269) and the properties of its
    colour resolution (direct and accumulated) and of its walk over the
    frames of a character.

    Conventions of the embedding.
    - A Python [dict] is an object of a store ([dicts]), named by a location;
      [d[k] = v] updates the store in place.  The colour lists are never
      written to by the code, so they are values.
    - A colour is the four-integer JSON array [R, G, B, A] of the colour map
      files; the rows of a NumPy array of colours are ordered
      lexicographically, the order [np.unique(..., axis=0)] sorts by.
    - Matching scores are [float32] numbers, the element type of the score
      array of the network: sums round to nearest, ties to even, and are
      added in the order NumPy adds them; comparisons are those of IEEE 754,
      NaN included.
    - The matches are [int64] numbers, the element type of the index array:
      [item + 1] wraps around at [2^63 - 1].  The indices the loops count
      with are Python integers, which do not wrap.
    - A text is a sequence of characters with codes [0] to [255], standing
      for the Python [str] of these code points; texts with other code
      points are outside the model.
    - The file system is a finite map from path strings to file contents;
      directories are not represented.  A file holds a colour map or a
      raster; copying a file copies that content as it is.
    - The helpers of [paint.utils] ([load_json], [dump_json],
      [read_img_2_np], [colorize_label_image]) act on that file system as
      their interface says; the network, [recolorize_gt] and the renderer
      are parameters. *)

From Stdlib Require Import ZArith QArith Lia Permutation Ascii SpecFloat.
From stdpp Require Import base option list gmap strings pretty fin_maps fin_sets sorting.

Local Open Scope Z_scope.

(** ** Colours and the NumPy operations of the accumulated mode *)

Record color := Color { red : Z; green : Z; blue : Z; alpha : Z }.

Global Instance color_eq_dec : EqDecision color.
Proof. solve_decision. Defined.

(** [[0, 0, 0, 0]], the colour of a segment that has no colour. *)
Definition unmatched : color := Color 0 0 0 0.

(** Rows of an integer array compare channel by channel, left to right. *)
Definition color_compare (c d : color) : comparison :=
  match red c ?= red d with
  | Eq => match green c ?= green d with
          | Eq => match blue c ?= blue d with
                  | Eq => alpha c ?= alpha d
                  | o => o
                  end
          | o => o
          end
  | o => o
  end.

Definition color_lt (c d : color) : Prop := color_compare c d = Lt.
Definition color_le (c d : color) : Prop := color_compare c d <> Gt.

(** [np.unique(rows, axis=0)]: the distinct rows, in increasing order.
    [insert_row] puts a row at its place in an increasing list and drops it
    when it is there already. *)
Fixpoint insert_row (c : color) (rows : list color) : list color :=
  match rows with
  | [] => [c]
  | d :: rows' =>
      match color_compare c d with
      | Lt => c :: d :: rows'
      | Eq => d :: rows'
      | Gt => d :: insert_row c rows'
      end
  end.

Definition np_unique (rows : list color) : list color :=
  foldr insert_row [] rows.

(** [np.all(color_lookup == color, axis=1)]: the rows equal to [color]. *)
Definition row_mask (color_lookup : list color) (c : color) : list bool :=
  map (fun r => bool_decide (r = c)) color_lookup.

(** [scores[mask]]: the entries picked by a boolean mask.  Both arguments have
    one entry per reference segment wherever the code indexes. *)
Fixpoint bool_index {A} (xs : list A) (mask : list bool) : list A :=
  match xs, mask with
  | x :: xs', b :: mask' =>
      if b then x :: bool_index xs' mask' else bool_index xs' mask'
  | _, _ => []
  end.

(** ** Scores: [float32] arithmetic *)

(** An IEEE 754 binary32 number: a signed zero, a signed infinity, a NaN, or
    [(-1)^s * m * 2^e] with a mantissa of at most 24 bits. *)
Definition float32 : Type := spec_float.

(** Addition rounds to nearest, ties to even. *)
Definition float32_add : float32 -> float32 -> float32 := SFadd 24 128.

(** [x <= y], [x < y] and [x == y]: all three are false when one side is a
    NaN. *)
Definition float32_le : float32 -> float32 -> bool := SFleb.
Definition float32_lt : float32 -> float32 -> bool := SFltb.
Definition float32_eq : float32 -> float32 -> bool := SFeqb.

Definition isnan (x : float32) : bool :=
  match x with
  | S754_nan => true
  | _ => false
  end.

Definition float32_zero : float32 := S754_zero false.

(** The [float32] of an integer, and the one nearest to a fraction. *)
Definition float32_of_Z (n : Z) : float32 := binary_normalize 24 128 n 0 false.
Definition float32_of_frac (num den : Z) : float32 :=
  SFdiv 24 128 (float32_of_Z num) (float32_of_Z den).

(** [2^e], for an exponent in the range of the normal numbers. *)
Definition float32_pow2 (e : Z) : float32 :=
  SFldexp 24 128 (float32_of_Z 1) e.

(** The rational a finite number stands for. *)
Definition exact_value (x : float32) : Q :=
  match x with
  | S754_finite s m e =>
      ((if s then -1 else 1) * inject_Z (Z.pos m) * 2 ^ e)%Q
  | _ => 0%Q
  end.

Definition exact_sum (xs : list float32) : Q :=
  foldr Qplus 0%Q (map exact_value xs).

(** [np.sum] of a one-dimensional [float32] array, NumPy's pairwise
    summation.  The sign of a zero result, which is not the same in all
    versions of NumPy, is the one of a sum that starts from [+0]; no
    comparison tells the two zeros apart. *)

(** [res += a[i]] for the entries of [a] in turn. *)
Definition add_all (res : float32) (a : list float32) : float32 :=
  foldl float32_add res a.

(** [r[j] += a[i + j]] for [j < 8], a block of eight entries after the
    other. *)
Fixpoint add_blocks (blocks : nat) (r a : list float32) : list float32 :=
  match blocks with
  | O => r
  | S blocks' =>
      add_blocks blocks' (zip_with float32_add r (take 8 a)) (drop 8 a)
  end.

(** From [8] to [128] entries: eight running sums over the blocks of eight,
    added up two by two, then the entries left over. *)
Definition unrolled_sum (a : list float32) : float32 :=
  let n := length a in
  match add_blocks (n / 8 - 1) (take 8 a) (drop 8 a) with
  | [r0; r1; r2; r3; r4; r5; r6; r7] =>
      add_all
        (float32_add
           (float32_add (float32_add r0 r1) (float32_add r2 r3))
           (float32_add (float32_add r4 r5) (float32_add r6 r7)))
        (drop (n - n mod 8) a)
  | _ => add_all float32_zero a
  end.

(** Fewer than [8] entries are added in turn; more than [128] are cut in
    two, the first part a multiple of eight.  Each part is shorter than the
    whole, so [fuel] as large as the length is never used up. *)
Fixpoint pairwise_sum (fuel : nat) (a : list float32) : float32 :=
  let n := length a in
  if (n <? 8)%nat then add_all float32_zero a
  else if (n <=? 128)%nat then unrolled_sum a
  else match fuel with
       | O => unrolled_sum a
       | S fuel' =>
           let n2 := (n / 2 - (n / 2) mod 8)%nat in
           float32_add (pairwise_sum fuel' (take n2 a))
                       (pairwise_sum fuel' (drop n2 a))
       end.

Definition np_sum (xs : list float32) : float32 :=
  pairwise_sum (length xs) xs.

(** [np.argmax]: the index of the first NaN if there is one, of the first
    entry no other entry exceeds otherwise; [None] on the empty sequence,
    where NumPy raises.  The entry at hand replaces the best one so far
    unless it is less or equal, and a NaN ends the search. *)
Fixpoint argmax_from (best_i : nat) (best : float32) (i : nat)
    (xs : list float32) : nat :=
  match xs with
  | [] => best_i
  | x :: xs' =>
      if isnan best then best_i
      else if negb (float32_le x best) then argmax_from i x (S i) xs'
      else argmax_from best_i best (S i) xs'
  end.

Definition np_argmax (xs : list float32) : option nat :=
  match xs with
  | [] => None
  | x :: xs' => Some (argmax_from 0%nat x 1%nat xs')
  end.

(** ** Matches: [int64] arithmetic *)

Definition int64_min : Z := - 2 ^ 63.
Definition int64_max : Z := 2 ^ 63 - 1.

(** An element of the index array: an integer from [-2^63] to [2^63 - 1]. *)
Record int64 := Int64 {
  int64_val :> Z;
  int64_range :
    Is_true ((int64_min <=? int64_val) && (int64_val <=? int64_max))
}.

(** The [int64] an exact result ends up as: its low 64 bits, signed. *)
Definition wrap_int64 (z : Z) : Z := (z + 2 ^ 63) mod 2 ^ 64 - 2 ^ 63.

Definition i64 (z : Z) : int64 :=
  match decide (Is_true ((int64_min <=? wrap_int64 z)
                         && (wrap_int64 z <=? int64_max))) with
  | left H => Int64 (wrap_int64 z) H
  | right _ => Int64 0 I
  end.

(** [a + b] on [int64]: NumPy warns of the overflow and goes on with the
    wrapped sum. *)
Definition int64_add (a b : int64) : int64 := i64 (a + b).

(** ** Python integers as text *)

(** [str(n)] for an integer: decimal digits, ["-"] in front of a negative. *)
Definition str (n : Z) : string := pretty n.

(** ** The store: dict objects and files, and exceptions *)

Definition loc := nat.

(** A raster of RGBA pixels, the content of a [.png]. *)
Definition image := list (list color).

Inductive file :=
  | JsonFile (d : gmap string color)
  | ImgFile (img : image).

Record world := World {
  files : gmap string file;
  dicts : gmap loc (gmap string color)
}.

Inductive exn :=
  | KeyError (k : string)
  | ValueError
  | IndexError
  | FileNotFoundError (p : string)
  | FileExistsError (p : string)
  | SameFileError (p : string)
  | JSONDecodeError (p : string)
  | ImageReadError (p : string)
  | DanglingReference (l : loc).

(** What a statement leaves behind: a value, or an exception, and in both
    cases the store as it is at that point. *)
Inductive outcome (A : Type) :=
  | Done (a : A) (w : world)
  | Raised (e : exn) (w : world).
Arguments Done {A} a w.
Arguments Raised {A} e w.

Definition M (A : Type) : Type := world -> outcome A.

Definition ret {A} (a : A) : M A := fun w => Done a w.
Definition raise {A} (e : exn) : M A := fun w => Raised e w.
Definition bind {A B} (m : M A) (k : A -> M B) : M B :=
  fun w => match m w with
           | Done a w' => k a w'
           | Raised e w' => Raised e w'
           end.

Global Instance M_ret : MRet M := @ret.
Global Instance M_bind : MBind M := fun A B k m => bind m k.

(** A new dict object with the entries [d], at a location not in use. *)
Definition alloc_dict (d : gmap string color) : M loc := fun w =>
  let l := fresh (dom (dicts w)) in
  Done l (World (files w) (<[l := d]> (dicts w))).

(** [{}] *)
Definition new_dict : M loc := alloc_dict ∅.

Definition with_dict {A} (l : loc) (k : gmap string color -> M A) : M A :=
  fun w => match dicts w !! l with
           | Some d => k d w
           | None => Raised (DanglingReference l) w
           end.

(** [d[k]] *)
Definition getitem (l : loc) (k : string) : M color :=
  with_dict l (fun d => match d !! k with
                        | Some c => ret c
                        | None => raise (KeyError k)
                        end).

(** [k in d] *)
Definition contains (l : loc) (k : string) : M bool :=
  with_dict l (fun d => ret (bool_decide (is_Some (d !! k)))).

(** [d[k] = c] *)
Definition setitem (l : loc) (k : string) (c : color) : M unit :=
  with_dict l (fun d w =>
    Done tt (World (files w) (<[l := <[k := c]> d]> (dicts w)))).

(** [for i, x in enumerate(xs): body], counting from [start]. *)
Fixpoint for_enumerate {A} (body : nat -> A -> M unit) (start : nat)
    (xs : list A) : M unit :=
  match xs with
  | [] => ret tt
  | x :: xs' => body start x;; for_enumerate body (S start) xs'
  end.

(** [[f(x) for x in xs]] *)
Fixpoint comprehension {A B} (f : A -> M B) (xs : list A) : M (list B) :=
  match xs with
  | [] => ret []
  | x :: xs' => y ← f x; ys ← comprehension f xs'; ret (y :: ys)
  end.

Definition of_option {A} (e : exn) (o : option A) : M A :=
  match o with
  | Some a => ret a
  | None => raise e
  end.

(** ** Colour resolution (lines 250-263) *)

(** The key of segment index [i], a Python integer: [str(i + 1)]. *)
Definition key_of (i : Z) : string := str (i + 1).

(** The key line 257 looks up for a match: [str(item + 1)], the sum being
    one of [int64]. *)
Definition item_key (item : int64) : string := str (int64_add item (i64 1)).

(** Lines 252-257: one turn of the loop of the direct mode. *)
Definition direct_body (color_dict color_next_frame : loc)
    (i : nat) (item : int64) : M unit :=
  if bool_decide (int64_val item = -1) then
    setitem color_next_frame (key_of (Z.of_nat i)) unmatched
  else
    c ← getitem color_dict (item_key item);
    setitem color_next_frame (key_of (Z.of_nat i)) c.

(** Line 260: the colour of every reference segment, [[0, 0, 0, 0]] for the
    ones the previous colour map does not have. *)
Definition color_lookup_of (color_dict : loc) (scores : list float32)
    : M (list color) :=
  comprehension
    (fun j : nat =>
       contains color_dict (key_of (Z.of_nat j)) ≫= fun present : bool =>
       if present then getitem color_dict (key_of (Z.of_nat j))
       else ret unmatched)
    (seq 0 (length scores)).

(** Lines 261-263, on the arrays: the distinct colours, the score each of
    them collects, and the first colour with the largest score. *)
Definition accumulated_probs (color_lookup : list color)
    (scores : list float32) (unique_colors : list color) : list float32 :=
  map (fun c => np_sum (bool_index scores (row_mask color_lookup c)))
      unique_colors.

Definition vote (color_lookup : list color) (scores : list float32)
    : option color :=
  let unique_colors := np_unique color_lookup in
  k ← np_argmax (accumulated_probs color_lookup scores unique_colors);
  unique_colors !! k.

(** Lines 260-263: one turn of the loop of the accumulated mode. *)
Definition accu_body (color_dict color_next_frame : loc)
    (i : nat) (scores : list float32) : M unit :=
  color_lookup ← color_lookup_of color_dict scores;
  c ← of_option ValueError (vote color_lookup scores);
  setitem color_next_frame (key_of (Z.of_nat i)) c.

(** Lines 250-263. *)
Definition resolve_colors (accu : bool) (color_dict : loc)
    (match_ : list int64) (match_scores : list (list float32)) : M loc :=
  color_next_frame ← new_dict;
  (if negb accu then
     for_enumerate (direct_body color_dict color_next_frame) 0 match_
   else
     for_enumerate (accu_body color_dict color_next_frame) 0 match_scores);;
  ret color_next_frame.

(** ** Text and paths *)

Definition is_sep (c : ascii) : bool := bool_decide (c = "/"%char).

(** [(p[:i], p[i:])] for [i = p.rfind("/") + 1]. *)
Fixpoint cut_last_sep (p : string) : string * string :=
  match p with
  | "" => ("", "")
  | String c p' =>
      let '(head, tail) := cut_last_sep p' in
      match head with
      | "" => if is_sep c then (String c "", tail) else ("", String c tail)
      | _ => (String c head, tail)
      end
  end.

(** [s.rstrip("/")] *)
Fixpoint rstrip_sep (s : string) : string :=
  match s with
  | "" => ""
  | String c s' =>
      match rstrip_sep s' with
      | "" => if is_sep c then "" else String c ""
      | r => String c r
      end
  end.

Fixpoint all_sep (s : string) : bool :=
  match s with
  | "" => true
  | String c s' => is_sep c && all_sep s'
  end.

(** [posixpath.split] *)
Definition osp_split (p : string) : string * string :=
  let '(head, tail) := cut_last_sep p in
  let head :=
    if negb (bool_decide (head = "")) && negb (all_sep head)
    then rstrip_sep head else head in
  (head, tail).

Definition ends_with_sep (s : string) : bool :=
  match cut_last_sep s with
  | (String _ _, "") => true
  | _ => false
  end.

Definition starts_with_sep (s : string) : bool :=
  match s with
  | String c _ => is_sep c
  | "" => false
  end.

(** One turn of the loop of [posixpath.join]. *)
Definition join_step (path b : string) : string :=
  if starts_with_sep b then b
  else if bool_decide (path = "") || ends_with_sep path then path +:+ b
  else path +:+ "/" +:+ b.

(** [posixpath.join(a, *p)] *)
Definition osp_join (a : string) (p : list string) : string :=
  foldl join_step a p.

Definition osp_basename (p : string) : string := (cut_last_sep p).2.

(** [s.replace(old, new)] for a non-empty [old]: every occurrence, left to
    right, without overlap.  [skip] counts the characters of an occurrence
    still to be passed over. *)
Fixpoint replace_from (old new : string) (skip : nat) (s : string) : string :=
  match s with
  | "" => ""
  | String c s' =>
      match skip with
      | S k => replace_from old new k s'
      | O =>
          if String.prefix old s
          then new +:+ replace_from old new (String.length old - 1) s'
          else String c (replace_from old new 0 s')
      end
  end.

Definition replace (old new s : string) : string := replace_from old new 0 s.

Fixpoint zeros (n : nat) : string :=
  match n with
  | O => ""
  | S n' => String "0" (zeros n')
  end.

(** [s.zfill(width)]: zeros on the left, after a leading sign. *)
Definition zfill (s : string) (width : nat) : string :=
  let n := String.length s in
  if (width <=? n)%nat then s
  else match s with
       | String c s' =>
           if bool_decide (c = "+"%char) || bool_decide (c = "-"%char)
           then String c (zeros (width - n) +:+ s')
           else zeros (width - n) +:+ s
       | "" => zeros width
       end.

Definition digit_of (c : ascii) : option Z :=
  let n := Z.of_nat (nat_of_ascii c) in
  if ((48 <=? n) && (n <=? 57))%Z then Some (n - 48)%Z else None.

(** The characters [int] passes over at both ends of a text: tab to
    carriage return and the space, and the two blanks of the code points
    above ASCII, next line ([133]) and no-break space ([160]).  The
    separators [28] to [31] are not among them. *)
Definition is_blank (c : ascii) : bool :=
  let n := Z.of_nat (nat_of_ascii c) in
  (((9 <=? n) && (n <=? 13)) || (n =? 32) || (n =? 133) || (n =? 160))%Z.

Fixpoint lstrip (s : string) : string :=
  match s with
  | EmptyString => EmptyString
  | String c s' => if is_blank c then lstrip s' else s
  end.

Fixpoint rstrip (s : string) : string :=
  match s with
  | EmptyString => EmptyString
  | String c s' =>
      match rstrip s' with
      | EmptyString => if is_blank c then EmptyString else String c EmptyString
      | r => String c r
      end
  end.

(** The value of a run of decimal digits, single underscores between
    digits allowed; [after_digit] tells whether the last character read was
    a digit. *)
Fixpoint digits_value (acc : Z) (after_digit : bool) (s : string)
    : option Z :=
  match s with
  | EmptyString => if after_digit then Some acc else None
  | String c s' =>
      if bool_decide (c = "_"%char) then
        if after_digit then digits_value acc false s' else None
      else d ← digit_of c; digits_value (10 * acc + d)%Z true s'
  end.

(** The integer a text spells: blanks around, a sign in front or none,
    decimal digits. *)
Definition parse_int (s : string) : option Z :=
  match lstrip (rstrip s) with
  | EmptyString => None
  | String c s' =>
      if bool_decide (c = "-"%char) then Z.opp <$> digits_value 0 false s'
      else if bool_decide (c = "+"%char) then digits_value 0 false s'
      else digits_value 0 false (String c s')
  end.

(** [sys.get_int_max_str_digits()], as CPython sets it. *)
Definition int_max_str_digits : nat := 4300.

Fixpoint count_digits (s : string) : nat :=
  match s with
  | EmptyString => O
  | String c s' =>
      match digit_of c with
      | Some _ => S (count_digits s')
      | None => count_digits s'
      end
  end.

(** [int(s)] on text.  [None] is Python's [ValueError]: of a text that
    spells no integer, and of one with more digits, zeros in front
    included, than CPython converts. *)
Definition int (s : string) : option Z :=
  n ← parse_int s;
  if (count_digits s <=? int_max_str_digits)%nat then Some n else None.

(** [str(n)] where the size of [n] is not known: [None] is the
    [ValueError] of an integer with more digits than CPython converts. *)
Definition str_within_limit (n : Z) : option string :=
  if bool_decide (Z.abs n < 10 ^ Z.of_nat int_max_str_digits)
  then Some (str n) else None.

(** ** Files *)

Definition read_file (path : string) : M file := fun w =>
  match files w !! path with
  | Some f => Done f w
  | None => Raised (FileNotFoundError path) w
  end.

Definition write_file (path : string) (f : file) : M unit := fun w =>
  Done tt (World (<[path := f]> (files w)) (dicts w)).

(** [os.makedirs(path, exist_ok=True)]: nothing to record for a directory;
    it fails where a file has the name. *)
Definition os_makedirs (path : string) : M unit := fun w =>
  match files w !! path with
  | Some _ => Raised (FileExistsError path) w
  | None => Done tt w
  end.

(** [shutil.copy(src, dst)] into the directory [dst]: the content of [src]
    under its own name. *)
Definition shutil_copy (src dst : string) : M unit :=
  let dst := osp_join dst [osp_basename src] in
  if bool_decide (src = dst) then raise (SameFileError src)
  else f ← read_file src; write_file dst f.

(** Modelled from the spec: [load_json] (paint.utils), the JSON read of the
    checkpoint I/O: a new dict with the content of the file. *)
Definition load_json (path : string) : M loc :=
  read_file path ≫= fun f : file =>
  match f with
  | JsonFile d => alloc_dict d
  | ImgFile _ => raise (JSONDecodeError path)
  end.

(** Modelled from the spec: [dump_json] (paint.utils), the JSON write of the
    checkpoint I/O: the entries of the dict become the content of the file. *)
Definition dump_json (l : loc) (path : string) : M unit :=
  with_dict l (fun d => write_file path (JsonFile d)).

(** Modelled from the spec: [read_img_2_np] (paint.utils), the image read of
    the checkpoint I/O. *)
Definition read_img_2_np (path : string) : M image :=
  read_file path ≫= fun f : file =>
  match f with
  | ImgFile img => ret img
  | JsonFile _ => raise (ImageReadError path)
  end.

(** [for x in xs: body] *)
Fixpoint for_each {A} (body : A -> M unit) (xs : list A) : M unit :=
  match xs with
  | [] => ret tt
  | x :: xs' => body x;; for_each body xs'
  end.

(** ** The walk over the frames (lines 210-269) *)

Section Walker.

(** What the data loader and the network exchange. *)
Context {tensor : Type}.

(** One item of the test loader: the path of the line art of a frame
    ([file_name], without extension) and the tensors of the frame pair. *)
Record test_data := TestData {
  file_name : string;
  tensors : gmap string tensor
}.

(** The network with the conversion of its answer to arrays (lines
    246-248): [matches0] and [match_scores]. *)
Variable model : test_data -> list int64 * list (list float32).

(** [recolorize_gt] on the array [read_img_2_np] reads, with the batch axis
    put in front. *)
Variable recolorize_gt : image -> tensor.

(** Modelled from the spec: the renderer behind [colorize_label_image]
    (paint.utils), [render(colorMap, segmentLabelImage) -> image]. *)
Variable render : gmap string color -> image -> image.

(** Modelled from the spec: [colorize_label_image(label_path, json_path,
    save_path)] (paint.utils) reads the label image and the colour map and
    writes the rendered image. *)
Definition colorize_label_image (label_path json_path img_save_path : string)
    : M unit :=
  label ← read_img_2_np label_path;
  read_file json_path ≫= fun f : file =>
  match f with
  | JsonFile d => write_file img_save_path (ImgFile (render d label))
  | ImgFile _ => raise (JSONDecodeError json_path)
  end.

(** The names line 219-224 derive from the item. *)
Record frame_paths := FramePaths {
  character_root : string;
  name_str : string;
  prev_index : Z;
  prev_name_str : string;
  prev_json_path : string;
  save_folder : string
}.

Definition paths_of (save_path : string) (td : test_data)
    : M frame_paths :=
  let '(line_root, name_str) := osp_split (file_name td) in
  let character_root := (osp_split line_root).1 in
  index ← of_option ValueError (int name_str);
  let prev_index := (index - 1)%Z in
  prev_digits ← of_option ValueError (str_within_limit prev_index);
  let prev_name_str := zfill prev_digits (String.length name_str) in
  let prev_json_path :=
    osp_join character_root ["seg"; prev_name_str +:+ ".json"] in
  let save_folder := osp_join save_path [(osp_split character_root).2] in
  ret (FramePaths character_root name_str prev_index prev_name_str
         prev_json_path save_folder).

(** Lines 226-233: the seed of a character is copied next to the results
    when the frame at hand is the first one after it. *)
Definition bootstrap (save_img : bool) (fp : frame_paths) : M unit :=
  if bool_decide (prev_index fp = 0%Z) then
    os_makedirs (save_folder fp);;
    shutil_copy (prev_json_path fp) (save_folder fp);;
    if save_img then
      let gt0_path :=
        osp_join (character_root fp) ["gt"; prev_name_str fp +:+ ".png"] in
      shutil_copy gt0_path (save_folder fp)
    else ret tt
  else ret tt.

(** Lines 235-240: with self propagation the reference is the frame the
    walk itself produced. *)
Definition self_reference (self_prop : bool) (fp : frame_paths)
    (td : test_data) : M (string * test_data) :=
  if self_prop then
    let prev_json_path :=
      osp_join (save_folder fp) [prev_name_str fp +:+ ".json"] in
    let prev_result_path := replace "json" "png" prev_json_path in
    prev_result ← read_img_2_np prev_result_path;
    ret (prev_json_path,
         TestData (file_name td)
           (<["recolorized_img" := recolorize_gt prev_result]> (tensors td)))
  else ret (prev_json_path fp, td).

(** Lines 265-269. *)
Definition persist (save_img : bool) (fp : frame_paths)
    (color_next_frame : loc) : M unit :=
  let json_save_path := osp_join (save_folder fp) [name_str fp +:+ ".json"] in
  dump_json color_next_frame json_save_path;;
  if save_img then
    let label_path :=
      osp_join (character_root fp) ["seg"; name_str fp +:+ ".png"] in
    let img_save_path := replace ".json" ".png" json_save_path in
    colorize_label_image label_path json_save_path img_save_path
  else ret tt.

(** Lines 219-242: the names, the seed, the reference and the previous
    colour map, before the network is asked. *)
Definition prepare (save_path : string) (save_img self_prop : bool)
    (td : test_data) : M (frame_paths * loc * test_data) :=
  fp ← paths_of save_path td;
  bootstrap save_img fp;;
  self_reference self_prop fp td ≫= fun ref : string * test_data =>
  color_dict ← load_json ref.1;
  ret (fp, color_dict, ref.2).

(** Lines 219-269: the body of the loop over the test loader. *)
Definition frame_step (save_path : string) (save_img accu self_prop : bool)
    (td : test_data) : M unit :=
  prepare save_path save_img self_prop td
    ≫= fun ready : frame_paths * loc * test_data =>
  let '(fp, color_dict, td) := ready in
  let '(match_, match_scores) := model td in
  color_next_frame ← resolve_colors accu color_dict match_ match_scores;
  persist save_img fp color_next_frame.

(** Lines 210-269. *)
Definition inference_frame_by_frame (save_path : string)
    (save_img accu self_prop : bool) (test_loader : list test_data)
    : M unit :=
  let save_img := if self_prop then true else save_img in
  for_each (frame_step save_path save_img accu self_prop) test_loader.

End Walker.

(** ** Notions the properties are stated with *)

(** The place of a number in the order of [float32]: the infinities at
    both ends, the negative numbers below the zeros, which are one place,
    the positive numbers above; by exponent, then by mantissa.  A NaN has
    no place. *)
Definition float_key (x : float32) : option (Z * Z * Z) :=
  match x with
  | S754_nan => None
  | S754_infinity true => Some (-2, 0, 0)
  | S754_infinity false => Some (2, 0, 0)
  | S754_zero _ => Some (0, 0, 0)
  | S754_finite true m e => Some (-1, - e, - Z.pos m)
  | S754_finite false m e => Some (1, e, Z.pos m)
  end.

Definition key_lt (a b : Z * Z * Z) : Prop :=
  a.1.1 < b.1.1 \/
  (a.1.1 = b.1.1 /\ (a.1.2 < b.1.2 \/ (a.1.2 = b.1.2 /\ a.2 < b.2))).

Definition key_eq (a b : Z * Z * Z) : Prop :=
  a.1.1 = b.1.1 /\ a.1.2 = b.1.2 /\ a.2 = b.2.

(** A zero, of either sign. *)
Definition is_zero (x : float32) : bool :=
  match x with
  | S754_zero _ => true
  | _ => false
  end.

(** The number of entries that are no zeros. *)
Definition nonzeros (a : list float32) : nat :=
  length (filter (fun x => is_zero x = false) a).

Definition count (x : float32) : nat := if is_zero x then 0%nat else 1%nat.

(** A zero or the number [p]. *)
Definition entry_ok (p x : float32) : Prop := is_zero x = true \/ x = p.

(** What a sum of [c] copies of [p] and of zeros is, for [c] up to [1]. *)
Definition sums_to (p : float32) (c : nat) (v : float32) : Prop :=
  (c = 0%nat -> is_zero v = true) /\ (c = 1%nat -> v = p).

(** The entry of key [k] in the dict object at [l]. *)
Definition dict_entry (w : world) (l : loc) (k : string) : option color :=
  d ← dicts w !! l; d !! k.

Definition world_of {A} (o : outcome A) : world :=
  match o with
  | Done _ w => w
  | Raised _ w => w
  end.

(** The store [w] with the dict at [l] replaced by [d]. *)
Definition with_entries (w : world) (l : loc) (d : gmap string color) : world :=
  World (files w) (<[l := d]> (dicts w)).

(** The colour reference segment [j] (key [j + 1]) has in the previous
    colour map, [[0, 0, 0, 0]] when it has none. *)
Definition reference_color (C_prev : gmap string color) (j : nat) : color :=
  default unmatched (C_prev !! key_of (Z.of_nat j)).

Definition color_lookup_list (C_prev : gmap string color) (n : nat)
    : list color :=
  map (reference_color C_prev) (seq 0 n).

(** The scores of the reference segments that have the colour, in the
    order of the segments, on the arrays of lines 260-262, and the score
    line 262 computes of them. *)
Definition mask_score (color_lookup : list color) (scores : list float32)
    (c : color) : float32 :=
  np_sum (bool_index scores (row_mask color_lookup c)).

Definition color_scores (C_prev : gmap string color) (scores : list float32)
    (c : color) : list float32 :=
  bool_index scores (row_mask (color_lookup_list C_prev (length scores)) c).

(** The score a colour collects: the sum, as [np.sum] computes it, of the
    scores of the reference segments that have this colour. *)
Definition color_score (C_prev : gmap string color) (scores : list float32)
    (c : color) : float32 :=
  np_sum (color_scores C_prev scores c).

(** The tie-break of the specification: of the colours whose score no
    other colour exceeds, the one that comes first in the order of the
    reference segments. *)
Definition first_occurrence_choice (C_prev : gmap string color)
    (scores : list float32) : option color :=
  let color_lookup := color_lookup_list C_prev (length scores) in
  find (fun c => forallb (fun d => negb (float32_lt (color_score C_prev scores c)
                                                    (color_score C_prev scores d)))
                         color_lookup)
       color_lookup.

(** All the mass of [scores] is on reference segment [j]: a positive score
    there, zeros elsewhere. *)
Definition one_hot (scores : list float32) (j : nat) : Prop :=
  (exists p, scores !! j = Some p /\ float32_lt float32_zero p = true) /\
  forall k x, k <> j -> scores !! k = Some x ->
    float32_eq x float32_zero = true.

(** What one turn of either loop assigns, as a function of the previous
    colour map alone. *)
Definition direct_entry (C_prev : gmap string color) (item : int64)
    : exn + color :=
  if bool_decide (int64_val item = -1) then inr unmatched
  else match C_prev !! item_key item with
       | Some c => inr c
       | None => inl (KeyError (item_key item))
       end.

Definition accu_entry (C_prev : gmap string color) (scores : list float32)
    : exn + color :=
  match vote (color_lookup_list C_prev (length scores)) scores with
  | Some c => inr c
  | None => inl ValueError
  end.

(** The entries a loop leaves in the new colour map, and the exception that
    stopped it if one did. *)
Fixpoint assign_all {A} (entry : A -> exn + color) (start : nat)
    (xs : list A) (acc : gmap string color)
    : option exn * gmap string color :=
  match xs with
  | [] => (None, acc)
  | x :: xs' =>
      match entry x with
      | inr c => assign_all entry (S start) xs'
                   (<[key_of (Z.of_nat start) := c]> acc)
      | inl e => (Some e, acc)
      end
  end.

(** The keys ["1"], ..., ["n"]. *)
Definition segment_keys (n : nat) : gset string :=
  list_to_set (map (fun i : nat => key_of (Z.of_nat i)) (seq 0 n)).

(** Two accumulated-mode inputs for one target segment group the reference
    segments alike: the same colours occur, and line 262 computes the same
    score for each. *)
Definition same_grouping (C1 : gmap string color) (scores1 : list float32)
    (C2 : gmap string color) (scores2 : list float32) : Prop :=
  (forall c, c ∈ color_lookup_list C1 (length scores1) <->
             c ∈ color_lookup_list C2 (length scores2)) /\
  (forall c, color_score C1 scores1 c = color_score C2 scores2 c).

(** The second input is the first with its reference segments renumbered:
    the same (colour, score) pairs in another order. *)
Definition relabelled (C1 : gmap string color) (scores1 : list float32)
    (C2 : gmap string color) (scores2 : list float32) : Prop :=
  Permutation
    (zip (color_lookup_list C1 (length scores1)) scores1)
    (zip (color_lookup_list C2 (length scores2)) scores2).

(** A renumbering that keeps the order of the segments of each colour: the
    same colours occur, each with the same scores in the same order. *)
Definition relabelled_in_order (C1 : gmap string color)
    (scores1 : list float32) (C2 : gmap string color)
    (scores2 : list float32) : Prop :=
  (forall c, c ∈ color_lookup_list C1 (length scores1) <->
             c ∈ color_lookup_list C2 (length scores2)) /\
  (forall c, color_scores C1 scores1 c = color_scores C2 scores2 c).

(** ** Data of the examples *)

Definition rgba_red : color := Color 255 0 0 255.
Definition rgba_green : color := Color 0 255 0 255.

(** A store with one dict, the previous colour map, at location [0]. *)
Definition store_of (C_prev : gmap string color) : world :=
  World ∅ {[ 0%nat := C_prev ]}.


Definition red_then_green : gmap string color :=
  {[ "1" := rgba_red; "2" := rgba_green ]}.

Definition only_red : gmap string color := {[ "1" := rgba_red ]}.

(** Some scores: [1], [1/2], [1/4] and [2^-26], which are [float32]
    numbers, and the [float32] numbers nearest to [0.3] and [0.4]. *)
Definition one : float32 := float32_of_Z 1.
Definition half : float32 := float32_of_frac 1 2.
Definition quarter : float32 := float32_of_frac 1 4.
Definition three_quarters : float32 := float32_of_frac 3 4.
Definition tiny : float32 := float32_pow2 (-26).

(** Three red reference segments and a green one. *)
Definition three_red_one_green : gmap string color :=
  {[ "1" := rgba_red; "2" := rgba_red; "3" := rgba_red; "4" := rgba_green ]}.

(** A colour map whose only key is [2^63]. *)
Definition beyond_int64 : gmap string color :=
  {[ "9223372036854775808" := rgba_red ]}.

(** No ["/"] in the text. *)
Fixpoint no_sep (s : string) : bool :=
  match s with
  | EmptyString => true
  | String c s' => negb (is_sep c) && no_sep s'
  end.

(** Where the seed of a character lies and where its copies go. *)
Definition seed_json (fp : frame_paths) : string :=
  osp_join (character_root fp) ["seg"; prev_name_str fp +:+ ".json"].
Definition seed_png (fp : frame_paths) : string :=
  osp_join (character_root fp) ["gt"; prev_name_str fp +:+ ".png"].
Definition out_json (fp : frame_paths) : string :=
  osp_join (save_folder fp) [prev_name_str fp +:+ ".json"].
Definition out_png (fp : frame_paths) : string :=
  osp_join (save_folder fp) [prev_name_str fp +:+ ".png"].

(** Where the results of the frame at hand go. *)
Definition json_save_path (fp : frame_paths) : string :=
  osp_join (save_folder fp) [name_str fp +:+ ".json"].
Definition img_save_path (fp : frame_paths) : string :=
  replace ".json" ".png" (json_save_path fp).

(** The label image of the frame at hand (line 267). *)
Definition label_path (fp : frame_paths) : string :=
  osp_join (character_root fp) ["seg"; name_str fp +:+ ".png"].

(** A character ["A"] with its seed, and the first frame after the seed. *)
Definition seed_files : gmap string file :=
  {[ "d/A/seg/0000.json" := JsonFile only_red;
     "d/A/gt/0000.png" := ImgFile [[rgba_red]];
     "d/A/seg/0001.png" := ImgFile [[rgba_green]] ]}.

Definition first_frame : @test_data unit := TestData "d/A/line/0001" ∅.

Definition first_frame_paths : frame_paths :=
  FramePaths "d/A" "0001" 0 "0000" "d/A/seg/0000.json" "out/A".

(** A character kept in the folder ["data/seg"] and results saved under
    ["data/seg"]: the result folder of the character is its [seg] folder. *)
Definition seg_frame1 : @test_data unit := TestData "data/seg/line/0001" ∅.
Definition seg_frame2 : @test_data unit := TestData "data/seg/line/0002" ∅.

Definition seg_frame1_paths : frame_paths :=
  FramePaths "data/seg" "0001" 0 "0000" "data/seg/seg/0000.json"
    "data/seg/seg".
Definition seg_frame2_paths : frame_paths :=
  FramePaths "data/seg" "0002" 1 "0001" "data/seg/seg/0001.json"
    "data/seg/seg".

Definition seg_files : gmap string file :=
  {[ "data/seg/seg/0001.json" := JsonFile only_red;
     "data/seg/seg/0002.png" := ImgFile [[rgba_green]] ]}.

(** A network that matches the only segment to reference segment [5]. *)
Definition stray_model (td : @test_data unit) : list int64 * list (list float32) :=
  ([i64 5], [[one]]).

Definition flat_render (d : gmap string color) (label : image) : image :=
  [[default unmatched (d !! "1")]].

(** ** Notions for the text of names and paths *)

(** Every character of the text passes the test. *)
Fixpoint all_chars (P : ascii -> bool) (s : string) : bool :=
  match s with
  | EmptyString => true
  | String c s' => P c && all_chars P s'
  end.

(** [old] occurs in the text, at some position. *)
Fixpoint occurs (old s : string) : bool :=
  match s with
  | EmptyString => String.prefix old EmptyString
  | String c s' => String.prefix old s || occurs old s'
  end.

Definition is_digit (c : ascii) : bool :=
  match digit_of c with
  | Some _ => true
  | None => false
  end.

(** The text is not empty and its last character is no ["/"]. *)
Fixpoint ends_plain (s : string) : bool :=
  match s with
  | EmptyString => false
  | String c EmptyString => negb (is_sep c)
  | String _ s' => ends_plain s'
  end.

(** The colour map lines 250-263 make of a previous colour map and the
    answer of the network. *)
Definition resolves_to (accu : bool) (C_prev : gmap string color)
    (match_ : list int64) (match_scores : list (list float32))
    (d : gmap string color) : Prop :=
  exists l w',
    resolve_colors accu 0%nat match_ match_scores (store_of C_prev)
    = Done l w' /\
    dicts w' !! l = Some d.

(** The frame after [first_frame]. *)
Definition second_frame : @test_data unit := TestData "d/A/line/0002" ∅.

Definition second_frame_paths : frame_paths :=
  FramePaths "d/A" "0002" 1 "0001" "d/A/seg/0001.json" "out/A".


(** ** The seeds of [ModelInference] (lines 181-201) *)

Section Seeds.

(** The states of the random number generators of the process: the three
    lines 193-195 read, and whatever else [set_random_seed] sets. *)
Context {py_state np_state torch_state other_state : Type}.

Record generators := Generators {
  py_rng : py_state;
  np_rng : np_state;
  torch_rng : torch_state;
  other_rng : other_state
}.

(** The fields a [ModelInference] keeps of the generators. *)
Record saved_seed := SavedSeed {
  py_rng_state0 : py_state;
  np_rng_state0 : np_state;
  torch_rng_state0 : torch_state
}.

(** [set_random_seed] of [basicsr.utils]. *)
Variable set_random_seed : Z -> generators -> generators.

(** Lines 192-196: the object keeps the three states and the generators are
    seeded. *)
Definition _set_seed (seed : Z) (g : generators) : saved_seed * generators :=
  (SavedSeed (py_rng g) (np_rng g) (torch_rng g), set_random_seed seed g).

(** Lines 198-201 (and [__del__], lines 189-190). *)
Definition _recover_seed (self : saved_seed) (g : generators) : generators :=
  Generators (py_rng_state0 self) (np_rng_state0 self) (torch_rng_state0 self)
    (other_rng g).

End Seeds.

(** ** Batches and devices (lines 51-56 and 203-208) *)

Section Batches.

Context {tensor plain : Type}.

(** What a batch holds under a key: a tensor, or an object without
    [.cuda()] and [.to()], such as the list of file names. *)
Inductive batch_value :=
  | Tensor (t : tensor)
  | Plain (p : plain).

(** A batch: a dict, its keys in the order of insertion. *)
Definition batch := list (string * batch_value).

Inductive batch_exn :=
  | AttributeError (key : string)
  | MissingKey (key : string)
  | DanglingBatch (l : loc).

(** [d[key]] *)
Fixpoint batch_get (key : string) (d : batch) : option batch_value :=
  match d with
  | [] => None
  | (k, v) :: d' => if decide (k = key) then Some v else batch_get key d'
  end.

(** [d[key] = v]: in place for a key the dict has, at the end otherwise. *)
Fixpoint batch_set (key : string) (v : batch_value) (d : batch) : batch :=
  match d with
  | [] => [(key, v)]
  | (k, v0) :: d' =>
      if decide (k = key) then (k, v) :: d' else (k, v0) :: batch_set key v d'
  end.

Definition white_list : list string := ["file_name"].

(** One turn of the loops of lines 54-56 and 205-207, [move] being
    [.to(self.device)] or [.cuda()]. *)
Definition move_turn (move : tensor -> tensor) (key : string) (d : batch)
    : batch_exn + batch :=
  if bool_decide (key ∉ white_list) then
    match batch_get key d with
    | Some (Tensor t) => inr (batch_set key (Tensor (move t)) d)
    | Some (Plain _) => inl (AttributeError key)
    | None => inl (MissingKey key)
    end
  else inr d.

(** The loop over the keys; the dict as the loop leaves it, and the exception
    that stopped it if one did. *)
Fixpoint move_loop (move : tensor -> tensor) (keys : list string) (d : batch)
    : option batch_exn * batch :=
  match keys with
  | [] => (None, d)
  | key :: keys' =>
      match move_turn move key d with
      | inr d' => move_loop move keys' d'
      | inl e => (Some e, d)
      end
  end.

Variable cuda : tensor -> tensor.

(** [.to(self.device)], for the device of the model. *)
Variable to_device : tensor -> tensor.

(** Lines 203-208, on the store of the batches: the result is the dict it
    was given. *)
Definition dis_data_to_cuda (data : loc) (h : gmap loc batch)
    : (batch_exn + loc) * gmap loc batch :=
  match h !! data with
  | Some d =>
      match move_loop cuda d.*1 d with
      | (None, d') => (inr data, <[data := d']> h)
      | (Some e, d') => (inl e, <[data := d']> h)
      end
  | None => (inl (DanglingBatch data), h)
  end.

(** Lines 51-56: the result is the field [self.data] with the store. *)
Definition feed_data (data : loc) (h : gmap loc batch)
    : option batch_exn * (loc * gmap loc batch) :=
  let self_data := data in
  match h !! data with
  | Some d =>
      match move_loop to_device d.*1 d with
      | (e, d') => (e, (self_data, <[self_data := d']> h))
      end
  | None => (Some (DanglingBatch data), (self_data, h))
  end.

(** A batch with its tensors moved, the white list left alone. *)
Definition moved (move : tensor -> tensor) (d : batch) : batch :=
  map (fun kv : string * batch_value =>
         if bool_decide (kv.1 ∉ white_list) then
           match kv.2 with
           | Tensor t => (kv.1, Tensor (move t))
           | Plain p => kv
           end
         else kv) d.

(** The entry can be moved: it is on the white list or a tensor. *)
Definition movable (kv : string * batch_value) : Prop :=
  kv.1 ∈ white_list \/ exists t, kv.2 = Tensor t.

End Batches.


(** ** The networks and their modes (lines 88-99, 106-129, 181-187, 217) *)

(** The generator network and its moving average. *)
Inductive network := NetG | NetGEma.

(** Whether each network is in training mode; [net_g_ema] is [None] for a
    model without the attribute. *)
Record nets := Nets {
  net_g_training : bool;
  net_g_ema_training : option bool
}.

(** [hasattr(self, "net_g_ema")] *)
Definition has_ema (s : nets) : bool :=
  bool_decide (is_Some (net_g_ema_training s)).

(** [net.train()] for [true], [net.eval()] for [false]; nothing to set for
    a network that is not there. *)
Definition set_training (n : network) (b : bool) (s : nets) : nets :=
  match n with
  | NetG => Nets b (net_g_ema_training s)
  | NetGEma => Nets (net_g_training s) ((fun _ => b) <$> net_g_ema_training s)
  end.

Definition training_of (n : network) (s : nets) : option bool :=
  match n with
  | NetG => Some (net_g_training s)
  | NetGEma => net_g_ema_training s
  end.

(** The options of [opt["val"]] lines 109-112 read; [None] for an option
    that is not set. *)
Record val_options := ValOptions {
  val_save_img : option bool;
  val_save_csv : option bool;
  val_accu : option bool;
  val_self_prop : option bool
}.

Section Validation.

Context {tensor input output py_state np_state torch_state other_state : Type}.

(** The forward pass of [test], by network and mode. *)
Variable net : network -> bool -> input -> output.

(** The forward pass of the walk with the conversion of its answer to
    arrays, by network and mode. *)
Variable matcher : network -> bool -> @test_data tensor ->
                   list int64 * list (list float32).
Variable recolorize_gt : image -> tensor.
Variable render : gmap string color -> image -> image.
Variable set_random_seed :
  Z -> @generators py_state np_state torch_state other_state ->
  @generators py_state np_state torch_state other_state.

(** Lines 88-99: [self.output] after the pass, with the modes.  [None] is
    the [AttributeError] of a network that is not there. *)
Definition test (data : input) (s : nets) : option (nets * output) :=
  let tested := if has_ema s then NetGEma else NetG in
  let s := set_training tested false s in
  mode ← training_of tested s;
  let output := net tested mode data in
  let s := if negb (has_ema s) then set_training NetG true s else s in
  Some (s, output).

(** What a validation goes through: the modes, the generators, and the
    files and dicts. *)
Record session := Session {
  networks : nets;
  rng : @generators py_state np_state torch_state other_state;
  store : world
}.

(** Lines 181-187: [ModelInference(model, test_loader)]. *)
Definition model_inference_init (model : network) (seed : Z) (s : session)
    : saved_seed * session :=
  let '(self, g) := _set_seed set_random_seed seed (rng s) in
  (self, Session (set_training model false (networks s)) g (store s)).

(** Lines 210-269 with line 217: the walk of a [ModelInference] over the
    network it was made for, which answers in the mode it is in. *)
Definition walk_in_session (model : network) (save_path : string)
    (save_img accu self_prop : bool) (test_loader : list test_data)
    (s : session) : option (nets * outcome unit) :=
  let modes := set_training model false (networks s) in
  mode ← training_of model modes;
  Some (modes,
        inference_frame_by_frame (matcher model mode) recolorize_gt render
          save_path save_img accu self_prop test_loader (store s)).

(** Lines 109-112 and 122-129 of [nondist_validation]: the options, the
    [ModelInference] of the network to validate, and its walk.  The
    bookkeeping of the metrics around them (lines 114-120 and 130-149) is
    left out. *)
Definition validation_walk (visualization dataset_name : string)
    (opt : val_options) (current_iter : Z) (save_img : bool)
    (test_loader : list test_data) (s : session)
    : option (saved_seed * nets * generators * outcome unit) :=
  let save_img := default false (val_save_img opt) in
  let accu := default false (val_accu opt) in
  let self_prop := default false (val_self_prop opt) in
  let model := if has_ema (networks s) then NetGEma else NetG in
  let '(model_inference, s) := model_inference_init model 42 s in
  let s := Session (set_training NetG true (networks s)) (rng s) (store s) in
  let save_path := osp_join visualization [str current_iter; dataset_name] in
  walked ← walk_in_session model save_path save_img accu self_prop
             test_loader s;
  Some (model_inference, walked.1, rng s, walked.2).

End Validation.


(** A batch of one frame: the file name and two tensors, numbers standing
    for tensors and the successor for their move to the device. *)
Definition example_batch : @batch nat (list string) :=
  [("file_name", Plain ["d/A/line/0001"]); ("line", Tensor 1%nat);
   ("seg", Tensor 2%nat)].


(** * Properties *)

(** ** Order of the colours *)

Lemma color_compare_eq c d : color_compare c d = Eq <-> c = d.
Proof.
  destruct c as [r g b a], d as [r' g' b' a']; unfold color_compare; simpl.
  split.
  - destruct (Z.compare_spec r r'); try discriminate.
    destruct (Z.compare_spec g g'); try discriminate.
    destruct (Z.compare_spec b b'); try discriminate.
    destruct (Z.compare_spec a a'); try discriminate.
    intros _; congruence.
  - intros [= -> -> -> ->]. by rewrite !Z.compare_refl.
Qed.

Lemma color_compare_antisym c d :
  color_compare d c = CompOpp (color_compare c d).
Proof.
  destruct c as [r g b a], d as [r' g' b' a']; unfold color_compare; simpl.
  rewrite (Z.compare_antisym r r'), (Z.compare_antisym g g'),
    (Z.compare_antisym b b'), (Z.compare_antisym a a').
  destruct (r ?= r'), (g ?= g'), (b ?= b'), (a ?= a'); reflexivity.
Qed.

Lemma color_lt_trans c d e : color_lt c d -> color_lt d e -> color_lt c e.
Proof.
  destruct c as [r g b a], d as [r' g' b' a'], e as [r'' g'' b'' a''].
  unfold color_lt, color_compare; simpl.
  destruct (Z.compare_spec r r'); try discriminate;
  destruct (Z.compare_spec r' r''); try discriminate;
  destruct (Z.compare_spec r r''); try lia; try reflexivity;
  destruct (Z.compare_spec g g'); try discriminate;
  destruct (Z.compare_spec g' g''); try discriminate;
  destruct (Z.compare_spec g g''); try lia; try reflexivity;
  destruct (Z.compare_spec b b'); try discriminate;
  destruct (Z.compare_spec b' b''); try discriminate;
  destruct (Z.compare_spec b b''); try lia; try reflexivity;
  destruct (Z.compare_spec a a'); try discriminate;
  destruct (Z.compare_spec a' a''); try discriminate;
  destruct (Z.compare_spec a a''); try lia; reflexivity.
Qed.

Lemma color_le_antisym c d : color_le c d -> color_le d c -> c = d.
Proof.
  unfold color_le. rewrite (color_compare_antisym c d).
  intros H1 H2. apply color_compare_eq.
  destruct (color_compare c d); simpl in *; congruence.
Qed.

Lemma color_lt_le c d : color_lt c d -> color_le c d.
Proof. unfold color_lt, color_le. congruence. Qed.

Lemma color_le_refl c : color_le c c.
Proof.
  unfold color_le. by rewrite (proj2 (color_compare_eq c c) eq_refl).
Qed.

(** ** [np.unique]: the distinct rows, increasing *)

Lemma insert_row_elem c rows x :
  x ∈ insert_row c rows <-> x = c \/ x ∈ rows.
Proof.
  induction rows as [|d rows IH]; simpl.
  - rewrite list_elem_of_singleton, elem_of_nil. tauto.
  - destruct (color_compare c d) eqn:E.
    + apply color_compare_eq in E as ->. rewrite elem_of_cons. tauto.
    + rewrite !elem_of_cons. tauto.
    + rewrite !elem_of_cons, IH. tauto.
Qed.

Lemma np_unique_elem rows x : x ∈ np_unique rows <-> x ∈ rows.
Proof.
  induction rows as [|c rows IH]; simpl; [done|].
  rewrite insert_row_elem, IH, elem_of_cons. tauto.
Qed.

Lemma insert_row_sorted c rows :
  StronglySorted color_lt rows -> StronglySorted color_lt (insert_row c rows).
Proof.
  induction 1 as [|d rows Hs IH Hd]; simpl.
  - repeat constructor.
  - destruct (color_compare c d) eqn:E.
    + by constructor.
    + constructor; [by constructor|].
      constructor; [done|].
      eapply Forall_impl; [exact Hd|].
      intros e He. by eapply color_lt_trans.
    + constructor; [done|].
      apply Forall_forall. intros e [->|He]%insert_row_elem.
      * unfold color_lt. rewrite color_compare_antisym, E. done.
      * by eapply Forall_forall in Hd.
Qed.

Lemma np_unique_sorted rows : StronglySorted color_lt (np_unique rows).
Proof.
  induction rows; simpl; [constructor|by apply insert_row_sorted].
Qed.

Lemma sorted_lookup_lt (rows : list color) i j c d :
  StronglySorted color_lt rows ->
  (i < j)%nat -> rows !! i = Some c -> rows !! j = Some d -> color_lt c d.
Proof.
  intros Hs. revert i j.
  induction Hs as [|e rows Hs IH He]; intros i j Hij Hi Hj; [done|].
  destruct j as [|j]; [lia|]. simpl in Hj.
  destruct i as [|i]; simpl in Hi.
  - injection Hi as ->. eapply Forall_forall in He; [done|].
    by eapply list_elem_of_lookup_2.
  - eapply (IH i j); [lia|done..].
Qed.

(** Two increasing lists with the same rows are the same list. *)
Lemma color_lt_irrefl c : ~ color_lt c c.
Proof.
  unfold color_lt. by rewrite (proj2 (color_compare_eq c c) eq_refl).
Qed.

Lemma sorted_same_rows (rows1 rows2 : list color) :
  StronglySorted color_lt rows1 -> StronglySorted color_lt rows2 ->
  (forall c, c ∈ rows1 <-> c ∈ rows2) -> rows1 = rows2.
Proof.
  intros H1. revert rows2.
  induction H1 as [|c rows1 Hs1 IH Hc]; intros rows2 H2 Hsame.
  - destruct rows2 as [|d rows2]; [done|].
    exfalso. eapply elem_of_nil, Hsame. left.
  - destruct H2 as [|d rows2 Hs2 Hd].
    { exfalso. eapply elem_of_nil, Hsame. left. }
    assert (c = d) as <-.
    { assert (c ∈ d :: rows2) as Hin1 by (apply Hsame; left).
      assert (d ∈ c :: rows1) as Hin2 by (apply Hsame; left).
      apply elem_of_cons in Hin1 as [|Hin1]; [done|].
      apply elem_of_cons in Hin2 as [|Hin2]; [done|].
      exfalso. eapply Forall_forall in Hc; [|exact Hin2].
      eapply Forall_forall in Hd; [|exact Hin1].
      eapply color_lt_irrefl, color_lt_trans; [exact Hc|exact Hd]. }
    f_equal. apply IH; [done|]. intros e. split; intros He.
    + assert (e ∈ c :: rows2) as Hin by (apply Hsame; by right).
      apply elem_of_cons in Hin as [->|]; [|done].
      exfalso. eapply Forall_forall in Hc; [|exact He].
      by eapply color_lt_irrefl.
    + assert (e ∈ c :: rows1) as Hin by (apply Hsame; by right).
      apply elem_of_cons in Hin as [->|]; [|done].
      exfalso. eapply Forall_forall in Hd; [|exact He].
      by eapply color_lt_irrefl.
Qed.

Lemma np_unique_same_rows rows1 rows2 :
  (forall c, c ∈ rows1 <-> c ∈ rows2) -> np_unique rows1 = np_unique rows2.
Proof.
  intros Hsame. apply sorted_same_rows; [apply np_unique_sorted..|].
  intros c. by rewrite !np_unique_elem.
Qed.

(** ** The order of [float32] *)

Lemma float32_order x y :
  match float_key x, float_key y with
  | Some a, Some b =>
      (float32_lt x y = true <-> key_lt a b) /\
      (float32_le x y = true <-> key_lt a b \/ key_eq a b) /\
      (float32_eq x y = true <-> key_eq a b)
  | _, _ =>
      float32_lt x y = false /\ float32_le x y = false /\
      float32_eq x y = false
  end.
Proof.
  unfold float32_lt, float32_le, float32_eq, SFltb, SFleb, SFeqb, key_lt, key_eq.
  destruct x as [sx|sx| |sx mx ex], y as [sy|sy| |sy my ey];
    try destruct sx; try destruct sy; simpl;
    try (split; [|split]; done);
    try (split; [|split]; split; (done || lia)).
  all: change (Pos.compare_cont Eq mx my) with (Z.pos mx ?= Z.pos my).
  all: destruct (Z.compare_spec ex ey); try destruct (Z.compare_spec (Z.pos mx) (Z.pos my));
    simpl; (split; [|split]); split; (done || lia).
Qed.

Lemma isnan_key x : isnan x = true <-> float_key x = None.
Proof. destruct x as [[]|[]| |[] ? ?]; done. Qed.

Lemma isnan_false_key x : isnan x = false -> exists a, float_key x = Some a.
Proof. destruct x as [[]|[]| |[] ? ?]; by eauto. Qed.

(** The facts of the order the proofs below use; [x], [y] and [z] have their
    places [a], [b] and [c], or none. *)
Ltac float_order x y :=
  let H := fresh "Horder" in
  pose proof (float32_order x y) as H;
  unfold key_lt, key_eq in H.

Ltac float_keys :=
  repeat match goal with
         | H : context [float_key ?x] |- _ =>
             destruct (float_key x) as [[[? ?] ?]|]
         end;
  simpl in *.

Lemma float32_lt_irrefl x : float32_lt x x = false.
Proof.
  float_order x x. apply not_true_iff_false. intros E.
  float_keys; [|by destruct Horder as (? & _); congruence].
  destruct Horder as (Hlt & _). apply Hlt in E. lia.
Qed.

Lemma float32_le_not_lt x y : float32_le x y = true -> float32_lt y x = false.
Proof.
  intros Hle. float_order x y. float_order y x.
  apply not_true_iff_false. intros Hlt. float_keys;
    try (destruct Horder as (_ & ? & _); congruence).
  destruct Horder as (_ & H1 & _), Horder0 as (H2 & _).
  apply H1 in Hle. apply H2 in Hlt. lia.
Qed.

Lemma float32_lt_not_le x y : float32_lt x y = true -> float32_le y x = false.
Proof.
  intros Hlt. apply not_true_iff_false. intros Hle.
  apply float32_le_not_lt in Hle. congruence.
Qed.

Lemma float32_not_le_lt x y :
  isnan x = false -> isnan y = false ->
  float32_le x y = false -> float32_lt y x = true.
Proof.
  intros [a Ha]%isnan_false_key [b Hb]%isnan_false_key Hle.
  apply not_true_iff_false in Hle.
  float_order x y. float_order y x. rewrite Ha, Hb in *.
  destruct a as [[? ?] ?], b as [[? ?] ?]. simpl in *.
  destruct Horder as (_ & H1 & _), Horder0 as (H2 & _).
  apply H2. destruct (decide (float32_le x y = true)) as [|Hn]; [done|].
  assert (~ ((z < z2 \/ z = z2 /\ (z0 < z3 \/ z0 = z3 /\ z1 < z4)) \/
             z = z2 /\ z0 = z3 /\ z1 = z4)) as Hno by (intros ?; by apply Hle, H1).
  lia.
Qed.

Lemma float32_lt_trans x y z :
  float32_lt x y = true -> float32_lt y z = true -> float32_lt x z = true.
Proof.
  intros H1 H2. float_order x y. float_order y z. float_order x z.
  float_keys;
    try (destruct Horder as (? & _); congruence);
    try (destruct Horder0 as (? & _); congruence).
  destruct Horder as (Ha & _), Horder0 as (Hb & _), Horder1 as (Hc & _).
  apply Ha in H1. apply Hb in H2. apply Hc. lia.
Qed.

Lemma float32_le_lt_trans x y z :
  float32_le x y = true -> float32_lt y z = true -> float32_lt x z = true.
Proof.
  intros H1 H2. float_order x y. float_order y z. float_order x z.
  float_keys;
    try (destruct Horder as (_ & ? & _); congruence);
    try (destruct Horder0 as (? & _); congruence).
  destruct Horder as (_ & Ha & _), Horder0 as (Hb & _), Horder1 as (Hc & _).
  apply Ha in H1. apply Hb in H2. apply Hc. lia.
Qed.

Lemma float32_lt_asym x y : float32_lt x y = true -> float32_lt y x = false.
Proof.
  intros H1. apply not_true_iff_false. intros H2.
  float_order x y. float_order y x.
  float_keys; try (destruct Horder as (? & _); congruence).
  destruct Horder as (Ha & _), Horder0 as (Hb & _).
  apply Ha in H1. apply Hb in H2. lia.
Qed.

Lemma float32_lt_isnan x y :
  float32_lt x y = true -> isnan x = false /\ isnan y = false.
Proof.
  intros H. split; apply not_true_iff_false; intros E%isnan_key;
    float_order x y; rewrite E in Horder.
  - destruct Horder as (? & _). congruence.
  - destruct (float_key x); destruct Horder as (? & _); congruence.
Qed.

Lemma float32_le_nan_l x y : isnan x = true -> float32_le x y = false.
Proof.
  intros E%isnan_key. float_order x y. rewrite E in Horder. by destruct Horder as (_ & ? & _).
Qed.

Lemma float32_lt_nan_l x y : isnan x = true -> float32_lt x y = false.
Proof.
  intros E%isnan_key. float_order x y. rewrite E in Horder. by destruct Horder as (? & _).
Qed.

Lemma float32_eq_le x y : float32_eq x y = true -> float32_le y x = true.
Proof.
  intros H. float_order x y. float_order y x.
  float_keys; try (destruct Horder as (_ & _ & ?); congruence).
  destruct Horder as (_ & _ & Ha), Horder0 as (_ & Hb & _).
  apply Ha in H. apply Hb. lia.
Qed.

(** ** [np.argmax]: the first NaN, or the first of the largest entries *)

Lemma argmax_from_nan best_i best i xs :
  isnan best = true -> argmax_from best_i best i xs = best_i.
Proof. intros H. destruct xs; simpl; [done|by rewrite H]. Qed.

Lemma argmax_from_spec xs : forall best_i best i,
  let k := argmax_from best_i best i xs in
  (k = best_i /\ forall j y, xs !! j = Some y -> float32_lt best y = false) \/
  (exists j x, k = (i + j)%nat /\ xs !! j = Some x /\ isnan best = false /\
     float32_le x best = false /\
     (forall j' y, xs !! j' = Some y -> float32_lt x y = false) /\
     (forall j' y, (j' < j)%nat -> xs !! j' = Some y ->
        float32_le x y = false)).
Proof.
  induction xs as [|x0 xs IH]; intros best_i best i; simpl.
  { left. split; [done|]. intros j y Hj. done. }
  destruct (isnan best) eqn:Enan.
  { left. split; [done|]. intros j y _. by apply float32_lt_nan_l. }
  destruct (float32_le x0 best) eqn:Ele; simpl.
  - (* the best entry stays *)
    destruct (IH best_i best (S i))
      as [[Hk Hle]|(j & x & Hk & Hj & _ & Hx & Hmax & Hfirst)].
    + left. split; [done|].
      intros [|j] y Hy; simpl in Hy; [|eauto].
      injection Hy as <-. by apply float32_le_not_lt.
    + right. exists (S j), x. simpl in Hk. rewrite Hk.
      split; [lia|]. split; [done|]. split; [done|]. split; [done|].
      assert (isnan x = false -> float32_lt x0 x = true) as Hbelow.
      { intros Hx'. eapply float32_le_lt_trans; [exact Ele|].
        by apply float32_not_le_lt. }
      split.
      * intros [|j'] y Hy; simpl in Hy; [|eauto]. injection Hy as <-.
        destruct (isnan x) eqn:Ex; [by apply float32_lt_nan_l|].
        by apply float32_lt_asym, Hbelow.
      * intros [|j'] y Hj' Hy; simpl in Hy; [|eapply Hfirst; [|done]; lia].
        injection Hy as <-.
        destruct (isnan x) eqn:Ex; [by apply float32_le_nan_l|].
        by apply float32_lt_not_le, Hbelow.
  - (* the entry at hand is the best one now *)
    destruct (IH i x0 (S i))
      as [[Hk Hle]|(j & x & Hk & Hj & Hx0 & Hx & Hmax & Hfirst)].
    + right. exists 0%nat, x0. simpl in Hk. rewrite Hk.
      split; [lia|]. split; [done|]. split; [done|]. split; [done|]. split.
      * intros [|j'] y Hy; simpl in Hy; [|eauto]. injection Hy as <-.
        apply float32_lt_irrefl.
      * intros j' y Hj'. lia.
    + right. exists (S j), x. simpl in Hk. rewrite Hk.
      split; [lia|]. split; [done|]. split; [done|].
      assert (isnan x = false -> float32_lt x0 x = true) as Hbelow.
      { intros Hx'. by apply float32_not_le_lt. }
      split; [|split].
      * destruct (isnan x) eqn:Ex; [by apply float32_le_nan_l|].
        apply float32_lt_not_le.
        eapply float32_lt_trans; [|exact (Hbelow eq_refl)].
        by apply float32_not_le_lt.
      * intros [|j'] y Hy; simpl in Hy; [|eauto]. injection Hy as <-.
        destruct (isnan x) eqn:Ex; [by apply float32_lt_nan_l|].
        by apply float32_lt_asym, Hbelow.
      * intros [|j'] y Hj' Hy; simpl in Hy; [by injection Hy as <-|].
        eapply Hfirst; [|done]. lia.
Qed.

Lemma np_argmax_spec xs :
  xs <> [] ->
  exists k x, np_argmax xs = Some k /\ xs !! k = Some x /\
    (forall j y, xs !! j = Some y -> float32_lt x y = false) /\
    (forall j y, (j < k)%nat -> xs !! j = Some y -> float32_le x y = false).
Proof.
  destruct xs as [|x0 xs]; [done|]. intros _. simpl.
  destruct (argmax_from_spec xs 0%nat x0 1%nat)
    as [[Hk Hle]|(j & x & Hk & Hj & Hx0 & Hx & Hmax & Hfirst)].
  - exists 0%nat, x0. simpl in Hk. rewrite Hk. split; [done|]. split; [done|].
    split; [|intros; lia].
    intros [|j] y Hy; simpl in Hy; [|eauto].
    injection Hy as <-. apply float32_lt_irrefl.
  - exists (S j), x. simpl in Hk. rewrite Hk. split; [done|]. split; [done|].
    split.
    + intros [|j'] y Hy; simpl in Hy; [|eauto]. injection Hy as <-.
      destruct (isnan x) eqn:Ex; [by apply float32_lt_nan_l|].
      by apply float32_lt_asym, float32_not_le_lt.
    + intros [|j'] y Hj' Hy; simpl in Hy; [by injection Hy as <-|].
      eapply Hfirst; [|done]. lia.
Qed.

(** ** The vote of the accumulated mode, on the arrays *)

Lemma vote_nil scores : vote [] scores = None.
Proof. reflexivity. Qed.

Lemma vote_spec color_lookup scores :
  color_lookup <> [] ->
  exists c, vote color_lookup scores = Some c /\ c ∈ color_lookup /\
    (forall d, d ∈ color_lookup ->
       float32_lt (mask_score color_lookup scores c)
                  (mask_score color_lookup scores d) = false) /\
    (forall d, d ∈ color_lookup ->
       float32_eq (mask_score color_lookup scores d)
                  (mask_score color_lookup scores c) = true ->
       color_le c d).
Proof.
  intros Hne. unfold vote.
  set (u := np_unique color_lookup).
  assert (Hprobs : accumulated_probs color_lookup scores u
                   = map (mask_score color_lookup scores) u) by reflexivity.
  rewrite Hprobs.
  assert (Hu : u <> []).
  { destruct color_lookup as [|c0 rest]; [done|].
    assert (c0 ∈ u) as Hin by (apply np_unique_elem; left).
    intros E. rewrite E in Hin. by apply elem_of_nil in Hin. }
  destruct (np_argmax_spec (map (mask_score color_lookup scores) u))
    as (k & x & Hk & Hx & Hmax & Hfirst).
  { destruct u; [done|discriminate]. }
  rewrite Hk. simpl.
  change (map (mask_score color_lookup scores) u)
    with (mask_score color_lookup scores <$> u) in *.
  rewrite list_lookup_fmap in Hx.
  destruct (u !! k) as [c|] eqn:Hc; [|discriminate].
  simpl in Hx. injection Hx as <-.
  exists c. split; [done|].
  split; [by eapply np_unique_elem, list_elem_of_lookup_2|].
  assert (Hidx : forall d, d ∈ color_lookup -> exists j, u !! j = Some d).
  { intros d Hd. by apply list_elem_of_lookup, np_unique_elem. }
  split.
  - intros d [j Hj]%Hidx. apply (Hmax j).
    by rewrite list_lookup_fmap, Hj.
  - intros d [j Hj]%Hidx Heq.
    destruct (lt_eq_lt_dec j k) as [[Hlt| ->]|Hgt].
    + exfalso.
      assert (float32_le (mask_score color_lookup scores c)
                (mask_score color_lookup scores d) = false) as Hstrict.
      { apply (Hfirst j); [done|]. by rewrite list_lookup_fmap, Hj. }
      apply float32_eq_le in Heq. congruence.
    + rewrite Hc in Hj. injection Hj as ->. apply color_le_refl.
    + apply color_lt_le.
      eapply (sorted_lookup_lt u k j); [apply np_unique_sorted|done..].
Qed.

(** The vote depends on the colours present and on the score of each, and
    on nothing else. *)
Lemma vote_determined lookup1 scores1 lookup2 scores2 :
  (forall c, c ∈ lookup1 <-> c ∈ lookup2) ->
  (forall c, c ∈ lookup1 ->
     mask_score lookup1 scores1 c = mask_score lookup2 scores2 c) ->
  vote lookup1 scores1 = vote lookup2 scores2.
Proof.
  intros Hsame Hscore. unfold vote, accumulated_probs.
  rewrite <- (np_unique_same_rows lookup1 lookup2 Hsame).
  fold (mask_score lookup1 scores1). fold (mask_score lookup2 scores2).
  assert (map (mask_score lookup1 scores1) (np_unique lookup1)
          = map (mask_score lookup2 scores2) (np_unique lookup1)) as ->; [|done].
  apply map_ext_Forall, Forall_forall.
  intros c Hc. apply Hscore. by apply np_unique_elem.
Qed.

Lemma mask_score_color_score C_prev scores c :
  mask_score (color_lookup_list C_prev (length scores)) scores c
  = color_score C_prev scores c.
Proof. reflexivity. Qed.

Lemma color_lookup_list_elem C_prev n c :
  c ∈ color_lookup_list C_prev n <->
  exists j, (j < n)%nat /\ reference_color C_prev j = c.
Proof.
  unfold color_lookup_list.
  change (map (reference_color C_prev) (seq 0 n))
    with (reference_color C_prev <$> seq 0 n).
  rewrite list_elem_of_fmap. split.
  - intros (j & -> & Hj). apply elem_of_seq in Hj. exists j. split; [lia|done].
  - intros (j & Hj & <-). exists j. split; [done|]. apply elem_of_seq. lia.
Qed.

(** ** [int64] *)

Lemma wrap_int64_range z : int64_min <= wrap_int64 z <= int64_max.
Proof.
  unfold wrap_int64, int64_min, int64_max.
  pose proof (Z.mod_pos_bound (z + 2 ^ 63) (2 ^ 64) ltac:(lia)). lia.
Qed.

Lemma int64_val_range (a : int64) : int64_min <= a <= int64_max.
Proof.
  destruct a as [v H]. simpl.
  apply Is_true_true, andb_true_iff in H as [H1 H2]. lia.
Qed.

Lemma i64_val z : int64_val (i64 z) = wrap_int64 z.
Proof.
  unfold i64. destruct (decide _) as [|Hno]; [done|].
  exfalso. apply Hno, Is_true_true, andb_true_iff.
  pose proof (wrap_int64_range z). lia.
Qed.

Lemma wrap_int64_id z : int64_min <= z <= int64_max -> wrap_int64 z = z.
Proof.
  unfold wrap_int64, int64_min, int64_max. intros H.
  rewrite Z.mod_small by lia. lia.
Qed.

Lemma i64_val_id z : int64_min <= z <= int64_max -> int64_val (i64 z) = z.
Proof. intros H. by rewrite i64_val, wrap_int64_id. Qed.

Lemma int64_eq (a b : int64) : int64_val a = int64_val b -> a = b.
Proof.
  destruct a as [v Hv], b as [v' Hv']. simpl. intros ->.
  f_equal. apply proof_irrel.
Qed.

(** [item + 1] is the exact sum below [2^63 - 1], and [-2^63] there. *)
Lemma int64_succ (item : int64) :
  int64_val (int64_add item (i64 1))
  = if bool_decide (int64_val item = int64_max) then int64_min
    else int64_val item + 1.
Proof.
  unfold int64_add. rewrite i64_val, (i64_val_id 1) by done.
  pose proof (int64_val_range item) as H. case_bool_decide as E.
  - rewrite E. reflexivity.
  - apply wrap_int64_id. unfold int64_min, int64_max in *. lia.
Qed.

Lemma item_key_exact (item : int64) :
  int64_val item < int64_max -> item_key item = str (item + 1).
Proof.
  intros H. unfold item_key. rewrite int64_succ.
  rewrite bool_decide_false by lia. done.
Qed.

Lemma item_key_wrapped (item : int64) :
  int64_val item = int64_max -> item_key item = "-9223372036854775808".
Proof.
  intros H. unfold item_key. rewrite int64_succ.
  rewrite bool_decide_true by done. reflexivity.
Qed.

(** ** The loops, on the store *)

Ltac unfold_M :=
  unfold mbind, M_bind, bind, mret, M_ret, ret, raise, of_option in *.

Lemma with_entries_id w l d : dicts w !! l = Some d -> with_entries w l d = w.
Proof.
  intros H. destruct w as [fs ds]. unfold with_entries. simpl in *.
  by rewrite insert_id.
Qed.

Lemma with_entries_twice w l d d' :
  with_entries (with_entries w l d) l d' = with_entries w l d'.
Proof. unfold with_entries. simpl. by rewrite insert_insert_eq. Qed.

Lemma key_of_nat_inj (i j : nat) :
  key_of (Z.of_nat i) = key_of (Z.of_nat j) -> i = j.
Proof.
  unfold key_of, str. intros H. apply (inj pretty) in H. lia.
Qed.

Lemma getitem_spec w l d k :
  dicts w !! l = Some d ->
  getitem l k w = match d !! k with
                  | Some c => Done c w
                  | None => Raised (KeyError k) w
                  end.
Proof.
  intros H. unfold getitem, with_dict. rewrite H. by destruct (d !! k).
Qed.

Lemma setitem_spec w l d k c :
  dicts w !! l = Some d ->
  setitem l k c w = Done tt (with_entries w l (<[k := c]> d)).
Proof. intros H. unfold setitem, with_dict. by rewrite H. Qed.

Lemma contains_spec w l d k :
  dicts w !! l = Some d ->
  contains l k w = Done (bool_decide (is_Some (d !! k))) w.
Proof. intros H. unfold contains, with_dict. by rewrite H. Qed.

Lemma color_lookup_of_spec w color_dict C_prev scores :
  dicts w !! color_dict = Some C_prev ->
  color_lookup_of color_dict scores w
  = Done (color_lookup_list C_prev (length scores)) w.
Proof.
  intros H. unfold color_lookup_of, color_lookup_list.
  generalize (seq 0 (length scores)) as js.
  induction js as [|j js IH]; simpl; [done|].
  unfold_M. rewrite (contains_spec w _ C_prev) by done.
  unfold reference_color at 1.
  destruct (C_prev !! key_of (Z.of_nat j)) as [c|] eqn:E; simpl.
  - rewrite (getitem_spec w _ C_prev), E by done. by rewrite IH.
  - by rewrite IH.
Qed.

Lemma direct_body_spec w color_dict color_next_frame C_prev acc i item :
  dicts w !! color_dict = Some C_prev ->
  dicts w !! color_next_frame = Some acc ->
  direct_body color_dict color_next_frame i item w
  = match direct_entry C_prev item with
    | inr c => Done tt (with_entries w color_next_frame
                          (<[key_of (Z.of_nat i) := c]> acc))
    | inl e => Raised e w
    end.
Proof.
  intros Hprev Hnext. unfold direct_body, direct_entry.
  destruct (bool_decide (int64_val item = -1)).
  - by apply setitem_spec.
  - unfold_M. rewrite (getitem_spec w _ C_prev) by done.
    destruct (C_prev !! item_key item); [by apply setitem_spec|done].
Qed.

Lemma accu_body_spec w color_dict color_next_frame C_prev acc i scores :
  dicts w !! color_dict = Some C_prev ->
  dicts w !! color_next_frame = Some acc ->
  accu_body color_dict color_next_frame i scores w
  = match accu_entry C_prev scores with
    | inr c => Done tt (with_entries w color_next_frame
                          (<[key_of (Z.of_nat i) := c]> acc))
    | inl e => Raised e w
    end.
Proof.
  intros Hprev Hnext. unfold accu_body, accu_entry. unfold_M.
  rewrite (color_lookup_of_spec w _ C_prev) by done.
  destruct (vote _ scores); [by apply setitem_spec|done].
Qed.

Lemma for_enumerate_spec {A} (body : nat -> A -> M unit)
    (entry : A -> exn + color) color_dict color_next_frame C_prev :
  color_dict <> color_next_frame ->
  (forall w acc i x,
     dicts w !! color_dict = Some C_prev ->
     dicts w !! color_next_frame = Some acc ->
     body i x w = match entry x with
                  | inr c => Done tt (with_entries w color_next_frame
                                        (<[key_of (Z.of_nat i) := c]> acc))
                  | inl e => Raised e w
                  end) ->
  forall xs start w acc,
    dicts w !! color_dict = Some C_prev ->
    dicts w !! color_next_frame = Some acc ->
    for_enumerate body start xs w
    = match assign_all entry start xs acc with
      | (None, m) => Done tt (with_entries w color_next_frame m)
      | (Some e, m) => Raised e (with_entries w color_next_frame m)
      end.
Proof.
  intros Hne Hbody. induction xs as [|x xs IH]; intros start w acc Hprev Hnext.
  - simpl. unfold_M. by rewrite with_entries_id.
  - simpl. unfold_M. rewrite (Hbody w acc) by done.
    destruct (entry x) as [e|c].
    + by rewrite with_entries_id.
    + rewrite (IH _ _ (<[key_of (Z.of_nat start) := c]> acc)).
      * destruct (assign_all _ _ _ _) as [[e|] m];
          by rewrite with_entries_twice.
      * unfold with_entries. simpl. by rewrite lookup_insert_ne.
      * unfold with_entries. simpl. by rewrite lookup_insert_eq.
Qed.

Lemma fresh_dict_ne w l (d : gmap string color) :
  dicts w !! l = Some d -> l <> fresh (dom (dicts w)).
Proof.
  intros H ->. apply (is_fresh (dom (dicts w))). apply elem_of_dom. eauto.
Qed.

Lemma fresh_dict_None w : dicts w !! fresh (dom (dicts w)) = None.
Proof. apply not_elem_of_dom, is_fresh. Qed.

Lemma resolve_colors_direct w color_dict C_prev match_ match_scores :
  dicts w !! color_dict = Some C_prev ->
  resolve_colors false color_dict match_ match_scores w
  = let l := fresh (dom (dicts w)) in
    match assign_all (direct_entry C_prev) 0 match_ ∅ with
    | (None, m) => Done l (with_entries w l m)
    | (Some e, m) => Raised e (with_entries w l m)
    end.
Proof.
  intros H. unfold resolve_colors, new_dict, alloc_dict. unfold_M. simpl.
  pose proof (fresh_dict_ne w _ _ H) as Hne.
  set (l := fresh (dom (dicts w))) in *.
  rewrite (for_enumerate_spec _ (direct_entry C_prev) color_dict l C_prev Hne)
    with (acc := ∅).
  - change (World (files w) (<[l:=∅]> (dicts w))) with (with_entries w l ∅).
    destruct (assign_all _ _ _ _) as [[e|] m]; by rewrite with_entries_twice.
  - intros. by apply direct_body_spec.
  - simpl. by rewrite lookup_insert_ne.
  - simpl. by rewrite lookup_insert_eq.
Qed.

Lemma resolve_colors_accu w color_dict C_prev match_ match_scores :
  dicts w !! color_dict = Some C_prev ->
  resolve_colors true color_dict match_ match_scores w
  = let l := fresh (dom (dicts w)) in
    match assign_all (accu_entry C_prev) 0 match_scores ∅ with
    | (None, m) => Done l (with_entries w l m)
    | (Some e, m) => Raised e (with_entries w l m)
    end.
Proof.
  intros H. unfold resolve_colors, new_dict, alloc_dict. unfold_M. simpl.
  pose proof (fresh_dict_ne w _ _ H) as Hne.
  set (l := fresh (dom (dicts w))) in *.
  rewrite (for_enumerate_spec _ (accu_entry C_prev) color_dict l C_prev Hne)
    with (acc := ∅).
  - change (World (files w) (<[l:=∅]> (dicts w))) with (with_entries w l ∅).
    destruct (assign_all _ _ _ _) as [[e|] m]; by rewrite with_entries_twice.
  - intros. by apply accu_body_spec.
  - simpl. by rewrite lookup_insert_ne.
  - simpl. by rewrite lookup_insert_eq.
Qed.

(** ** The entries a loop assigns *)

Section AssignAll.
Context {A : Type} (entry : A -> exn + color).

Lemma assign_all_other xs : forall start acc k,
  (forall i, (i < length xs)%nat -> k <> key_of (Z.of_nat (start + i))) ->
  (assign_all entry start xs acc).2 !! k = acc !! k.
Proof.
  induction xs as [|x xs IH]; intros start acc k Hk; simpl; [done|].
  destruct (entry x) as [e|c]; [done|].
  rewrite IH.
  - apply lookup_insert_ne. intros E. apply (Hk 0%nat); [simpl; lia|].
    by rewrite Nat.add_0_r.
  - intros i Hi. replace (S start + i)%nat with (start + S i)%nat by lia.
    apply Hk. simpl. lia.
Qed.

Lemma assign_all_entry xs : forall start acc m i x,
  assign_all entry start xs acc = (None, m) ->
  xs !! i = Some x ->
  exists c, entry x = inr c /\ m !! key_of (Z.of_nat (start + i)) = Some c.
Proof.
  induction xs as [|x0 xs IH]; intros start acc m i x Hrun Hi; [done|].
  simpl in Hrun. destruct (entry x0) as [e|c] eqn:E; [done|].
  destruct i as [|i]; simpl in Hi.
  - injection Hi as <-. exists c. split; [done|].
    rewrite Nat.add_0_r.
    pose proof (assign_all_other xs (S start)
                  (<[key_of (Z.of_nat start) := c]> acc)
                  (key_of (Z.of_nat start))) as Hother.
    rewrite Hrun in Hother. simpl in Hother.
    rewrite Hother; [apply lookup_insert_eq|].
    intros i _ Heq. apply key_of_nat_inj in Heq. lia.
  - replace (start + S i)%nat with (S start + i)%nat by lia.
    by eapply IH.
Qed.

Lemma assign_all_None xs : forall start acc,
  (assign_all entry start xs acc).1 = None <->
  Forall (fun x => exists c, entry x = inr c) xs.
Proof.
  induction xs as [|x xs IH]; intros start acc; simpl.
  - split; [constructor|done].
  - destruct (entry x) as [e|c] eqn:E.
    + split; [done|]. intros H. inversion H as [|? ? [c Hc] ?]; subst.
      congruence.
    + rewrite IH. split.
      * intros H. constructor; eauto.
      * intros H. by inversion H.
Qed.

(** A loop stops at the first turn that raises, with its exception. *)
Lemma assign_all_Some xs : forall start acc e,
  (assign_all entry start xs acc).1 = Some e ->
  exists i x, xs !! i = Some x /\ entry x = inl e /\
    forall i' x', (i' < i)%nat -> xs !! i' = Some x' ->
      exists c, entry x' = inr c.
Proof.
  induction xs as [|x xs IH]; intros start acc e; simpl; [done|].
  destruct (entry x) as [e0|c] eqn:E.
  - simpl. intros [= ->]. exists 0%nat, x. split; [done|]. split; [done|].
    intros; lia.
  - intros (i & x1 & Hi & He & Hbefore)%IH. exists (S i), x1.
    split; [done|]. split; [done|].
    intros [|i'] x' Hlt Hx'; simpl in Hx'.
    + injection Hx' as <-. eauto.
    + eapply Hbefore; [|done]. lia.
Qed.

Lemma assign_all_dom xs m :
  assign_all entry 0 xs ∅ = (None, m) ->
  dom m = segment_keys (length xs).
Proof.
  intros Hrun. apply set_eq. intros k.
  unfold segment_keys. rewrite elem_of_list_to_set, elem_of_dom.
  change (map (fun i : nat => key_of (Z.of_nat i)) (seq 0 (length xs)))
    with ((fun i : nat => key_of (Z.of_nat i)) <$> seq 0 (length xs)).
  rewrite list_elem_of_fmap. split.
  - intros Hk.
    destruct (decide (k ∈ (fun i : nat => key_of (Z.of_nat i))
                            <$> seq 0 (length xs))) as [Hin|Hno].
    + by apply list_elem_of_fmap in Hin.
    + exfalso. pose proof (assign_all_other xs 0%nat ∅ k) as Hother.
      rewrite Hrun in Hother. simpl in Hother.
      rewrite Hother, lookup_empty in Hk.
      * by destruct Hk.
      * intros i Hi ->. apply Hno, list_elem_of_fmap.
        exists i. split; [done|]. apply elem_of_seq. lia.
  - intros (i & -> & Hi). apply elem_of_seq in Hi.
    destruct (lookup_lt_is_Some_2 xs i) as [x Hx]; [lia|].
    destruct (assign_all_entry xs 0%nat ∅ m i x Hrun Hx) as (c & _ & Hc).
    simpl in Hc. eauto.
Qed.

End AssignAll.

Lemma segment_keys_elem n k :
  k ∈ segment_keys n <->
  exists i : nat, (i < n)%nat /\ k = str (Z.of_nat i + 1).
Proof.
  unfold segment_keys. rewrite elem_of_list_to_set.
  change (map (fun i : nat => key_of (Z.of_nat i)) (seq 0 n))
    with ((fun i : nat => key_of (Z.of_nat i)) <$> seq 0 n).
  rewrite list_elem_of_fmap. split.
  - intros (i & -> & Hi). apply elem_of_seq in Hi. exists i. split; [lia|done].
  - intros (i & Hi & ->). exists i. split; [done|]. apply elem_of_seq. lia.
Qed.

Lemma segment_keys_size n : size (segment_keys n) = n.
Proof.
  unfold segment_keys. rewrite size_list_to_set.
  - by rewrite length_map, length_seq.
  - change (map (fun i : nat => key_of (Z.of_nat i)) (seq 0 n))
      with ((fun i : nat => key_of (Z.of_nat i)) <$> seq 0 n).
    apply NoDup_fmap_2; [|apply NoDup_seq].
    intros i j. apply key_of_nat_inj.
Qed.

(** ** The key set of a new colour map *)

(** C10. A frame that resolves, in either mode, yields a colour map whose
    keys are exactly ["1"], ..., ["N"], one per target segment ([N] is the
    length of [match] in the direct mode and of [match_scores] in the
    accumulated mode); there is no key ["0"]. *)
Theorem new_color_map_keys (accu : bool) color_dict C_prev match_ match_scores
    w l w' :
  dicts w !! color_dict = Some C_prev ->
  resolve_colors accu color_dict match_ match_scores w = Done l w' ->
  let n := if accu then length match_scores else length match_ in
  exists d, dicts w' !! l = Some d /\
    (forall k, k ∈ dom d <->
       exists i : nat, (i < n)%nat /\ k = str (Z.of_nat i + 1)) /\
    size d = n /\
    "0" ∉ dom d.
Proof.
  intros Hprev Hrun n.
  assert (exists d, dicts w' !! l = Some d /\ dom d = segment_keys n)
    as (d & Hd & Hdom).
  { destruct accu.
    - rewrite (resolve_colors_accu w _ C_prev) in Hrun by done. simpl in Hrun.
      destruct (assign_all _ _ _ _) as [[e|] m] eqn:E; [done|].
      injection Hrun as <- <-. exists m. simpl.
      split; [apply lookup_insert_eq|]. by eapply assign_all_dom.
    - rewrite (resolve_colors_direct w _ C_prev) in Hrun by done. simpl in Hrun.
      destruct (assign_all _ _ _ _) as [[e|] m] eqn:E; [done|].
      injection Hrun as <- <-. exists m. simpl.
      split; [apply lookup_insert_eq|]. by eapply assign_all_dom. }
  exists d. split; [done|]. rewrite Hdom. split; [|split].
  - intros k. apply segment_keys_elem.
  - rewrite <- size_dom, Hdom. apply segment_keys_size.
  - intros (i & _ & Hi)%segment_keys_elem.
    change "0" with (str 0) in Hi. unfold str in Hi.
    apply (inj pretty) in Hi. lia.
Qed.

Lemma new_color_map_keys_witness :
  exists d, dicts (world_of (resolve_colors false 0%nat [i64 0; i64 (-1)] []
                               (store_of only_red))) !! 1%nat = Some d /\
    size d = 2%nat.
Proof.
  destruct (new_color_map_keys false 0%nat only_red [i64 0; i64 (-1)] []
              (store_of only_red) 1%nat
              (world_of (resolve_colors false 0%nat [i64 0; i64 (-1)] []
                           (store_of only_red))))
    as (d & Hd & _ & Hsize & _).
  - reflexivity.
  - vm_compute. reflexivity.
  - exists d. split; [exact Hd|exact Hsize].
Defined.

(** ** The previous colour map is left as it is *)

Lemma resolve_colors_world (accu : bool) color_dict C_prev match_ match_scores w :
  dicts w !! color_dict = Some C_prev ->
  exists m,
    world_of (resolve_colors accu color_dict match_ match_scores w)
    = with_entries w (fresh (dom (dicts w))) m /\
    forall l w', resolve_colors accu color_dict match_ match_scores w
                 = Done l w' -> l = fresh (dom (dicts w)).
Proof.
  intros Hprev. destruct accu.
  - rewrite (resolve_colors_accu w _ C_prev) by done. simpl.
    destruct (assign_all _ _ _ _) as [[e|] m]; exists m;
      (split; [done|]); intros l w' [=]; done.
  - rewrite (resolve_colors_direct w _ C_prev) by done. simpl.
    destruct (assign_all _ _ _ _) as [[e|] m]; exists m;
      (split; [done|]); intros l w' [=]; done.
Qed.

(** C9. Resolving a frame, in either mode and whether it ends or raises,
    leaves the dict of the previous frame and every other dict there was as
    they were, and the files too; the colour map it returns is a dict object
    that did not exist before, so it is not the previous one updated. *)
Theorem resolve_leaves_previous_map (accu : bool) color_dict C_prev
    match_ match_scores w :
  dicts w !! color_dict = Some C_prev ->
  let o := resolve_colors accu color_dict match_ match_scores w in
  dicts (world_of o) !! color_dict = Some C_prev /\
  (forall l d, dicts w !! l = Some d -> dicts (world_of o) !! l = Some d) /\
  files (world_of o) = files w /\
  (forall l w', o = Done l w' ->
     dicts w !! l = None /\ l <> color_dict /\ is_Some (dicts w' !! l)).
Proof.
  intros Hprev o.
  destruct (resolve_colors_world accu color_dict C_prev match_ match_scores w
              Hprev) as (m & Hw & Hl).
  fold o in Hw, Hl. rewrite Hw.
  assert (Hold : forall l d, dicts w !! l = Some d ->
            dicts (with_entries w (fresh (dom (dicts w))) m) !! l = Some d).
  { intros l d Hd. simpl. rewrite lookup_insert_ne; [done|].
    intros E. by eapply fresh_dict_ne. }
  split; [by apply Hold|]. split; [exact Hold|]. split; [done|].
  intros l w' Ho. pose proof (Hl l w' Ho) as ->.
  split; [apply fresh_dict_None|].
  split; [intros E; by eapply fresh_dict_ne|].
  rewrite Ho in Hw. simpl in Hw. rewrite Hw. simpl.
  rewrite lookup_insert_eq. eauto.
Qed.

Lemma resolve_leaves_previous_map_witness :
  dicts (world_of (resolve_colors false 0%nat [i64 0] [] (store_of only_red)))
    !! 0%nat = Some only_red.
Proof.
  destruct (resolve_leaves_previous_map false 0%nat only_red [i64 0] []
              (store_of only_red)) as [H _].
  - reflexivity.
  - exact H.
Defined.

(** ** Segments without a match *)

Lemma resolve_colors_accu_any_match color_dict match1 match2 match_scores w :
  resolve_colors true color_dict match1 match_scores w
  = resolve_colors true color_dict match2 match_scores w.
Proof. reflexivity. Qed.

Lemma resolved_entry (accu : bool) color_dict C_prev match_ match_scores
    w l w' :
  dicts w !! color_dict = Some C_prev ->
  resolve_colors accu color_dict match_ match_scores w = Done l w' ->
  exists m, dicts w' !! l = Some m /\
    if accu then assign_all (accu_entry C_prev) 0 match_scores ∅ = (None, m)
    else assign_all (direct_entry C_prev) 0 match_ ∅ = (None, m).
Proof.
  intros Hprev Hrun. destruct accu.
  - rewrite (resolve_colors_accu w _ C_prev) in Hrun by done. simpl in Hrun.
    destruct (assign_all _ _ _ _) as [[e|] m] eqn:E; [done|].
    injection Hrun as <- <-. exists m. simpl.
    split; [apply lookup_insert_eq|done].
  - rewrite (resolve_colors_direct w _ C_prev) in Hrun by done. simpl in Hrun.
    destruct (assign_all _ _ _ _) as [[e|] m] eqn:E; [done|].
    injection Hrun as <- <-. exists m. simpl.
    split; [apply lookup_insert_eq|done].
Qed.

Lemma direct_resolved_entry color_dict C_prev match_ match_scores w l w' i item :
  dicts w !! color_dict = Some C_prev ->
  resolve_colors false color_dict match_ match_scores w = Done l w' ->
  match_ !! i = Some item ->
  exists c, direct_entry C_prev item = inr c /\
    dict_entry w' l (str (Z.of_nat i + 1)) = Some c.
Proof.
  intros Hprev Hrun Hi.
  destruct (resolved_entry false _ _ _ _ _ _ _ Hprev Hrun) as (m & Hm & Hall).
  destruct (assign_all_entry _ _ _ _ _ _ _ Hall Hi) as (c & Hc & Hk).
  exists c. split; [done|]. unfold dict_entry. rewrite Hm. simpl. exact Hk.
Qed.

Lemma accu_resolved_entry color_dict C_prev match_ match_scores w l w' i scores :
  dicts w !! color_dict = Some C_prev ->
  resolve_colors true color_dict match_ match_scores w = Done l w' ->
  match_scores !! i = Some scores ->
  exists c, vote (color_lookup_list C_prev (length scores)) scores = Some c /\
    dict_entry w' l (str (Z.of_nat i + 1)) = Some c.
Proof.
  intros Hprev Hrun Hi.
  destruct (resolved_entry true _ _ _ _ _ _ _ Hprev Hrun) as (m & Hm & Hall).
  destruct (assign_all_entry _ _ _ _ _ _ _ Hall Hi) as (c & Hc & Hk).
  exists c. unfold accu_entry in Hc.
  destruct (vote _ scores) as [c'|]; [|done]. injection Hc as ->.
  split; [done|]. unfold dict_entry. rewrite Hm. simpl. exact Hk.
Qed.

(** C3, as the claim has it, fails: in the accumulated mode [match] is not
    read, and a segment whose match is [-1] gets the colour the scores vote
    for. *)
Lemma unmatched_in_accumulated_mode_counterexample :
  exists l w',
    resolve_colors true 0%nat [i64 (-1)] [[one]] (store_of only_red)
    = Done l w' /\
    dict_entry w' l "1" = Some rgba_red /\
    dict_entry w' l "1" <> Some unmatched.
Proof.
  eexists _, _. split; [vm_compute; reflexivity|].
  split; [vm_compute; reflexivity|]. vm_compute. discriminate.
Qed.

(** C3, amended. In the direct mode a segment whose match is [-1] gets
    [[0, 0, 0, 0]]: its turn of the loop ends without an exception whatever
    the previous colour map holds, a frame of such segments alone always
    resolves, and in a frame that resolves the entry is the sentinel.  The
    accumulated mode never reads [match]. *)
Theorem unmatched_segment_direct :
  (forall w color_dict color_next_frame acc (i : nat),
     dicts w !! color_next_frame = Some acc ->
     direct_body color_dict color_next_frame i (i64 (-1)) w
     = Done tt (with_entries w color_next_frame
                  (<[str (Z.of_nat i + 1) := unmatched]> acc))) /\
  (forall w color_dict C_prev match_scores (n : nat),
     dicts w !! color_dict = Some C_prev ->
     exists l w', resolve_colors false color_dict (replicate n (i64 (-1)))
                    match_scores w = Done l w') /\
  (forall w color_dict C_prev match_ match_scores l w' (i : nat),
     dicts w !! color_dict = Some C_prev ->
     resolve_colors false color_dict match_ match_scores w = Done l w' ->
     match_ !! i = Some (i64 (-1)) ->
     dict_entry w' l (str (Z.of_nat i + 1)) = Some unmatched) /\
  (forall w color_dict match1 match2 match_scores,
     resolve_colors true color_dict match1 match_scores w
     = resolve_colors true color_dict match2 match_scores w).
Proof.
  split; [|split; [|split]].
  - intros w cd cnf acc i Hacc. unfold direct_body.
    rewrite bool_decide_true by (by rewrite i64_val_id).
    by apply setitem_spec.
  - intros w cd C_prev match_scores n Hprev.
    rewrite (resolve_colors_direct w _ C_prev) by done. simpl.
    destruct (assign_all (direct_entry C_prev) 0 (replicate n (i64 (-1))) ∅)
      as [[e|] m] eqn:E; [|eauto].
    exfalso.
    assert ((assign_all (direct_entry C_prev) 0 (replicate n (i64 (-1))) ∅).1
            = None) as Hok.
    { apply assign_all_None, Forall_forall.
      intros x ->%elem_of_replicate_inv. exists unmatched.
      unfold direct_entry.
      by rewrite bool_decide_true by (by rewrite i64_val_id). }
    by rewrite E in Hok.
  - intros w cd C_prev match_ match_scores l w' i Hprev Hrun Hi.
    destruct (direct_resolved_entry _ _ _ _ _ _ _ _ _ Hprev Hrun Hi)
      as (c & Hc & Hk).
    unfold direct_entry in Hc.
    rewrite bool_decide_true in Hc by (by rewrite i64_val_id).
    by injection Hc as <-.
  - intros. apply resolve_colors_accu_any_match.
Qed.

Lemma unmatched_segment_direct_witness :
  dict_entry (world_of (resolve_colors false 0%nat [i64 0; i64 (-1)] []
                          (store_of only_red))) 1%nat (str (Z.of_nat 1 + 1))
  = Some unmatched.
Proof.
  apply (proj1 (proj2 (proj2 unmatched_segment_direct))
           (store_of only_red) 0%nat only_red [i64 0; i64 (-1)] [] 1%nat _ 1%nat).
  - reflexivity.
  - vm_compute. reflexivity.
  - reflexivity.
Defined.

(** ** The accumulated mode *)

Lemma color_lookup_list_nonempty C_prev (scores : list float32) :
  scores <> [] -> color_lookup_list C_prev (length scores) <> [].
Proof. destruct scores; [done|]. intros _. discriminate. Qed.

Lemma vote_color_lookup C_prev scores :
  scores <> [] ->
  exists c, vote (color_lookup_list C_prev (length scores)) scores = Some c /\
    (exists j, (j < length scores)%nat /\ reference_color C_prev j = c) /\
    (forall j, (j < length scores)%nat ->
       float32_lt (color_score C_prev scores c)
         (color_score C_prev scores (reference_color C_prev j)) = false) /\
    (forall j, (j < length scores)%nat ->
       float32_eq (color_score C_prev scores (reference_color C_prev j))
         (color_score C_prev scores c) = true ->
       color_le c (reference_color C_prev j)).
Proof.
  intros Hne.
  destruct (vote_spec (color_lookup_list C_prev (length scores)) scores)
    as (c & Hvote & Hin & Hmax & Hlow).
  { by apply color_lookup_list_nonempty. }
  exists c. split; [done|].
  split; [by apply color_lookup_list_elem|].
  split.
  - intros j Hj. rewrite <- !mask_score_color_score. apply Hmax.
    apply color_lookup_list_elem. eauto.
  - intros j Hj Heq. apply Hlow.
    + apply color_lookup_list_elem. eauto.
    + by rewrite !mask_score_color_score.
Qed.

Lemma accu_entry_nonempty C_prev scores :
  scores <> [] -> exists c, accu_entry C_prev scores = inr c.
Proof.
  intros (c & Hc & _)%(vote_color_lookup C_prev).
  exists c. unfold accu_entry. by rewrite Hc.
Qed.

Lemma accu_entry_empty C_prev : accu_entry C_prev [] = inl ValueError.
Proof. reflexivity. Qed.





(** C4, as the claim has it, fails: red (key ["1"]) and green (key ["2"])
    collect one half each; red comes first in the order of the reference
    segments, and the code picks green. *)
Lemma first_occurrence_tie_break_counterexample :
  let scores := [half; half] in
  float32_eq (color_score red_then_green scores rgba_red)
    (color_score red_then_green scores rgba_green) = true /\
  first_occurrence_choice red_then_green scores = Some rgba_red /\
  exists l w',
    resolve_colors true 0%nat [i64 0] [scores] (store_of red_then_green)
    = Done l w' /\
    dict_entry w' l "1" = Some rgba_green /\
    dict_entry w' l "1" <> first_occurrence_choice red_then_green scores.
Proof.
  split; [vm_compute; reflexivity|]. split; [vm_compute; reflexivity|].
  eexists _, _. split; [vm_compute; reflexivity|].
  split; [vm_compute; reflexivity|]. vm_compute. discriminate.
Qed.

(** C4, amended. In the accumulated mode the entry of a target segment is,
    of the colours of the lookup whose accumulated score (the [float32] sum
    line 262 computes) is the largest, the least one in the order of the
    channels R, G, B, A (the order in which [np.unique] lists the colours),
    wherever its first reference segment stands: no colour has a larger
    score, and a colour with an equal score is not below the entry. *)
Theorem tie_break_least_color color_dict C_prev match_ match_scores w l w'
    (i : nat) scores c :
  dicts w !! color_dict = Some C_prev ->
  resolve_colors true color_dict match_ match_scores w = Done l w' ->
  match_scores !! i = Some scores ->
  dict_entry w' l (str (Z.of_nat i + 1)) = Some c ->
  (forall j, (j < length scores)%nat ->
     float32_lt (color_score C_prev scores c)
       (color_score C_prev scores (reference_color C_prev j)) = false) /\
  (forall j, (j < length scores)%nat ->
     float32_eq (color_score C_prev scores (reference_color C_prev j))
       (color_score C_prev scores c) = true ->
     color_le c (reference_color C_prev j)).
Proof.
  intros Hprev Hrun Hi Hc.
  destruct (accu_resolved_entry _ _ _ _ _ _ _ _ _ Hprev Hrun Hi)
    as (c' & Hvote & Hk).
  rewrite Hc in Hk. injection Hk as <-.
  assert (scores <> []) as Hs.
  { intros ->. by rewrite vote_nil in Hvote. }
  destruct (vote_color_lookup C_prev scores Hs)
    as (c' & Hvote' & _ & Hmax & Hlow).
  rewrite Hvote in Hvote'. injection Hvote' as <-. done.
Qed.

Lemma tie_break_least_color_witness :
  color_le rgba_green (reference_color red_then_green 0).
Proof.
  refine (proj2 (tie_break_least_color 0%nat red_then_green [i64 0]
                   [[half; half]] (store_of red_then_green) 1%nat
                   (world_of (resolve_colors true 0%nat [i64 0] [[half; half]]
                                (store_of red_then_green)))
                   0%nat [half; half] rgba_green _ _ _ _) 0%nat _ _).
  - reflexivity.
  - vm_compute. reflexivity.
  - reflexivity.
  - vm_compute. reflexivity.
  - simpl. lia.
  - vm_compute. reflexivity.
Defined.

(** ** [np.sum] of zeros and one other number *)

(** Adding zeros to a number leaves it as it is, in whatever order NumPy
    adds. *)
Section SumOfOne.

Variable p : float32.
Hypothesis p_not_zero : is_zero p = false.

Lemma sums_to_add c1 c2 v1 v2 :
  sums_to p c1 v1 -> sums_to p c2 v2 ->
  sums_to p (c1 + c2) (float32_add v1 v2).
Proof.
  intros [Hz1 Hp1] [Hz2 Hp2]. split.
  - intros H. assert (c1 = 0%nat /\ c2 = 0%nat) as [-> ->] by lia.
    specialize (Hz1 eq_refl). specialize (Hz2 eq_refl).
    destruct v1 as [[]| | |], v2 as [[]| | |]; done.
  - intros H.
    assert (c1 = 0%nat /\ c2 = 1%nat \/ c1 = 1%nat /\ c2 = 0%nat)
      as [[-> ->]|[-> ->]] by lia.
    + specialize (Hz1 eq_refl). rewrite (Hp2 eq_refl).
      destruct v1 as [[]| | |]; try done; by destruct p as [|[]| |].
    + specialize (Hz2 eq_refl). rewrite (Hp1 eq_refl).
      destruct v2 as [[]| | |]; try done; by destruct p as [|[]| |].
Qed.

Lemma sums_to_entry x : entry_ok p x -> sums_to p (count x) x.
Proof.
  unfold count. intros [Hx| ->].
  - rewrite Hx. by split.
  - rewrite p_not_zero. by split.
Qed.

Lemma nonzeros_cons x a : nonzeros (x :: a) = (count x + nonzeros a)%nat.
Proof.
  unfold nonzeros, count. rewrite filter_cons.
  destruct (is_zero x); by case_decide.
Qed.

Lemma nonzeros_app a b : nonzeros (a ++ b) = (nonzeros a + nonzeros b)%nat.
Proof. unfold nonzeros. by rewrite filter_app, length_app. Qed.

Lemma nonzeros_sum a : nonzeros a = sum_list (count <$> a).
Proof.
  induction a as [|x a IH]; [done|]. rewrite nonzeros_cons, IH. done.
Qed.

Lemma add_all_sums a : forall c res,
  sums_to p c res -> Forall (entry_ok p) a ->
  sums_to p (c + nonzeros a) (add_all res a).
Proof.
  induction a as [|x a IH]; intros c res Hres Ha.
  - unfold nonzeros. simpl. by rewrite Nat.add_0_r.
  - inversion Ha as [|? ? Hx Ha']; subst.
    rewrite nonzeros_cons, Nat.add_assoc. simpl.
    apply IH; [|done]. apply sums_to_add; [done|by apply sums_to_entry].
Qed.

Lemma zip_with_sums cs r : forall ds b,
  Forall2 (sums_to p) cs r -> Forall2 (sums_to p) ds b ->
  Forall2 (sums_to p) (zip_with Nat.add cs ds) (zip_with float32_add r b).
Proof.
  intros ds b H. revert ds b.
  induction H as [|c v cs r Hcv _ IH]; intros ds b Hb; [constructor|].
  destruct Hb as [|d x ds b Hdx Hb]; simpl; [constructor|].
  constructor; [by apply sums_to_add|by apply IH].
Qed.

Lemma sum_list_zip_with (cs ds : list nat) :
  length cs = length ds ->
  sum_list (zip_with Nat.add cs ds) = (sum_list cs + sum_list ds)%nat.
Proof.
  revert ds. induction cs as [|c cs IH]; intros [|d ds] Hlen; try done.
  simpl in *. rewrite IH by lia. lia.
Qed.

Lemma entries_sums b :
  Forall (entry_ok p) b -> Forall2 (sums_to p) (count <$> b) b.
Proof.
  induction 1 as [|x b Hx _ IH]; constructor; [by apply sums_to_entry|done].
Qed.

Lemma add_blocks_sums blocks : forall r a cs,
  length r = 8%nat -> (8 * blocks <= length a)%nat ->
  Forall2 (sums_to p) cs r -> Forall (entry_ok p) a ->
  exists cs',
    Forall2 (sums_to p) cs' (add_blocks blocks r a) /\
    sum_list cs' = (sum_list cs + nonzeros (take (8 * blocks) a))%nat /\
    length (add_blocks blocks r a) = 8%nat.
Proof.
  induction blocks as [|blocks IH]; intros r a cs Hr Ha Hcs Hok.
  - exists cs. simpl. rewrite take_0. unfold nonzeros. simpl.
    split; [done|]. split; [lia|done].
  - simpl add_blocks.
    assert (length (take 8 a) = 8%nat) as Hb by (rewrite length_take; lia).
    destruct (IH (zip_with float32_add r (take 8 a)) (drop 8 a)
                (zip_with Nat.add cs (count <$> take 8 a)))
      as (cs' & Hcs' & Hsum & Hlen).
    + rewrite length_zip_with. lia.
    + rewrite length_drop. lia.
    + apply zip_with_sums; [done|]. apply entries_sums.
      by apply Forall_take.
    + by apply Forall_drop.
    + exists cs'. split; [done|]. split; [|done].
      rewrite Hsum, sum_list_zip_with.
      * rewrite <- nonzeros_sum.
        replace (8 * S blocks)%nat with (8 + 8 * blocks)%nat by lia.
        rewrite <- (take_take_drop a 8 (8 * blocks)), nonzeros_app. lia.
      * apply Forall2_length in Hcs. rewrite length_fmap. lia.
Qed.

Lemma unrolled_sum_sums a :
  Forall (entry_ok p) a -> sums_to p (nonzeros a) (unrolled_sum a).
Proof.
  intros Hok.
  assert (sums_to p (nonzeros a) (add_all float32_zero a)) as Hplain.
  { apply (add_all_sums a 0%nat); [by split|done]. }
  unfold unrolled_sum.
  destruct (decide (length a < 8)%nat) as [Hshort|Hlong].
  { rewrite Nat.div_small by done. simpl add_blocks.
    assert (length (take 8 a) < 8)%nat as Hlen by (rewrite length_take; lia).
    destruct (take 8 a) as [|? [|? [|? [|? [|? [|? [|? [|? [|? ?]]]]]]]]];
      simpl in Hlen; (done || lia). }
  set (n := length a) in *.
  pose proof (Nat.div_mod_eq n 8) as Hdiv.
  assert (n mod 8 < 8)%nat as Hmod by (apply Nat.mod_upper_bound; lia).
  assert (1 <= n / 8)%nat as Hq by (apply Nat.div_le_lower_bound; lia).
  destruct (add_blocks_sums (n / 8 - 1) (take 8 a) (drop 8 a)
              (count <$> take 8 a))
    as (cs & Hcs & Hsum & Hlen).
  { rewrite length_take. fold n. lia. }
  { rewrite length_drop. fold n. lia. }
  { apply entries_sums. by apply Forall_take. }
  { by apply Forall_drop. }
  rewrite <- nonzeros_sum in Hsum.
  assert (nonzeros a
          = (sum_list cs + nonzeros (drop (n - n mod 8) a))%nat) as Htotal.
  { rewrite Hsum.
    rewrite <- (take_drop (n - n mod 8) a) at 1.
    rewrite nonzeros_app. f_equal.
    replace (n - n mod 8)%nat with (8 + 8 * (n / 8 - 1))%nat by lia.
    by rewrite <- (take_take_drop a 8 (8 * (n / 8 - 1))), nonzeros_app. }
  destruct (add_blocks (n / 8 - 1) (take 8 a) (drop 8 a))
    as [|r0 [|r1 [|r2 [|r3 [|r4 [|r5 [|r6 [|r7 [|? ?]]]]]]]]];
    simpl in Hlen; try lia.
  apply Forall2_length in Hcs as Hcslen.
  destruct cs as [|c0 [|c1 [|c2 [|c3 [|c4 [|c5 [|c6 [|c7 [|? ?]]]]]]]]];
    simpl in Hcslen; try lia.
  repeat match goal with
         | H : Forall2 _ (_ :: _) (_ :: _) |- _ =>
             apply Forall2_cons in H as [? H]
         end.
  rewrite Htotal. apply add_all_sums; [|by apply Forall_drop].
  simpl sum_list.
  replace (c0 + (c1 + (c2 + (c3 + (c4 + (c5 + (c6 + (c7 + 0))))))))%nat
    with (((c0 + c1) + (c2 + c3)) + ((c4 + c5) + (c6 + c7)))%nat by lia.
  repeat apply sums_to_add; done.
Qed.

Lemma pairwise_sum_eq fuel a :
  pairwise_sum fuel a
  = let n := length a in
    if (n <? 8)%nat then add_all float32_zero a
    else if (n <=? 128)%nat then unrolled_sum a
    else match fuel with
         | O => unrolled_sum a
         | S fuel' =>
             let n2 := (n / 2 - (n / 2) mod 8)%nat in
             float32_add (pairwise_sum fuel' (take n2 a))
                         (pairwise_sum fuel' (drop n2 a))
         end.
Proof. by destruct fuel. Qed.

(** Fuel as large as the length is never used up: the sum does not depend
    on it, and a long array is summed as its two parts are. *)
Lemma pairwise_sum_fuel fuel : forall fuel' a,
  (length a <= fuel)%nat -> (length a <= fuel')%nat ->
  pairwise_sum fuel a = pairwise_sum fuel' a.
Proof.
  induction fuel as [|fuel IH]; intros fuel' a Hf Hf'.
  { destruct a; [|simpl in Hf; lia]. by destruct fuel'. }
  rewrite (pairwise_sum_eq (S fuel)), (pairwise_sum_eq fuel'). cbv zeta.
  destruct (length a <? 8)%nat eqn:E8; [done|].
  destruct (length a <=? 128)%nat eqn:E128; [done|].
  apply Nat.ltb_ge in E8. apply Nat.leb_gt in E128.
  destruct fuel' as [|fuel']; [lia|].
  pose proof (Nat.div_mod_eq (length a) 2) as Hhalf.
  assert (length a mod 2 < 2)%nat by (apply Nat.mod_upper_bound; lia).
  assert ((length a / 2) mod 8 < 8)%nat by (apply Nat.mod_upper_bound; lia).
  f_equal; apply IH; rewrite ?length_take, ?length_drop; lia.
Qed.

Lemma np_sum_long a :
  (128 < length a)%nat ->
  let n2 := (length a / 2 - (length a / 2) mod 8)%nat in
  np_sum a = float32_add (np_sum (take n2 a)) (np_sum (drop n2 a)).
Proof.
  intros Hlong n2. unfold np_sum at 1.
  destruct (length a) as [|n] eqn:En; [lia|].
  rewrite pairwise_sum_eq, En. cbv zeta.
  destruct (S n <? 8)%nat eqn:E8; [apply Nat.ltb_lt in E8; lia|].
  destruct (S n <=? 128)%nat eqn:E128; [apply Nat.leb_le in E128; lia|].
  pose proof (Nat.div_mod_eq (S n) 2) as Hhalf.
  assert (S n mod 2 < 2)%nat by (apply Nat.mod_upper_bound; lia).
  assert ((S n / 2) mod 8 < 8)%nat by (apply Nat.mod_upper_bound; lia).
  subst n2. unfold np_sum.
  f_equal; apply pairwise_sum_fuel; rewrite ?length_take, ?length_drop; lia.
Qed.

Lemma pairwise_sum_sums fuel : forall a,
  Forall (entry_ok p) a -> sums_to p (nonzeros a) (pairwise_sum fuel a).
Proof.
  induction fuel as [|fuel IH]; intros a Hok; rewrite pairwise_sum_eq;
    cbv zeta.
  - destruct (length a <? 8)%nat.
    + apply (add_all_sums a 0%nat); [by split|done].
    + destruct (length a <=? 128)%nat; by apply unrolled_sum_sums.
  - destruct (length a <? 8)%nat.
    + apply (add_all_sums a 0%nat); [by split|done].
    + destruct (length a <=? 128)%nat; [by apply unrolled_sum_sums|].
      set (n2 := (length a / 2 - (length a / 2) mod 8)%nat).
      rewrite <- (take_drop n2 a) at 1. rewrite nonzeros_app.
      apply sums_to_add; apply IH; [by apply Forall_take|by apply Forall_drop].
Qed.

Lemma np_sum_sums a :
  Forall (entry_ok p) a -> sums_to p (nonzeros a) (np_sum a).
Proof. apply pairwise_sum_sums. Qed.

(** The scores a mask picks of a vector that has [p] at [j] and zeros
    elsewhere. *)
Lemma bool_index_one scores : forall mask j,
  scores !! j = Some p ->
  (forall k x, k <> j -> scores !! k = Some x -> is_zero x = true) ->
  length mask = length scores ->
  Forall (entry_ok p) (bool_index scores mask) /\
  nonzeros (bool_index scores mask)
  = (if default false (mask !! j) then 1 else 0)%nat.
Proof.
  induction scores as [|s scores IH]; intros [|b mask] j Hj Hzero Hlen;
    try done.
  simpl in Hlen. destruct j as [|j]; simpl in Hj.
  - injection Hj as ->.
    assert (forall mask' : list bool,
              Forall (entry_ok p) (bool_index scores mask') /\
              nonzeros (bool_index scores mask') = 0%nat) as Hrest.
    { clear -Hzero. intros mask'. revert mask' Hzero.
      induction scores as [|s scores IH]; intros [|b mask'] Hzero;
        try (split; [constructor|done]).
      assert (is_zero s = true) as Hs by (by apply (Hzero 1%nat)).
      destruct (IH mask') as [Hok Hcount].
      { intros [|k] x Hk Hx; [done|]. by apply (Hzero (S (S k))). }
      simpl. destruct b; [|done]. split; [constructor; [by left|done]|].
      rewrite nonzeros_cons. unfold count. by rewrite Hs, Hcount. }
    destruct (Hrest mask) as [Hok Hcount]. simpl.
    destruct b; [|done].
    split; [constructor; [by right|done]|].
    rewrite nonzeros_cons. unfold count. by rewrite p_not_zero, Hcount.
  - assert (is_zero s = true) as Hs by (by apply (Hzero 0%nat)).
    destruct (IH mask j) as [Hok Hcount]; [done| |lia|].
    { intros k x Hk Hx. apply (Hzero (S k)); [lia|done]. }
    simpl. destruct b; [|done].
    split; [constructor; [by left|done]|].
    rewrite nonzeros_cons. unfold count. by rewrite Hs, Hcount.
Qed.

End SumOfOne.

(** ** One-hot scores *)

Lemma float32_eq_zero x : float32_eq x float32_zero = true -> is_zero x = true.
Proof. by destruct x as [|[]| |[] ? ?]. Qed.

Lemma float32_lt_zero p :
  float32_lt float32_zero p = true ->
  is_zero p = false /\
  forall z, is_zero z = true -> float32_lt z p = true.
Proof.
  intros H. split; [by destruct p|].
  intros [s| | |] Hz; done.
Qed.

Lemma one_hot_vote C_prev scores j :
  one_hot scores j ->
  vote (color_lookup_list C_prev (length scores)) scores
  = Some (reference_color C_prev j).
Proof.
  intros [(p & Hj & Hp) Hzero].
  apply float32_lt_zero in Hp as [Hp Hbelow].
  assert (forall k x, k <> j -> scores !! k = Some x -> is_zero x = true)
    as Hzero'.
  { intros k x Hk Hx. by eapply float32_eq_zero, Hzero. }
  assert (j < length scores)%nat as Hlen by (by eapply lookup_lt_Some).
  assert (scores <> []) as Hne by (intros ->; simpl in Hlen; lia).
  assert (forall c,
            sums_to p (if bool_decide (reference_color C_prev j = c)
                       then 1 else 0)%nat
              (color_score C_prev scores c)) as Hsum.
  { intros c. unfold color_score, color_scores.
    destruct (bool_index_one p Hp scores
                (row_mask (color_lookup_list C_prev (length scores)) c) j
                Hj Hzero') as [Hok Hcount].
    { unfold row_mask, color_lookup_list. by rewrite !length_map, length_seq. }
    assert (row_mask (color_lookup_list C_prev (length scores)) c !! j
            = Some (bool_decide (reference_color C_prev j = c))) as Hmask.
    { unfold row_mask, color_lookup_list.
      change (map ?f ?l) with (f <$> l).
      rewrite !list_lookup_fmap, lookup_seq_lt by done. done. }
    rewrite Hmask in Hcount. simpl in Hcount. rewrite <- Hcount.
    by apply np_sum_sums. }
  destruct (vote_color_lookup C_prev scores Hne)
    as (c & -> & _ & Hmax & _).
  f_equal. destruct (decide (reference_color C_prev j = c)) as [|Hc]; [done|].
  exfalso. specialize (Hmax j Hlen).
  pose proof (Hsum c) as [Hc0 _]. rewrite bool_decide_false in Hc0 by done.
  pose proof (Hsum (reference_color C_prev j)) as [_ Hj1].
  rewrite bool_decide_true in Hj1 by done.
  rewrite (Hj1 eq_refl), (Hbelow _ (Hc0 eq_refl)) in Hmax. done.
Qed.

Lemma assign_all_ext {A B} (entry1 : A -> exn + color)
    (entry2 : B -> exn + color) xs ys :
  Forall2 (fun x y => entry1 x = entry2 y) xs ys ->
  forall start acc,
    assign_all entry1 start xs acc = assign_all entry2 start ys acc.
Proof.
  induction 1 as [|x y xs ys Hxy _ IH]; intros start acc; simpl; [done|].
  rewrite Hxy. destruct (entry2 y); [done|apply IH].
Qed.

(** C5, as the claim has it, fails: without key ["1"] in the previous colour
    map, the one-hot vector on reference segment [0] gives the sentinel in
    the accumulated mode, and the direct mode raises [KeyError]. *)
Lemma one_hot_missing_key_counterexample :
  one_hot [one] 0 /\
  (exists w', resolve_colors false 0%nat [i64 0] [[one]] (store_of ∅)
              = Raised (KeyError "1") w') /\
  (exists l w', resolve_colors true 0%nat [i64 0] [[one]] (store_of ∅)
                = Done l w' /\ dict_entry w' l "1" = Some unmatched) /\
  resolve_colors true 0%nat [i64 0] [[one]] (store_of ∅)
  <> resolve_colors false 0%nat [i64 0] [[one]] (store_of ∅).
Proof.
  split; [|split; [|split]].
  - split.
    + exists one. split; [done|]. reflexivity.
    + intros [|k] x Hk Hx; [done|]. discriminate.
  - eexists. vm_compute. reflexivity.
  - eexists _, _. split; vm_compute; reflexivity.
  - vm_compute. discriminate.
Qed.

(** C5, amended. When every score vector is one-hot on the reference
    segment [match[i]], that segment is not [-1], and the previous colour
    map has its key [match[i] + 1], the accumulated mode and the direct mode
    have the same outcome: the same new colour map in the same store.  A
    score vector is a NumPy array: it has [2^63 - 1] entries at most, so
    that [match[i] + 1] does not wrap around. *)
Theorem one_hot_accumulated_is_direct color_dict C_prev match_ match_scores w :
  dicts w !! color_dict = Some C_prev ->
  length match_ = length match_scores ->
  (forall (i : nat) (item : int64) scores,
     match_ !! i = Some item -> match_scores !! i = Some scores ->
     0 <= item /\ one_hot scores (Z.to_nat item) /\
     is_Some (C_prev !! str (item + 1)) /\
     Z.of_nat (length scores) <= int64_max) ->
  resolve_colors true color_dict match_ match_scores w
  = resolve_colors false color_dict match_ match_scores w /\
  exists l w', resolve_colors true color_dict match_ match_scores w = Done l w'.
Proof.
  intros Hprev Hlen Hhot.
  rewrite (resolve_colors_accu w _ C_prev), (resolve_colors_direct w _ C_prev)
    by done.
  simpl.
  assert (forall (i : nat) (item : int64) scores,
            match_ !! i = Some item -> match_scores !! i = Some scores ->
            item_key item = key_of item) as Hkey.
  { intros i item scores Hi Hs.
    destruct (Hhot i item scores Hi Hs) as (Hpos & [(p & Hp & _) _] & _ & Hsize).
    apply lookup_lt_Some in Hp. apply item_key_exact. lia. }
  assert (Forall2 (fun scores item =>
            accu_entry C_prev scores = direct_entry C_prev item)
            match_scores match_) as Hsame.
  { apply Forall2_same_length_lookup_2; [done|].
    intros i scores item Hs Hi.
    destruct (Hhot i item scores Hi Hs) as (Hpos & Hone & [c Hc] & _).
    unfold accu_entry, direct_entry.
    rewrite (one_hot_vote C_prev scores _ Hone).
    rewrite bool_decide_false by lia.
    rewrite (Hkey i item scores Hi Hs).
    unfold reference_color. rewrite Z2Nat.id by done.
    fold (key_of item) in Hc. by rewrite Hc. }
  rewrite (assign_all_ext _ _ _ _ Hsame). split; [done|].
  destruct (assign_all (direct_entry C_prev) 0 match_ ∅) as [[e|] m] eqn:E;
    [|eauto].
  exfalso.
  assert ((assign_all (direct_entry C_prev) 0 match_ ∅).1 = None) as Hok.
  { apply assign_all_None, Forall_forall. intros item Hin.
    apply list_elem_of_lookup in Hin as [i Hi].
    destruct (lookup_lt_is_Some_2 match_scores i) as [scores Hs].
    { rewrite <- Hlen. by eapply lookup_lt_Some. }
    destruct (Hhot i item scores Hi Hs) as (Hpos & _ & [c Hc] & _).
    exists c. unfold direct_entry. rewrite bool_decide_false by lia.
    rewrite (Hkey i item scores Hi Hs).
    fold (key_of item) in Hc. by rewrite Hc. }
  by rewrite E in Hok.
Qed.

Lemma one_hot_accumulated_is_direct_witness :
  resolve_colors true 0%nat [i64 1] [[float32_zero; one]]
    (store_of red_then_green)
  = resolve_colors false 0%nat [i64 1] [[float32_zero; one]]
      (store_of red_then_green).
Proof.
  refine (proj1 (one_hot_accumulated_is_direct 0%nat red_then_green [i64 1]
                   [[float32_zero; one]] (store_of red_then_green) _ _ _)).
  - reflexivity.
  - reflexivity.
  - intros [|i] item scores Hi Hs; [|discriminate].
    injection Hi as <-. injection Hs as <-.
    split; [done|]. split; [|split].
    + split.
      * exists one. split; reflexivity.
      * intros [|[|k]] x Hk Hx; [|done|discriminate].
        injection Hx as <-. reflexivity.
    + vm_compute. eauto.
    + done.
Defined.

(** ** Renumbering the reference segments *)

Lemma same_grouping_vote C1 scores1 C2 scores2 :
  same_grouping C1 scores1 C2 scores2 ->
  vote (color_lookup_list C1 (length scores1)) scores1
  = vote (color_lookup_list C2 (length scores2)) scores2.
Proof.
  intros [Hcolors Hscores]. apply vote_determined; [done|].
  intros c _. rewrite !mask_score_color_score. apply Hscores.
Qed.

Lemma relabelled_in_order_same_grouping C1 scores1 C2 scores2 :
  relabelled_in_order C1 scores1 C2 scores2 ->
  same_grouping C1 scores1 C2 scores2.
Proof.
  intros [Hcolors Hscores]. split; [done|].
  intros c. unfold color_score. by rewrite Hscores.
Qed.

(** C6, as the claim has it, fails: the sums of line 262 are [float32]
    sums, and the order of the scores of a colour has a part in them.  Red
    is on the reference segments 1, 2 and 3, green on 4; the scores are
    [1/4], [2^-26], [2^-26] and [1/4].  Exchanging the numbers of the
    segments 1 and 3 leaves each segment its colour and each colour the sum
    of its scores, but red collects [1/4] before ([1/4 + 2^-26] rounds to
    [1/4], twice) and [1/4 + 2^-25] after: the entry is green before, by the
    tie, and red after. *)
Lemma relabelling_changes_color_counterexample :
  let scores1 := [quarter; tiny; tiny; quarter] in
  let scores2 := [tiny; tiny; quarter; quarter] in
  relabelled three_red_one_green scores1 three_red_one_green scores2 /\
  (exact_sum (color_scores three_red_one_green scores1 rgba_red)
   == exact_sum (color_scores three_red_one_green scores2 rgba_red))%Q /\
  (exact_sum (color_scores three_red_one_green scores1 rgba_green)
   == exact_sum (color_scores three_red_one_green scores2 rgba_green))%Q /\
  (exists l w',
     resolve_colors true 0%nat [] [scores1] (store_of three_red_one_green)
     = Done l w' /\
     dict_entry w' l "1" = Some rgba_green) /\
  (exists l w',
     resolve_colors true 0%nat [] [scores2] (store_of three_red_one_green)
     = Done l w' /\
     dict_entry w' l "1" = Some rgba_red).
Proof.
  split; [|split; [|split; [|split]]].
  - unfold relabelled. vm_compute.
    eapply perm_trans; [apply perm_swap|]. apply perm_skip, perm_swap.
  - vm_compute. reflexivity.
  - vm_compute. reflexivity.
  - eexists _, _. split; vm_compute; reflexivity.
  - eexists _, _. split; vm_compute; reflexivity.
Qed.

(** C6, amended. Two accumulated-mode inputs whose score vectors, target
    segment by target segment, group the reference segments alike (the same
    colours occur, and line 262 computes the same [float32] score for each
    colour) resolve to the same colour map, and one resolves when the other
    does.  A renumbering of the reference segments that keeps the segments
    of each colour in their order, colours and scores moving along, is such
    a pair. *)
Theorem relabelling_keeps_colors :
  (forall w1 dict1 C1 match1 match_scores1 w2 dict2 C2 match2 match_scores2
          l1 w1',
     dicts w1 !! dict1 = Some C1 ->
     dicts w2 !! dict2 = Some C2 ->
     length match_scores1 = length match_scores2 ->
     (forall (i : nat) scores1 scores2,
        match_scores1 !! i = Some scores1 ->
        match_scores2 !! i = Some scores2 ->
        same_grouping C1 scores1 C2 scores2) ->
     resolve_colors true dict1 match1 match_scores1 w1 = Done l1 w1' ->
     exists l2 w2',
       resolve_colors true dict2 match2 match_scores2 w2 = Done l2 w2' /\
       dicts w2' !! l2 = dicts w1' !! l1 /\
       forall k, dict_entry w2' l2 k = dict_entry w1' l1 k) /\
  (forall C1 scores1 C2 scores2,
     relabelled_in_order C1 scores1 C2 scores2 ->
     same_grouping C1 scores1 C2 scores2).
Proof.
  split; [|apply relabelled_in_order_same_grouping].
  intros w1 dict1 C1 match1 S1 w2 dict2 C2 match2 S2 l1 w1'
    H1 H2 Hlen Hsame Hrun.
  assert (Forall2 (fun s1 s2 => accu_entry C1 s1 = accu_entry C2 s2) S1 S2)
    as Hentries.
  { apply Forall2_same_length_lookup_2; [done|].
    intros i s1 s2 Hs1 Hs2. unfold accu_entry.
    by rewrite (same_grouping_vote C1 s1 C2 s2) by eauto. }
  rewrite (resolve_colors_accu w1 _ C1) in Hrun by done.
  rewrite (resolve_colors_accu w2 _ C2) by done.
  simpl in *. rewrite <- (assign_all_ext _ _ _ _ Hentries).
  destruct (assign_all (accu_entry C1) 0 S1 ∅) as [[e|] m]; [done|].
  injection Hrun as <- <-. eexists _, _. split; [done|].
  assert (dicts (with_entries w2 (fresh (dom (dicts w2))) m)
            !! fresh (dom (dicts w2))
          = dicts (with_entries w1 (fresh (dom (dicts w1))) m)
              !! fresh (dom (dicts w1))) as Heq.
  { simpl. by rewrite !lookup_insert_eq. }
  split; [done|]. intros k. unfold dict_entry. by rewrite Heq.
Qed.

Lemma relabelling_keeps_colors_witness :
  exists l2 w2',
    resolve_colors true 0%nat [] [[quarter; three_quarters]]
      (store_of {[ "1" := rgba_green; "2" := rgba_red ]}) = Done l2 w2' /\
    dict_entry w2' l2 "1"
    = dict_entry (world_of (resolve_colors true 0%nat []
                              [[three_quarters; quarter]]
                              (store_of red_then_green))) 1%nat "1".
Proof.
  destruct (proj1 relabelling_keeps_colors
              (store_of red_then_green) 0%nat red_then_green []
              [[three_quarters; quarter]]
              (store_of {[ "1" := rgba_green; "2" := rgba_red ]}) 0%nat
              {[ "1" := rgba_green; "2" := rgba_red ]} []
              [[quarter; three_quarters]] 1%nat
              (world_of (resolve_colors true 0%nat []
                           [[three_quarters; quarter]]
                           (store_of red_then_green))))
    as (l2 & w2' & Hrun & _ & Hentry).
  - reflexivity.
  - reflexivity.
  - reflexivity.
  - intros [|i] scores1 scores2 Hs1 Hs2; [|discriminate].
    injection Hs1 as <-. injection Hs2 as <-.
    apply (proj2 relabelling_keeps_colors).
    unfold relabelled_in_order, color_scores. cbn [length].
    assert (color_lookup_list red_then_green 2%nat = [rgba_red; rgba_green])
      as -> by (vm_compute; reflexivity).
    assert (color_lookup_list {[ "1" := rgba_green; "2" := rgba_red ]} 2%nat
            = [rgba_green; rgba_red]) as -> by (vm_compute; reflexivity).
    split.
    + intros c. rewrite !elem_of_cons, !elem_of_nil. tauto.
    + intros c. simpl.
      repeat case_bool_decide; try reflexivity.
      unfold rgba_red, rgba_green in *. congruence.
  - vm_compute. reflexivity.
  - exists l2, w2'. split; [exact Hrun|apply Hentry].
Defined.

(** ** Paths *)

Lemma app_String c (s t : string) : String c s +:+ t = String c (s +:+ t).
Proof. reflexivity. Qed.

Lemma app_empty_l (t : string) : "" +:+ t = t.
Proof. reflexivity. Qed.

Lemma app_assoc_string (s t u : string) : (s +:+ t) +:+ u = s +:+ t +:+ u.
Proof.
  induction s as [|c s IH]; [done|]. by rewrite !app_String, IH.
Qed.

Lemma app_inv_head_string (s t u : string) : s +:+ t = s +:+ u -> t = u.
Proof.
  induction s as [|c s IH]; [done|]. rewrite !app_String. intros [= H]. auto.
Qed.

Lemma no_sep_app (s t : string) :
  no_sep (s +:+ t) = no_sep s && no_sep t.
Proof.
  induction s as [|c s IH]; [done|].
  rewrite app_String. simpl. rewrite IH. by rewrite andb_assoc.
Qed.

Lemma no_sep_zeros n : no_sep (zeros n) = true.
Proof. induction n; [done|]. simpl. by rewrite IHn. Qed.

Lemma cut_last_sep_no_sep x : no_sep x = true -> cut_last_sep x = ("", x).
Proof.
  induction x as [|c x IH]; [done|]. simpl.
  intros [Hc Hx]%andb_true_iff. rewrite (IH Hx).
  apply negb_true_iff in Hc. by rewrite Hc.
Qed.

Lemma cut_last_sep_app p x :
  no_sep x = true ->
  cut_last_sep (p +:+ x) = ((cut_last_sep p).1, (cut_last_sep p).2 +:+ x).
Proof.
  intros Hx. induction p as [|c p IH].
  - rewrite app_empty_l. by apply cut_last_sep_no_sep.
  - rewrite app_String. simpl. rewrite IH.
    destruct (cut_last_sep p) as [h t]. simpl.
    destruct h; [destruct (is_sep c)|]; done.
Qed.

Lemma cut_last_sep_snoc_sep p : cut_last_sep (p +:+ "/") = (p +:+ "/", "").
Proof.
  induction p as [|c p IH]; [done|].
  rewrite app_String. simpl. rewrite IH.
  destruct p; done.
Qed.

Lemma ends_with_sep_tail p : ends_with_sep p = true -> (cut_last_sep p).2 = "".
Proof.
  unfold ends_with_sep. destruct (cut_last_sep p) as [[|c h] [|d t]]; done.
Qed.

Lemma starts_with_sep_no_sep x : no_sep x = true -> starts_with_sep x = false.
Proof.
  destruct x as [|c x]; [done|]. simpl.
  intros [Hc _]%andb_true_iff. by apply negb_true_iff.
Qed.

(** The last component of a joined path is its base name. *)
Lemma basename_join_step p x :
  no_sep x = true -> osp_basename (join_step p x) = x.
Proof.
  intros Hx. unfold osp_basename, join_step.
  rewrite (starts_with_sep_no_sep x Hx).
  destruct (bool_decide (p = "")) eqn:Ep; simpl.
  - apply bool_decide_eq_true in Ep as ->. rewrite app_empty_l.
    by rewrite cut_last_sep_no_sep.
  - destruct (ends_with_sep p) eqn:Ee.
    + rewrite cut_last_sep_app by done. simpl.
      by rewrite (ends_with_sep_tail p Ee).
    + rewrite <- app_assoc_string, cut_last_sep_app by done.
      by rewrite cut_last_sep_snoc_sep.
Qed.

Lemma basename_join1 a x : no_sep x = true -> osp_basename (osp_join a [x]) = x.
Proof. apply basename_join_step. Qed.

Lemma basename_join2 a b x :
  no_sep x = true -> osp_basename (osp_join a [b; x]) = x.
Proof. apply basename_join_step. Qed.

Lemma join1_inj a x y :
  no_sep x = true -> no_sep y = true ->
  osp_join a [x] = osp_join a [y] -> x = y.
Proof.
  intros Hx Hy H. apply (f_equal osp_basename) in H.
  by rewrite !basename_join1 in H.
Qed.

(** The name of the seed, when the frame at hand is the first after it. *)
Lemma zfill_zero n : exists k, zfill (str 0) n = zeros k.
Proof.
  unfold zfill. change (str 0) with "0". simpl String.length.
  destruct (n <=? 1)%nat; [by exists 1%nat|].
  simpl. exists (n - 1 + 1)%nat.
  induction (n - 1)%nat as [|m IH]; [done|]. simpl.
  rewrite app_String. by rewrite IH.
Qed.

Lemma seed_name_no_sep n ext :
  no_sep ext = true -> no_sep (zfill (str 0) n +:+ ext) = true.
Proof.
  intros Hext. destruct (zfill_zero n) as [k ->].
  by rewrite no_sep_app, no_sep_zeros, Hext.
Qed.

(** ** The walk *)

Lemma for_each_cons_raised {A} (body : A -> M unit) x xs w e w' :
  body x w = Raised e w' -> for_each body (x :: xs) w = Raised e w'.
Proof. intros H. simpl. unfold_M. by rewrite H. Qed.

Lemma for_each_app {A} (body : A -> M unit) xs ys w :
  for_each body (xs ++ ys) w
  = match for_each body xs w with
    | Done _ w1 => for_each body ys w1
    | Raised e w1 => Raised e w1
    end.
Proof.
  revert w. induction xs as [|x xs IH]; intros w; simpl; [done|].
  unfold_M. destruct (body x w) as [[] w1|e w1]; [apply IH|done].
Qed.

Lemma seed_png_ne_out_json fp :
  no_sep (prev_name_str fp) = true -> seed_png fp <> out_json fp.
Proof.
  intros Hn E. apply (f_equal osp_basename) in E.
  unfold seed_png, out_json in E.
  rewrite basename_join2, basename_join1 in E
    by (by rewrite no_sep_app, Hn).
  by apply app_inv_head_string in E.
Qed.

Lemma out_png_ne_out_json fp :
  no_sep (prev_name_str fp) = true -> out_png fp <> out_json fp.
Proof.
  intros Hn E. apply (f_equal osp_basename) in E.
  unfold out_png, out_json in E.
  rewrite !basename_join1 in E by (by rewrite no_sep_app, Hn).
  by apply app_inv_head_string in E.
Qed.

Lemma basename_seed_json fp :
  no_sep (prev_name_str fp) = true ->
  osp_basename (seed_json fp) = prev_name_str fp +:+ ".json".
Proof.
  intros Hn. unfold seed_json. apply basename_join2.
  by rewrite no_sep_app, Hn.
Qed.

Lemma basename_seed_png fp :
  no_sep (prev_name_str fp) = true ->
  osp_basename (seed_png fp) = prev_name_str fp +:+ ".png".
Proof.
  intros Hn. unfold seed_png. apply basename_join2.
  by rewrite no_sep_app, Hn.
Qed.

(** Lines 226-233 when the previous index is [0], case by case. *)
Lemma bootstrap_spec save_img fp w :
  prev_index fp = 0 ->
  prev_json_path fp = seed_json fp ->
  no_sep (prev_name_str fp) = true ->
  bootstrap save_img fp w
  = match files w !! save_folder fp with
    | Some _ => Raised (FileExistsError (save_folder fp)) w
    | None =>
        if bool_decide (seed_json fp = out_json fp)
        then Raised (SameFileError (seed_json fp)) w
        else match files w !! seed_json fp with
             | None => Raised (FileNotFoundError (seed_json fp)) w
             | Some seed =>
                 let w1 := World (<[out_json fp := seed]> (files w)) (dicts w) in
                 if save_img then
                   if bool_decide (seed_png fp = out_png fp)
                   then Raised (SameFileError (seed_png fp)) w1
                   else match files w !! seed_png fp with
                        | None => Raised (FileNotFoundError (seed_png fp)) w1
                        | Some gt =>
                            Done tt (World (<[out_png fp := gt]> (files w1))
                                       (dicts w))
                        end
                 else Done tt w1
             end
    end.
Proof.
  intros H0 Hseed Hn. unfold bootstrap.
  rewrite bool_decide_true by done. cbv zeta.
  change (osp_join (character_root fp) ["gt"; prev_name_str fp +:+ ".png"])
    with (seed_png fp).
  unfold_M. unfold os_makedirs.
  destruct (files w !! save_folder fp); [done|].
  unfold shutil_copy. rewrite Hseed.
  rewrite (basename_seed_json fp Hn), (basename_seed_png fp Hn).
  fold (out_json fp). fold (out_png fp).
  destruct (bool_decide (seed_json fp = out_json fp)); [done|].
  unfold_M. unfold read_file, write_file.
  destruct (files w !! seed_json fp) as [seed|]; [|done].
  destruct save_img; [|done].
  destruct (bool_decide (seed_png fp = out_png fp)); [done|].
  simpl. rewrite lookup_insert_ne by (intros E; by eapply seed_png_ne_out_json).
  by destruct (files w !! seed_png fp).
Qed.

Section WalkerFacts.

Context {tensor : Type}.
Variable model : @test_data tensor -> list int64 * list (list float32).
Variable recolorize_gt : image -> tensor.
Variable render : gmap string color -> image -> image.

Lemma paths_of_done save_path (td : @test_data tensor) w fp w' :
  paths_of save_path td w = Done fp w' ->
  w' = w /\
  int (name_str fp) = Some (prev_index fp + 1) /\
  prev_name_str fp
  = zfill (str (prev_index fp)) (String.length (name_str fp)) /\
  prev_json_path fp = seed_json fp /\
  save_folder fp = osp_join save_path [(osp_split (character_root fp)).2].
Proof.
  unfold paths_of.
  destruct (osp_split (file_name td)) as [line_root name].
  unfold_M. destruct (int name) as [index|] eqn:E; [|done].
  unfold str_within_limit. unfold_M. cbv beta iota.
  case_bool_decide as Hlimit; [|done].
  intros [= <- <-]. simpl. split; [done|].
  split; [rewrite E; f_equal; lia|]. done.
Qed.

Lemma paths_of_seed_name save_path (td : @test_data tensor) w fp w' :
  paths_of save_path td w = Done fp w' ->
  prev_index fp = 0 ->
  no_sep (prev_name_str fp) = true.
Proof.
  intros (_ & _ & Hname & _)%paths_of_done H0.
  rewrite Hname, H0. destruct (zfill_zero (String.length (name_str fp)))
    as [k ->].
  apply no_sep_zeros.
Qed.

Lemma persist_done fp color_next_frame w w' :
  persist render true fp color_next_frame w = Done tt w' ->
  exists d label,
    dicts w !! color_next_frame = Some d /\
    files w' !! img_save_path fp = Some (ImgFile (render d label)).
Proof.
  unfold persist, dump_json, with_dict. unfold_M.
  fold (json_save_path fp). fold (img_save_path fp).
  destruct (dicts w !! color_next_frame) as [d|]; [|done].
  unfold write_file at 1. unfold colorize_label_image, read_img_2_np.
  unfold_M. unfold read_file at 1.
  match goal with
  | |- context [files ?w1 !! ?p] =>
      destruct (files w1 !! p) as [[?|label]|]; [done| |done]
  end.
  unfold read_file. simpl. rewrite lookup_insert_eq.
  unfold write_file. intros [= <-]. exists d, label. split; [done|].
  simpl. apply lookup_insert_eq.
Qed.

Lemma frame_step_done save_path save_img accu self_prop td w w' :
  frame_step model recolorize_gt render save_path save_img accu self_prop
    td w = Done tt w' ->
  exists fp color_dict td' w1 color_next_frame w2,
    prepare recolorize_gt save_path save_img self_prop td w
    = Done (fp, color_dict, td') w1 /\
    resolve_colors accu color_dict (model td').1 (model td').2 w1
    = Done color_next_frame w2 /\
    persist render save_img fp color_next_frame w2 = Done tt w'.
Proof.
  unfold frame_step. unfold_M.
  destruct (prepare _ _ _ _ _ w) as [[[fp cd] td'] w1|]; [|done].
  destruct (model td') as [match_ match_scores] eqn:Em.
  destruct (resolve_colors _ _ _ _ w1) as [cnf w2|] eqn:Er; [|done].
  intros Hp. exists fp, cd, td', w1, cnf, w2. rewrite Em. done.
Qed.

Lemma prepare_done save_path save_img self_prop td w fp color_dict td' w1 :
  prepare recolorize_gt save_path save_img self_prop td w
  = Done (fp, color_dict, td') w1 ->
  paths_of save_path td w = Done fp w /\
  exists wb, bootstrap save_img fp w = Done tt wb.
Proof.
  unfold prepare. unfold_M.
  destruct (paths_of save_path td w) as [fp0 w0|] eqn:Ep; [|done].
  pose proof (paths_of_done _ _ _ _ _ Ep) as [-> _].
  destruct (bootstrap save_img fp0 w) as [[] wb|] eqn:Eb; [|done].
  destruct (self_reference _ _ _ _ wb) as [ref w2|]; [|done].
  destruct (load_json _ w2) as [cd w3|]; [|done].
  intros [= <- <- <- <-]. eauto.
Qed.

Lemma bootstrap_done save_img fp w wb :
  prev_index fp = 0 ->
  prev_json_path fp = seed_json fp ->
  no_sep (prev_name_str fp) = true ->
  bootstrap save_img fp w = Done tt wb ->
  dicts wb = dicts w /\
  exists seed,
    files w !! seed_json fp = Some seed /\
    files wb !! out_json fp = Some seed /\
    if save_img then
      exists gt, files w !! seed_png fp = Some gt /\
        files wb !! out_png fp = Some gt /\
        files wb = <[out_png fp := gt]> (<[out_json fp := seed]> (files w))
    else files wb = <[out_json fp := seed]> (files w).
Proof.
  intros H0 Hseed Hn. rewrite (bootstrap_spec save_img fp w H0 Hseed Hn).
  destruct (files w !! save_folder fp); [done|].
  destruct (bool_decide (seed_json fp = out_json fp)); [done|].
  destruct (files w !! seed_json fp) as [seed|]; [|done].
  destruct save_img.
  - destruct (bool_decide (seed_png fp = out_png fp)); [done|].
    destruct (files w !! seed_png fp) as [gt|]; [|done].
    intros [= <-]. simpl. split; [done|]. exists seed. split; [done|].
    split.
    + rewrite lookup_insert_ne by (by apply out_png_ne_out_json).
      apply lookup_insert_eq.
    + exists gt. split; [done|]. split; [apply lookup_insert_eq|done].
  - intros [= <-]. simpl. split; [done|]. exists seed. split; [done|].
    split; [apply lookup_insert_eq|done].
Qed.


End WalkerFacts.


(** ** The direct mode *)

Lemma direct_entry_inl C_prev (item : int64) e :
  direct_entry C_prev item = inl e <->
  int64_val item <> -1 /\ C_prev !! item_key item = None /\
  e = KeyError (item_key item).
Proof.
  unfold direct_entry.
  destruct (bool_decide (int64_val item = -1)) eqn:E.
  - apply bool_decide_eq_true in E. split; [done|]. by intros [? _].
  - apply bool_decide_eq_false in E.
    destruct (C_prev !! item_key item).
    + split; [done|]. by intros (_ & ? & _).
    + split; [by intros [= <-]|]. by intros (_ & _ & ->).
Qed.

Lemma resolve_colors_direct_raised w color_dict C_prev match_ match_scores :
  dicts w !! color_dict = Some C_prev ->
  (forall e w',
     resolve_colors false color_dict match_ match_scores w = Raised e w' ->
     files w' = files w /\
     exists item : int64, item ∈ match_ /\ int64_val item <> -1 /\
       C_prev !! item_key item = None /\ e = KeyError (item_key item)) /\
  (forall (i : nat) (item : int64),
     match_ !! i = Some item -> int64_val item <> -1 ->
     C_prev !! item_key item = None ->
     exists e w',
       resolve_colors false color_dict match_ match_scores w = Raised e w').
Proof.
  intros Hprev. rewrite (resolve_colors_direct w _ C_prev) by done. simpl.
  destruct (assign_all (direct_entry C_prev) 0 match_ ∅) as [[e0|] m] eqn:E.
  - split; [|eauto]. intros e w' [= <- <-]. split; [done|].
    destruct (assign_all_Some (direct_entry C_prev) match_ 0%nat ∅ e0)
      as (i & item & Hi & He & _); [by rewrite E|].
    apply direct_entry_inl in He as (? & ? & ?).
    exists item. split; [by eapply list_elem_of_lookup_2|done].
  - split; [done|]. intros i item Hi Hne Habsent. exfalso.
    assert ((assign_all (direct_entry C_prev) 0 match_ ∅).1 = None) as Hok
      by (by rewrite E).
    apply assign_all_None in Hok.
    eapply Forall_forall in Hok; [|by eapply list_elem_of_lookup_2].
    destruct Hok as [c Hc]. unfold direct_entry in Hc.
    rewrite bool_decide_false, Habsent in Hc by done. done.
Qed.

Section WalkClaims.

Context {tensor : Type}.
Variable model : @test_data tensor -> list int64 * list (list float32).
Variable recolorize_gt : image -> tensor.
Variable render : gmap string color -> image -> image.

(** C2, as the claim has it, fails where the sum wraps around: for the
    match [2^63 - 1] the previous colour map has the key [match + 1], which
    is [2^63], but line 257 adds on [int64], looks up [-2^63], and raises
    [KeyError] of that key. *)
Lemma wrapped_key_counterexample :
  let item := i64 int64_max in
  0 <= item /\
  is_Some (beyond_int64 !! str (item + 1)) /\
  exists w',
    resolve_colors false 0%nat [item] [] (store_of beyond_int64)
    = Raised (KeyError "-9223372036854775808") w'.
Proof.
  split; [vm_compute; discriminate|]. split; [vm_compute; eauto|].
  eexists. vm_compute. reflexivity.
Qed.

(** C2, amended. The key line 257 looks up for a match is [match + 1] as
    [int64] adds: the exact sum below [2^63 - 1], and [-2^63] at
    [2^63 - 1].  In the direct mode a segment matched to reference segment
    [item >= 0] gets the very colour the previous map has under that key;
    its turn raises exactly when that key is absent, and then it is
    [KeyError] of that key.  A frame resolves to these copies, or raises
    exactly when some match other than [-1] has no key.  The exception is
    not caught: the walk stops at that frame with it, writes nothing for
    the frame, and does not reach the frames after it. *)
Theorem direct_mode_copies_or_fails :
  (forall item : int64,
     (int64_val item < int64_max -> item_key item = str (item + 1)) /\
     (int64_val item = int64_max ->
      item_key item = "-9223372036854775808")) /\
  (forall w color_dict color_next_frame C_prev acc (i : nat) (item : int64),
     dicts w !! color_dict = Some C_prev ->
     dicts w !! color_next_frame = Some acc ->
     0 <= item ->
     (forall c, C_prev !! item_key item = Some c ->
        direct_body color_dict color_next_frame i item w
        = Done tt (with_entries w color_next_frame
                     (<[str (Z.of_nat i + 1) := c]> acc))) /\
     (C_prev !! item_key item = None <->
      exists e w',
        direct_body color_dict color_next_frame i item w = Raised e w') /\
     (forall e w',
        direct_body color_dict color_next_frame i item w = Raised e w' ->
        e = KeyError (item_key item) /\ w' = w)) /\
  (forall w color_dict C_prev match_ match_scores,
     dicts w !! color_dict = Some C_prev ->
     (forall l w' (i : nat) (item : int64),
        resolve_colors false color_dict match_ match_scores w = Done l w' ->
        match_ !! i = Some item -> 0 <= item ->
        is_Some (C_prev !! item_key item) /\
        dict_entry w' l (str (Z.of_nat i + 1)) = C_prev !! item_key item) /\
     ((exists e w',
         resolve_colors false color_dict match_ match_scores w
         = Raised e w') <->
      (exists (i : nat) (item : int64),
         match_ !! i = Some item /\ int64_val item <> -1 /\
         C_prev !! item_key item = None)) /\
     (forall e w',
        resolve_colors false color_dict match_ match_scores w
        = Raised e w' ->
        exists item : int64, item ∈ match_ /\ int64_val item <> -1 /\
          C_prev !! item_key item = None /\
          e = KeyError (item_key item))) /\
  (forall save_path (save_img self_prop : bool) td rest w fp color_dict td'
          w1 C_prev (i : nat) (item : int64),
     prepare recolorize_gt save_path (if self_prop then true else save_img)
       self_prop td w = Done (fp, color_dict, td') w1 ->
     dicts w1 !! color_dict = Some C_prev ->
     (model td').1 !! i = Some item -> 0 <= item ->
     C_prev !! item_key item = None ->
     exists k w',
       inference_frame_by_frame model recolorize_gt render save_path
         save_img false self_prop (td :: rest) w = Raised (KeyError k) w' /\
       files w' = files w1).
Proof.
  split; [|split; [|split]].
  - intros item. split; [apply item_key_exact|apply item_key_wrapped].
  - intros w cd cnf C_prev acc i item Hprev Hnext Hpos.
    rewrite (direct_body_spec w cd cnf C_prev acc) by done.
    unfold direct_entry. rewrite bool_decide_false by lia.
    fold (key_of (Z.of_nat i)).
    destruct (C_prev !! item_key item) as [c|].
    + split; [by intros ? [= <-]|]. split; [|done].
      split; [done|]. by intros (? & ? & ?).
    + split; [done|]. split; [split; eauto|]. by intros e w' [= <- <-].
  - intros w cd C_prev match_ match_scores Hprev.
    destruct (resolve_colors_direct_raised w cd C_prev match_ match_scores
                Hprev) as [Hraised Habsent].
    split; [|split].
    + intros l w' i item Hrun Hi Hpos.
      destruct (direct_resolved_entry _ _ _ _ _ _ _ _ _ Hprev Hrun Hi)
        as (c & Hc & Hk).
      unfold direct_entry in Hc. rewrite bool_decide_false in Hc by lia.
      destruct (C_prev !! item_key item); [|done].
      injection Hc as ->. eauto.
    + split.
      * intros (e & w' & Hrun).
        destruct (Hraised e w' Hrun) as (_ & item & Hin & ? & ? & _).
        apply list_elem_of_lookup in Hin as [i Hi]. eauto.
      * intros (i & item & Hi & Hne & Hnone). eauto.
    + intros e w' Hrun. by destruct (Hraised e w' Hrun) as [_ ?].
  - intros save_path save_img self_prop td rest w fp cd td' w1 C_prev
      i item Hprep Hprev Hi Hpos Hnone.
    destruct (resolve_colors_direct_raised w1 cd C_prev (model td').1
                (model td').2 Hprev) as [Hraised Habsent].
    assert (int64_val item <> -1) as Hne by lia.
    destruct (Habsent i item Hi Hne Hnone) as (e & w' & Hrun).
    destruct (Hraised e w' Hrun) as (Hfiles & item' & _ & _ & _ & ->).
    exists (item_key item'), w'. split; [|done].
    unfold inference_frame_by_frame. apply for_each_cons_raised.
    unfold frame_step. unfold_M. rewrite Hprep.
    destruct (model td') as [match_ match_scores]. simpl in Hrun.
    by rewrite Hrun.
Qed.

(** C8. With [self_prop] on, the walk is the walk with [save_img] on,
    whatever the caller passed.  When it ends, every frame it went through
    has its rendered image in the result folder at the end of its step,
    and the step of a first frame has copied the ground-truth image of the
    seed. *)
Theorem self_prop_saves_images :
  (forall save_path save_img accu test_loader w,
     inference_frame_by_frame model recolorize_gt render save_path
       save_img accu true test_loader w
     = inference_frame_by_frame model recolorize_gt render save_path
         true accu true test_loader w) /\
  (forall save_path save_img accu before td after w w',
     inference_frame_by_frame model recolorize_gt render save_path
       save_img accu true (before ++ td :: after) w = Done tt w' ->
     exists w1 w2 fp,
       inference_frame_by_frame model recolorize_gt render save_path
         save_img accu true before w = Done tt w1 /\
       paths_of save_path td w1 = Done fp w1 /\
       frame_step model recolorize_gt render save_path true accu true td w1
       = Done tt w2 /\
       (exists d label,
          files w2 !! img_save_path fp = Some (ImgFile (render d label))) /\
       (prev_index fp = 0 ->
        exists wb gt,
          bootstrap true fp w1 = Done tt wb /\
          files w1 !! seed_png fp = Some gt /\
          files wb !! out_png fp = Some gt) /\
       inference_frame_by_frame model recolorize_gt render save_path
         save_img accu true after w2 = Done tt w').
Proof.
  split; [reflexivity|].
  intros save_path save_img accu before td after w w'.
  unfold inference_frame_by_frame. rewrite for_each_app.
  destruct (for_each _ before w) as [[] w1|] eqn:Ebefore; [|done].
  simpl. unfold_M.
  destruct (frame_step _ _ _ _ _ _ _ td w1) as [[] w2|] eqn:Estep; [|done].
  intros Hafter. exists w1, w2.
  destruct (frame_step_done _ _ _ _ _ _ _ _ _ _ Estep)
    as (fp & cd & td' & w1' & cnf & w3 & Hprep & _ & Hpersist).
  destruct (prepare_done _ _ _ _ _ _ _ _ _ _ Hprep) as (Hpaths & wb & Hboot).
  exists fp. split; [done|]. split; [done|]. split; [done|].
  split.
  - destruct (persist_done render fp cnf w3 w2 Hpersist) as (d & label & _ & ?).
    eauto.
  - split; [|done]. intros H0.
    pose proof (paths_of_seed_name _ _ _ _ _ Hpaths H0) as Hn.
    destruct (paths_of_done _ _ _ _ _ Hpaths) as (_ & _ & _ & Hseed & _).
    destruct (bootstrap_done true fp w1 wb H0 Hseed Hn Hboot)
      as (_ & seed & _ & _ & gt & Hgt & Hcopy & _).
    eauto.
Qed.

End WalkClaims.

Lemma direct_mode_copies_or_fails_witness :
  exists k w',
    inference_frame_by_frame stray_model (fun _ => tt) flat_render "out"
      false false false [first_frame] (World seed_files ∅)
    = Raised (KeyError k) w'.
Proof.
  edestruct (proj2 (proj2 (proj2 (direct_mode_copies_or_fails stray_model
                                    (fun _ => tt) flat_render)))
               "out" false false first_frame (@nil (@test_data unit))
               (World seed_files ∅))
    as (k & w' & Hrun & _).
  - vm_compute. reflexivity.
  - vm_compute. reflexivity.
  - instantiate (2 := 0%nat). reflexivity.
  - vm_compute. discriminate.
  - vm_compute. reflexivity.
  - exists k, w'. exact Hrun.
Defined.

Lemma self_prop_saves_images_witness :
  exists w2 fp d label,
    frame_step stray_model (fun _ => tt) flat_render "out" true true true
      first_frame (World seed_files ∅) = Done tt w2 /\
    files w2 !! img_save_path fp = Some (ImgFile (flat_render d label)).
Proof.
  edestruct (proj2 (self_prop_saves_images stray_model (fun _ => tt)
                      flat_render)
               "out" false true (@nil (@test_data unit)) first_frame
               (@nil (@test_data unit)) (World seed_files ∅))
    as (w1 & w2 & fp & Hbefore & _ & Hstep & (d & label & Himg) & _).
  - vm_compute. reflexivity.
  - injection Hbefore as <-.
    exists w2, fp, d, label. split; [exact Hstep|exact Himg].
Defined.

(** * Further properties *)

(** ** Bounds and invariants of the resolution *)

Lemma assign_all_value {A} (entry : A -> exn + color) xs :
  forall start acc m k c,
    assign_all entry start xs acc = (None, m) ->
    m !! k = Some c ->
    acc !! k = Some c \/ exists x, x ∈ xs /\ entry x = inr c.
Proof.
  induction xs as [|x xs IH]; intros start acc m k c Hrun Hk; simpl in Hrun.
  - injection Hrun as <-. by left.
  - destruct (entry x) as [e|c0] eqn:E; [done|].
    destruct (IH _ _ _ _ _ Hrun Hk) as [Hacc|(x' & Hin & Hx')].
    + destruct (decide (key_of (Z.of_nat start) = k)) as [<-|Hne].
      * rewrite lookup_insert_eq in Hacc. injection Hacc as ->.
        right. exists x. split; [left|done].
      * rewrite lookup_insert_ne in Hacc by done. by left.
    + right. exists x'. split; [by right|done].
Qed.

(** X4. Neither mode makes up a colour: every entry of the colour map of a
    frame is [[0, 0, 0, 0]] or a colour the previous colour map holds under
    some key. *)
Theorem resolved_colors_come_from_previous_map (accu : bool) color_dict
    C_prev match_ match_scores w l w' k c :
  dicts w !! color_dict = Some C_prev ->
  resolve_colors accu color_dict match_ match_scores w = Done l w' ->
  dict_entry w' l k = Some c ->
  c = unmatched \/ exists k', C_prev !! k' = Some c.
Proof.
  intros Hprev Hrun Hk.
  destruct (resolved_entry accu _ _ _ _ _ _ _ Hprev Hrun) as (m & Hm & Hall).
  unfold dict_entry in Hk. rewrite Hm in Hk. simpl in Hk.
  destruct accu.
  - destruct (assign_all_value _ _ _ _ _ _ _ Hall Hk)
      as [Hempty|(scores & _ & Hentry)]; [by rewrite lookup_empty in Hempty|].
    unfold accu_entry in Hentry.
    destruct (vote _ scores) as [c'|] eqn:Hvote; [|done].
    injection Hentry as ->.
    assert (scores <> []) as Hne by (intros ->; by rewrite vote_nil in Hvote).
    destruct (vote_color_lookup C_prev scores Hne)
      as (c' & Hvote' & (j & _ & Hj) & _).
    rewrite Hvote in Hvote'. injection Hvote' as <-.
    unfold reference_color in Hj.
    destruct (C_prev !! key_of (Z.of_nat j)) eqn:E; simpl in Hj; subst; eauto.
  - destruct (assign_all_value _ _ _ _ _ _ _ Hall Hk)
      as [Hempty|(item & _ & Hentry)]; [by rewrite lookup_empty in Hempty|].
    unfold direct_entry in Hentry.
    destruct (bool_decide (int64_val item = -1));
      [injection Hentry as <-; by left|].
    destruct (C_prev !! item_key item) eqn:E; [|done].
    injection Hentry as ->. eauto.
Qed.

Lemma resolved_colors_come_from_previous_map_witness :
  rgba_red = unmatched \/ exists k', only_red !! k' = Some rgba_red.
Proof.
  apply (resolved_colors_come_from_previous_map false 0%nat only_red [i64 0; i64 (-1)]
           [] (store_of only_red) 1%nat
           (world_of (resolve_colors false 0%nat [i64 0; i64 (-1)] []
                        (store_of only_red))) "1" rgba_red).
  - reflexivity.
  - vm_compute. reflexivity.
  - vm_compute. reflexivity.
Defined.

Lemma resolve_colors_done_iff (accu : bool) color_dict C_prev match_
    match_scores w :
  dicts w !! color_dict = Some C_prev ->
  (exists l w',
     resolve_colors accu color_dict match_ match_scores w = Done l w') <->
  if accu
  then Forall (fun scores => exists c, accu_entry C_prev scores = inr c)
         match_scores
  else Forall (fun item => exists c, direct_entry C_prev item = inr c) match_.
Proof.
  intros Hprev. destruct accu.
  - rewrite (resolve_colors_accu w _ C_prev) by done. simpl.
    rewrite <- (assign_all_None (accu_entry C_prev) match_scores 0%nat ∅).
    destruct (assign_all _ _ _ _) as [[e|] m]; simpl.
    + split; [by intros (? & ? & ?)|done].
    + split; [done|eauto].
  - rewrite (resolve_colors_direct w _ C_prev) by done. simpl.
    rewrite <- (assign_all_None (direct_entry C_prev) match_ 0%nat ∅).
    destruct (assign_all _ _ _ _) as [[e|] m]; simpl.
    + split; [by intros (? & ? & ?)|done].
    + split; [done|eauto].
Qed.

Lemma segment_keys_key_of n item :
  key_of item ∈ segment_keys n <-> 0 <= item < Z.of_nat n.
Proof.
  rewrite segment_keys_elem. unfold key_of, str. split.
  - intros (i & Hi & E). apply (inj pretty) in E. lia.
  - intros H. exists (Z.to_nat item). split; [lia|]. f_equal. lia.
Qed.

(** X5. Against a previous colour map with the keys ["1"], ..., ["n"] (what
    a resolved frame of [n] segments has) the direct mode resolves exactly
    when every match is [-1] or an index below [n] and below [2^63 - 1],
    where [match + 1] wraps around: any other match does not resolve. *)
Theorem direct_mode_index_bounds color_dict C_prev (n : nat) match_
    match_scores w :
  dicts w !! color_dict = Some C_prev ->
  dom C_prev = segment_keys n ->
  (exists l w',
     resolve_colors false color_dict match_ match_scores w = Done l w') <->
  Forall (fun item : int64 => -1 <= item < Z.min (Z.of_nat n) int64_max)
    match_.
Proof.
  intros Hprev Hdom.
  rewrite (resolve_colors_done_iff false _ C_prev) by done.
  apply Forall_iff. intros item. unfold direct_entry.
  pose proof (int64_val_range item) as Hrange.
  destruct (bool_decide (int64_val item = -1)) eqn:E.
  - apply bool_decide_eq_true in E. split; [|eauto].
    intros _. unfold int64_max. lia.
  - apply bool_decide_eq_false in E.
    destruct (decide (int64_val item = int64_max)) as [Hmax|Hmax].
    + rewrite (item_key_wrapped item Hmax).
      assert (C_prev !! "-9223372036854775808" = None) as ->.
      { apply not_elem_of_dom. rewrite Hdom.
        intros (i & _ & Hi)%segment_keys_elem.
        change "-9223372036854775808" with (str int64_min) in Hi.
        unfold str in Hi. apply (inj pretty) in Hi.
        unfold int64_min in Hi. lia. }
      split; [by intros [? ?]|]. lia.
    + rewrite (item_key_exact item) by lia. fold (key_of item).
      pose proof (segment_keys_key_of n item) as Hkey.
      rewrite <- Hdom, elem_of_dom in Hkey.
      destruct (C_prev !! key_of item) as [c|].
      * split; [|eauto]. intros _.
        assert (0 <= item < Z.of_nat n) by (apply Hkey; eauto). lia.
      * split; [by intros [? ?]|]. intros H.
        assert (is_Some (@None color)) as [? ?] by (apply Hkey; lia). done.
Qed.

Lemma direct_mode_index_bounds_witness :
  (exists l w',
     resolve_colors false 0%nat [i64 0; i64 1; i64 (-1)] []
       (store_of red_then_green) = Done l w') <->
  Forall (fun item : int64 => -1 <= item < Z.min (Z.of_nat 2) int64_max)
    [i64 0; i64 1; i64 (-1)].
Proof.
  apply (direct_mode_index_bounds 0%nat red_then_green 2 [i64 0; i64 1; i64 (-1)] []
           (store_of red_then_green)).
  - reflexivity.
  - vm_compute. reflexivity.
Defined.

(** X6. The accumulated mode raises nothing but [ValueError], and raises it
    exactly when some score vector is empty (a frame without reference
    segments); the files stay as they are. *)
Theorem accumulated_mode_fails_on_empty_scores color_dict C_prev match_
    match_scores w :
  dicts w !! color_dict = Some C_prev ->
  ((exists l w',
      resolve_colors true color_dict match_ match_scores w = Done l w') <->
   Forall (fun scores => scores <> []) match_scores) /\
  (forall e w',
     resolve_colors true color_dict match_ match_scores w = Raised e w' ->
     e = ValueError /\ [] ∈ match_scores /\ files w' = files w).
Proof.
  intros Hprev. split.
  - rewrite (resolve_colors_done_iff true _ C_prev) by done.
    apply Forall_iff. intros scores. split.
    + intros [c Hc] ->. by rewrite accu_entry_empty in Hc.
    + apply accu_entry_nonempty.
  - intros e w' Hrun.
    rewrite (resolve_colors_accu w _ C_prev) in Hrun by done. simpl in Hrun.
    destruct (assign_all (accu_entry C_prev) 0 match_scores ∅)
      as [[e0|] m] eqn:E; [|done].
    injection Hrun as <- <-.
    destruct (assign_all_Some (accu_entry C_prev) match_scores 0%nat ∅ e0)
      as (i & scores & Hi & He & _); [by rewrite E|].
    destruct scores as [|s scores].
    + rewrite accu_entry_empty in He. injection He as <-.
      split; [done|]. split; [by eapply list_elem_of_lookup_2|done].
    + destruct (accu_entry_nonempty C_prev (s :: scores)) as [c Hc]; [done|].
      by rewrite Hc in He.
Qed.

Lemma accumulated_mode_fails_on_empty_scores_witness :
  (exists l w',
     resolve_colors true 0%nat [] [[one]] (store_of only_red) = Done l w') <->
  Forall (fun scores : list float32 => scores <> []) [[one]].
Proof.
  apply (accumulated_mode_fails_on_empty_scores 0%nat only_red [] [[one]]
           (store_of only_red)).
  reflexivity.
Defined.

(** X18. The colour map of one frame is what the next frame is resolved
    against under self propagation: after a frame with [n] segments has
    resolved, in either mode, the direct mode resolves a next frame against
    its colour map exactly when every match is [-1] or an index below [n]
    and below [2^63 - 1], where [match + 1] wraps around. *)
Theorem next_frame_index_bounds (accu : bool) color_dict C_prev match1
    match_scores1 w l w1 match2 match_scores2 :
  dicts w !! color_dict = Some C_prev ->
  resolve_colors accu color_dict match1 match_scores1 w = Done l w1 ->
  let n := if accu then length match_scores1 else length match1 in
  (exists l2 w2,
     resolve_colors false l match2 match_scores2 w1 = Done l2 w2) <->
  Forall (fun item : int64 => -1 <= item < Z.min (Z.of_nat n) int64_max)
    match2.
Proof.
  intros Hprev Hrun n.
  destruct (resolved_entry accu _ _ _ _ _ _ _ Hprev Hrun) as (m & Hm & Hall).
  apply (direct_mode_index_bounds l m n match2 match_scores2 w1 Hm).
  destruct accu; by eapply assign_all_dom.
Qed.

Lemma next_frame_index_bounds_witness :
  (exists l2 w2,
     resolve_colors false 1%nat [i64 1; i64 (-1)] []
       (world_of (resolve_colors false 0%nat [i64 0; i64 (-1)] [] (store_of only_red)))
     = Done l2 w2) <->
  Forall (fun item : int64 => -1 <= item < Z.min (Z.of_nat 2) int64_max)
    [i64 1; i64 (-1)].
Proof.
  apply (next_frame_index_bounds false 0%nat only_red [i64 0; i64 (-1)] []
           (store_of only_red) 1%nat
           (world_of (resolve_colors false 0%nat [i64 0; i64 (-1)] []
                        (store_of only_red))) [i64 1; i64 (-1)] []).
  - reflexivity.
  - vm_compute. reflexivity.
Defined.

(** ** The seeds of [ModelInference] *)

(** X12. [_recover_seed] puts the three generator states back to what they
    were when [_set_seed] ran, whatever drew random numbers in between;
    what else [set_random_seed] set is not put back.  Two objects undo each
    other when the later one is recovered first; recovered in the other
    order they leave the states from when the later one was made, which the
    first one had seeded, not the states from before. *)
Theorem recover_seed_restores
    {py_state np_state torch_state other_state : Type}
    (set_random_seed :
       Z -> @generators py_state np_state torch_state other_state ->
       @generators py_state np_state torch_state other_state)
    (seed_a seed_b : Z) (g : generators)
    (run1 run2 run3 : @generators py_state np_state torch_state other_state ->
                      @generators py_state np_state torch_state other_state) :
  let a := _set_seed set_random_seed seed_a g in
  let b := _set_seed set_random_seed seed_b (run1 a.2) in
  let same (g1 g2 : generators) :=
    py_rng g1 = py_rng g2 /\ np_rng g1 = np_rng g2 /\
    torch_rng g1 = torch_rng g2 in
  same (_recover_seed a.1 (run1 a.2)) g /\
  other_rng (_recover_seed a.1 (run1 a.2)) = other_rng (run1 a.2) /\
  same (_recover_seed a.1 (run3 (_recover_seed b.1 (run2 b.2)))) g /\
  same (_recover_seed b.1 (run3 (_recover_seed a.1 (run2 b.2)))) (run1 a.2).
Proof. repeat split. Qed.

(** ** Batches and devices *)

Section BatchFacts.

Context {tensor plain : Type}.
Implicit Types d pre suf : @batch tensor plain.

Lemma batch_get_app pre key v suf :
  key ∉ pre.*1 -> batch_get key (pre ++ (key, v) :: suf) = Some v.
Proof.
  induction pre as [|[k v0] pre IH]; simpl; intros Hnotin.
  - by rewrite decide_True.
  - apply not_elem_of_cons in Hnotin as [Hne Hnotin].
    rewrite decide_False by done. by apply IH.
Qed.

Lemma batch_set_app pre key v v' suf :
  key ∉ pre.*1 ->
  batch_set key v' (pre ++ (key, v) :: suf) = pre ++ (key, v') :: suf.
Proof.
  induction pre as [|[k v0] pre IH]; simpl; intros Hnotin.
  - by rewrite decide_True.
  - apply not_elem_of_cons in Hnotin as [Hne Hnotin].
    rewrite decide_False by done. by rewrite IH.
Qed.

Lemma moved_keys (move : tensor -> tensor) d : (moved move d).*1 = d.*1.
Proof.
  induction d as [|[k v] d IH]; [done|]. simpl. f_equal; [|exact IH].
  destruct (bool_decide (k ∉ white_list)); [|done]. by destruct v.
Qed.

Lemma move_turn_entry (move : tensor -> tensor) pre key v suf :
  key ∉ pre.*1 ->
  move_turn move key (pre ++ (key, v) :: suf)
  = if bool_decide (key ∉ white_list) then
      match v with
      | Tensor t => inr (pre ++ (key, Tensor (move t)) :: suf)
      | Plain _ => inl (AttributeError key)
      end
    else inr (pre ++ (key, v) :: suf).
Proof.
  intros Hnotin. unfold move_turn.
  destruct (bool_decide (key ∉ white_list)); [|done].
  rewrite batch_get_app by done. destruct v; [|done].
  by rewrite batch_set_app.
Qed.

Lemma move_loop_movable (move : tensor -> tensor) suf : forall pre,
  NoDup (pre ++ suf).*1 ->
  Forall movable suf ->
  move_loop move suf.*1 (pre ++ suf) = (None, pre ++ moved move suf).
Proof.
  induction suf as [|[k v] suf IH]; intros pre Hnodup Hmov; [done|].
  apply Forall_cons in Hmov as [Hkv Hmov].
  rewrite fmap_app, fmap_cons in Hnodup.
  pose proof Hnodup as Hk. apply NoDup_app in Hk as (_ & Hk & _).
  assert (k ∉ pre.*1) as Hnotin.
  { intros Hin. apply (Hk k Hin). left. }
  simpl. rewrite move_turn_entry by done.
  destruct (bool_decide (k ∉ white_list)) eqn:E.
  - destruct Hkv as [Hw|[t Ht]]; simpl in *.
    { apply bool_decide_eq_true in E. done. }
    subst v.
    rewrite (cons_middle _ pre suf), app_assoc, IH.
    + by rewrite <- app_assoc.
    + rewrite <- app_assoc, fmap_app. exact Hnodup.
    + done.
  - rewrite (cons_middle _ pre suf), app_assoc, IH.
    + by rewrite <- app_assoc.
    + rewrite <- app_assoc, fmap_app. exact Hnodup.
    + done.
Qed.

Lemma move_loop_plain (move : tensor -> tensor) s1 : forall pre key p s2,
  NoDup (pre ++ s1 ++ (key, Plain p) :: s2).*1 ->
  Forall movable s1 ->
  key ∉ white_list ->
  move_loop move (s1 ++ (key, Plain p) :: s2).*1
    (pre ++ s1 ++ (key, Plain p) :: s2)
  = (Some (AttributeError key), pre ++ moved move s1 ++ (key, Plain p) :: s2).
Proof.
  induction s1 as [|[k v] s1 IH]; intros pre key p s2 Hnodup Hmov Hkey.
  - simpl in *. rewrite fmap_app, fmap_cons in Hnodup.
    apply NoDup_app in Hnodup as (_ & Hk & _).
    rewrite move_turn_entry.
    + by rewrite bool_decide_true.
    + intros Hin. apply (Hk key Hin). left.
  - apply Forall_cons in Hmov as [Hkv Hmov].
    rewrite <- app_comm_cons in *. rewrite fmap_app, fmap_cons in Hnodup.
    pose proof Hnodup as Hk. apply NoDup_app in Hk as (_ & Hk & _).
    assert (k ∉ pre.*1) as Hnotin.
    { intros Hin. apply (Hk k Hin). left. }
    simpl. rewrite move_turn_entry by done.
    destruct (bool_decide (k ∉ white_list)) eqn:E.
    + destruct Hkv as [Hw|[t Ht]]; simpl in *.
      { apply bool_decide_eq_true in E. done. }
      subst v.
      rewrite (cons_middle _ pre (s1 ++ _)), app_assoc, IH.
      * by rewrite <- app_assoc.
      * rewrite <- app_assoc, fmap_app. exact Hnodup.
      * done.
      * done.
    + rewrite (cons_middle _ pre (s1 ++ _)), app_assoc, IH.
      * by rewrite <- app_assoc.
      * rewrite <- app_assoc, fmap_app. exact Hnodup.
      * done.
      * done.
Qed.

Lemma moved_file_name (move : tensor -> tensor) d :
  batch_get "file_name" (moved move d) = batch_get "file_name" d.
Proof.
  induction d as [|[k v] d IH]; [done|]. simpl.
  destruct (decide (k = "file_name")) as [->|Hne].
  - done.
  - rewrite bool_decide_true.
    + destruct v; simpl; by rewrite decide_False.
    + unfold white_list. by intros ->%list_elem_of_singleton.
Qed.

Variable cuda : tensor -> tensor.
Variable to_device : tensor -> tensor.

(** X13. [dis_data_to_cuda] changes the batch it is given in place and
    returns that very dict: with tensors under all keys but ["file_name"],
    each of them is replaced by its [.cuda()], the keys and their order stay,
    and ["file_name"] keeps its value.  An entry that is no tensor raises
    [AttributeError] at its key, with the tensors before it moved and the
    entries after it as they were. *)
Theorem dis_data_to_cuda_moves_tensors data d (h : gmap loc batch) :
  h !! data = Some d ->
  NoDup d.*1 ->
  (Forall movable d ->
   dis_data_to_cuda cuda data h = (inr data, <[data := moved cuda d]> h)) /\
  (forall s1 key p s2,
     d = s1 ++ (key, Plain p) :: s2 ->
     Forall movable s1 -> key ∉ white_list ->
     dis_data_to_cuda cuda data h
     = (inl (AttributeError key),
        <[data := moved cuda s1 ++ (key, Plain p) :: s2]> h)) /\
  (moved cuda d).*1 = d.*1 /\
  batch_get "file_name" (moved cuda d) = batch_get "file_name" d.
Proof.
  intros Hd Hnodup. unfold dis_data_to_cuda.
  destruct (h !! data) as [d0|] eqn:E; [|done].
  injection Hd as ->.
  split; [|split; [|split; [apply moved_keys|apply moved_file_name]]].
  - intros Hmov.
    pose proof (move_loop_movable cuda d [] Hnodup Hmov) as Hloop.
    simpl in Hloop. by rewrite Hloop.
  - intros s1 key p s2 -> Hmov Hkey.
    pose proof (move_loop_plain cuda s1 [] key p s2 Hnodup Hmov Hkey) as Hloop.
    simpl in Hloop. by rewrite Hloop.
Qed.

(** X14. [feed_data] keeps the batch of the caller as [self.data], the same
    dict, not a copy, and moves its tensors to the device in place: the
    caller sees the batch changed.  With tensors under all keys but
    ["file_name"] each is replaced by its [.to(self.device)]; an entry that
    is no tensor raises [AttributeError], and [self.data] is the batch
    already, with the tensors before that entry moved. *)
Theorem feed_data_aliases_batch data d (h : gmap loc batch) :
  h !! data = Some d ->
  NoDup d.*1 ->
  (Forall movable d ->
   feed_data to_device data h
   = (None, (data, <[data := moved to_device d]> h))) /\
  (forall s1 key p s2,
     d = s1 ++ (key, Plain p) :: s2 ->
     Forall movable s1 -> key ∉ white_list ->
     feed_data to_device data h
     = (Some (AttributeError key),
        (data, <[data := moved to_device s1 ++ (key, Plain p) :: s2]> h))).
Proof.
  intros Hd Hnodup. unfold feed_data.
  destruct (h !! data) as [d0|] eqn:E; [|done].
  injection Hd as ->. split.
  - intros Hmov.
    pose proof (move_loop_movable to_device d [] Hnodup Hmov) as Hloop.
    simpl in Hloop. by rewrite Hloop.
  - intros s1 key p s2 -> Hmov Hkey.
    pose proof (move_loop_plain to_device s1 [] key p s2 Hnodup Hmov Hkey) as Hloop.
    simpl in Hloop. by rewrite Hloop.
Qed.

End BatchFacts.

(** ** Names of frames: [str], [zfill] and [int] *)

Lemma pretty_N_char_digit d :
  (d < 10)%N ->
  digit_of (pretty_N_char d) = Some (Z.of_N d) /\
  pretty_N_char d <> "_"%char.
Proof.
  intros Hd.
  assert (d = 0 \/ d = 1 \/ d = 2 \/ d = 3 \/ d = 4 \/ d = 5 \/ d = 6 \/
          d = 7 \/ d = 8 \/ d = 9)%N as Hcases by lia.
  destruct Hcases as [->|[->|[->|[->|[->|[->|[->|[->|[->| ->]]]]]]]]];
    (split; [reflexivity|discriminate]).
Qed.

Lemma digits_value_digit d acc b s :
  (d < 10)%N ->
  digits_value acc b (String (pretty_N_char d) s)
  = digits_value (10 * acc + Z.of_N d) true s.
Proof.
  intros Hd. destruct (pretty_N_char_digit d Hd) as [Hdigit Hne].
  simpl. rewrite bool_decide_false by done. by rewrite Hdigit.
Qed.

(** The digits [pretty] writes for a positive number read back as the
    number, appended to what was read before. *)
Lemma digits_value_pretty_go x :
  (0 < x)%N ->
  exists k, forall acc b s,
    digits_value acc b (pretty_N_go x s)
    = digits_value (acc * k + Z.of_N x) true s.
Proof.
  induction (N.lt_wf_0 x) as [x _ IH]. intros Hx.
  assert (x `mod` 10 < 10)%N as Hr by (by apply N.mod_lt).
  pose proof (N.div_mod x 10 ltac:(done)) as Hdiv.
  destruct (decide (x `div` 10 = 0)%N) as [Hq|Hq].
  - exists 10. intros acc b s.
    rewrite pretty_N_go_step, Hq, pretty_N_go_0 by done.
    rewrite digits_value_digit by done. f_equal. lia.
  - destruct (IH (x `div` 10)%N) as [k Hk].
    { apply N.div_lt; lia. }
    { lia. }
    exists (10 * k). intros acc b s.
    rewrite pretty_N_go_step by done. rewrite Hk.
    rewrite digits_value_digit by done. f_equal. lia.
Qed.

Lemma digits_value_pretty_pos p b :
  digits_value 0 b (pretty (N.pos p)) = Some (Z.pos p).
Proof.
  unfold pretty, pretty_N. rewrite decide_False by done.
  destruct (digits_value_pretty_go (N.pos p)) as [k Hk]; [lia|].
  rewrite Hk. simpl. done.
Qed.

Lemma digits_value_zeros n b s :
  digits_value 0 b (zeros n +:+ s)
  = digits_value 0 (match n with O => b | S _ => true end) s.
Proof.
  revert b. induction n as [|n IH]; intros b; [done|].
  simpl zeros. rewrite app_String. simpl. rewrite IH. by destruct n.
Qed.

Lemma all_chars_app P (s t : string) :
  all_chars P (s +:+ t) = all_chars P s && all_chars P t.
Proof.
  induction s as [|c s IH]; [done|]. rewrite app_String. simpl.
  by rewrite IH, andb_assoc.
Qed.

Lemma all_chars_zeros P n : P "0"%char = true -> all_chars P (zeros n) = true.
Proof. intros H. induction n; [done|]. simpl. by rewrite H, IHn. Qed.

Lemma all_chars_pretty_go P x :
  (forall d, (d < 10)%N -> P (pretty_N_char d) = true) ->
  forall s, all_chars P (pretty_N_go x s) = all_chars P s.
Proof.
  intros HP. induction (N.lt_wf_0 x) as [x _ IH]. intros s.
  destruct (decide (x = 0)%N) as [->|Hx]; [by rewrite pretty_N_go_0|].
  rewrite pretty_N_go_step by lia. rewrite IH by (apply N.div_lt; lia).
  simpl. rewrite HP; [done|]. by apply N.mod_lt.
Qed.

(** The text of an integer has digits and, in front of a negative one, a
    minus sign. *)
Lemma all_chars_str P n :
  (forall d, (d < 10)%N -> P (pretty_N_char d) = true) ->
  P "-"%char = true ->
  all_chars P (str n) = true.
Proof.
  intros HP Hminus.
  assert (forall x : N, all_chars P (pretty x) = true) as HN.
  { intros x. unfold pretty, pretty_N. case_decide; [simpl|].
    - change "0"%char with (pretty_N_char 0). rewrite HP by done. done.
    - by rewrite all_chars_pretty_go. }
  unfold str, pretty, pretty_Z. destruct n as [|p|p].
  - simpl. change "0"%char with (pretty_N_char 0). by rewrite HP.
  - apply HN.
  - rewrite all_chars_app. simpl. rewrite Hminus. simpl. apply HN.
Qed.

Lemma all_chars_zfill P s w :
  P "0"%char = true -> all_chars P s = true -> all_chars P (zfill s w) = true.
Proof.
  intros H0 Hs. unfold zfill.
  destruct (w <=? String.length s)%nat; [done|].
  destruct s as [|c s']; [by apply all_chars_zeros|].
  simpl in Hs. apply andb_true_iff in Hs as [Hc Hs'].
  destruct (bool_decide (c = "+"%char) || bool_decide (c = "-"%char)).
  - simpl. rewrite Hc, all_chars_app, all_chars_zeros, Hs' by done. done.
  - rewrite all_chars_app, all_chars_zeros by done. simpl. by rewrite Hc, Hs'.
Qed.

Lemma no_blank_strip s :
  all_chars (fun c => negb (is_blank c)) s = true ->
  lstrip (rstrip s) = s.
Proof.
  intros H.
  assert (rstrip s = s) as ->.
  { induction s as [|c s IH]; [done|].
    simpl in H. apply andb_true_iff in H as [Hc Hs]. simpl.
    rewrite (IH Hs). apply negb_true_iff in Hc. rewrite Hc.
    by destruct s. }
  destruct s as [|c s]; [done|]. simpl in *.
  apply andb_true_iff in H as [Hc _]. apply negb_true_iff in Hc.
  by rewrite Hc.
Qed.

Lemma no_blank_digit d :
  (d < 10)%N -> negb (is_blank (pretty_N_char d)) = true.
Proof.
  intros Hd.
  assert (d = 0 \/ d = 1 \/ d = 2 \/ d = 3 \/ d = 4 \/ d = 5 \/ d = 6 \/
          d = 7 \/ d = 8 \/ d = 9)%N as Hcases by lia.
  by destruct Hcases as [->|[->|[->|[->|[->|[->|[->|[->|[->| ->]]]]]]]]].
Qed.

Lemma no_sep_digit d :
  (d < 10)%N -> negb (is_sep (pretty_N_char d)) = true.
Proof.
  intros Hd.
  assert (d = 0 \/ d = 1 \/ d = 2 \/ d = 3 \/ d = 4 \/ d = 5 \/ d = 6 \/
          d = 7 \/ d = 8 \/ d = 9)%N as Hcases by lia.
  by destruct Hcases as [->|[->|[->|[->|[->|[->|[->|[->|[->| ->]]]]]]]]].
Qed.

Lemma no_sep_all_chars s :
  no_sep s = all_chars (fun c => negb (is_sep c)) s.
Proof. induction s as [|c s IH]; [done|]. simpl. by rewrite IH. Qed.

Lemma zfill_str_nonneg n w :
  0 <= n -> exists k, zfill (str n) w = zeros k +:+ str n.
Proof.
  intros Hn. unfold zfill.
  destruct (w <=? String.length (str n))%nat; [by exists 0%nat|].
  destruct (str n) as [|c s'] eqn:E.
  { exists w. induction w as [|w IH]; [done|]. simpl. by rewrite app_String, <- IH. }
  assert (c <> "-"%char /\ c <> "+"%char) as [Hm Hp].
  { destruct n as [|p|p]; [by inversion E| |lia].
    pose proof (digits_value_pretty_pos p false) as Hd.
    change (pretty (N.pos p)) with (str (Z.pos p)) in Hd. rewrite E in Hd.
    split; intros ->; simpl in Hd; done. }
  rewrite !bool_decide_false by done. simpl.
  by exists (w - S (String.length s'))%nat.
Qed.

Lemma parse_int_of_digits t x :
  lstrip (rstrip t) = t ->
  digits_value 0 false t = Some x ->
  parse_int t = Some x.
Proof.
  intros Hstrip Hd. unfold parse_int. rewrite Hstrip.
  destruct t as [|c s']; [done|].
  destruct (bool_decide (c = "-"%char)) eqn:Em.
  { apply bool_decide_eq_true in Em as ->. done. }
  destruct (bool_decide (c = "+"%char)) eqn:Ep.
  { apply bool_decide_eq_true in Ep as ->. done. }
  done.
Qed.

Lemma no_blank_zfill_str n w :
  lstrip (rstrip (zfill (str n) w)) = zfill (str n) w.
Proof.
  apply no_blank_strip, all_chars_zfill; [done|].
  apply all_chars_str; [apply no_blank_digit|done].
Qed.

(** The text [str(n).zfill(w)] spells [n], the signs and the zeros put in
    front included. *)
Lemma parse_int_zfill_str n w : parse_int (zfill (str n) w) = Some n.
Proof.
  destruct (Z_lt_le_dec n 0) as [Hneg|Hpos].
  - destruct n as [|p|p]; try lia.
    pose proof (no_blank_zfill_str (Z.neg p) w) as Hstrip.
    unfold parse_int. rewrite Hstrip. unfold zfill.
    change (str (Z.neg p)) with (String "-" (pretty (N.pos p))).
    destruct (w <=? _)%nat.
    + simpl. by rewrite digits_value_pretty_pos.
    + simpl. rewrite digits_value_zeros, digits_value_pretty_pos. done.
  - apply parse_int_of_digits; [apply no_blank_zfill_str|].
    destruct (zfill_str_nonneg n w Hpos) as [k ->].
    rewrite digits_value_zeros.
    destruct n as [|p|p]; [by destruct k| |lia].
    apply digits_value_pretty_pos.
Qed.

(** ** Paths of a frame: [split], [join] and [replace] *)

Lemma length_app_string (s t : string) :
  String.length (s +:+ t) = (String.length s + String.length t)%nat.
Proof. induction s as [|c s IH]; [done|]. rewrite app_String. simpl. lia. Qed.

Lemma app_inv_tail_string (s s' t : string) : s +:+ t = s' +:+ t -> s = s'.
Proof.
  revert s'. induction s as [|c s IH]; intros [|c' s'] H.
  - done.
  - apply (f_equal String.length) in H.
    rewrite !length_app_string in H. simpl in H. lia.
  - apply (f_equal String.length) in H.
    rewrite !length_app_string in H. simpl in H. lia.
  - rewrite !app_String in H. injection H as -> H. f_equal. by apply IH.
Qed.

Lemma cut_last_sep_tail_no_sep p : no_sep (cut_last_sep p).2 = true.
Proof.
  induction p as [|c p IH]; [done|]. simpl.
  destruct (cut_last_sep p) as [h t]. simpl in IH.
  destruct h; [destruct (is_sep c) eqn:E|]; simpl; [done| |done].
  by rewrite E, IH.
Qed.

Lemma prefix_app_self (old t : string) : String.prefix old (old +:+ t) = true.
Proof.
  induction old as [|c old IH]; [by destruct t|].
  rewrite app_String. simpl. by destruct (ascii_dec c c).
Qed.

Lemma prefix_cons a (old : string) c (s : string) :
  String.prefix (String a old) (String c s)
  = if ascii_dec a c then String.prefix old s else false.
Proof. reflexivity. Qed.

Lemma prefix_refl_string (s : string) : String.prefix s s = true.
Proof.
  induction s as [|c s IH]; [done|]. simpl. by destruct (ascii_dec c c).
Qed.

Lemma occurs_app_suffix (old q : string) : occurs old (q +:+ old) = true.
Proof.
  induction q as [|c q IH].
  - rewrite app_empty_l. destruct old as [|a old]; [done|].
    change (occurs (String a old) (String a old))
      with (String.prefix (String a old) (String a old)
            || occurs (String a old) old).
    by rewrite prefix_refl_string.
  - rewrite app_String.
    change (occurs old (String c (q +:+ old)))
      with (String.prefix old (String c (q +:+ old)) || occurs old (q +:+ old)).
    rewrite IH. apply orb_true_r.
Qed.

(** A text that is no prefix does not become one by an addition that begins
    with a character the pattern does not have. *)
Lemma prefix_app_false (old q : string) c t :
  all_chars (fun a => negb (bool_decide (a = c))) old = true ->
  String.prefix old q = false ->
  String.prefix old (q +:+ String c t) = false.
Proof.
  revert q. induction old as [|a old IH]; intros q Hold Hq.
  - by destruct q.
  - simpl in Hold. apply andb_true_iff in Hold as [Ha Hold].
    apply negb_true_iff, bool_decide_eq_false in Ha.
    destruct q as [|b q].
    + rewrite app_empty_l. simpl. by destruct (ascii_dec a c).
    + rewrite app_String. simpl in *.
      destruct (ascii_dec a b); [by apply IH|done].
Qed.

Lemma occurs_cons_false old c q :
  occurs old (String c q) = false ->
  String.prefix old (String c q) = false /\ occurs old q = false.
Proof. simpl. by intros [? ?]%orb_false_iff. Qed.

Lemma occurs_false_prefix old q :
  old <> EmptyString -> occurs old q = false -> String.prefix old q = false.
Proof.
  intros Hold. destruct q as [|c q].
  - by destruct old.
  - by intros [? _]%occurs_cons_false.
Qed.

Lemma replace_json_suffix q :
  occurs "json" q = false ->
  replace "json" "png" (q +:+ ".json") = q +:+ ".png".
Proof.
  unfold replace. induction q as [|c q IH]; intros Hq; [done|].
  apply occurs_cons_false in Hq as [Hpre Hq].
  rewrite !app_String.
  change (replace_from "json" "png" 0 (String c (q +:+ ".json")))
    with (if String.prefix "json" (String c (q +:+ ".json"))
          then "png" +:+ replace_from "json" "png" 3 (q +:+ ".json")
          else String c (replace_from "json" "png" 0 (q +:+ ".json"))).
  rewrite <- app_String, prefix_app_false by done.
  by rewrite IH.
Qed.

Lemma replace_dot_json_suffix q :
  occurs "json" q = false ->
  replace ".json" ".png" (q +:+ ".json") = q +:+ ".png".
Proof.
  unfold replace. induction q as [|c q IH]; intros Hq; [done|].
  apply occurs_cons_false in Hq as [Hpre Hq].
  rewrite !app_String.
  change (replace_from ".json" ".png" 0 (String c (q +:+ ".json")))
    with (if String.prefix ".json" (String c (q +:+ ".json"))
          then ".png" +:+ replace_from ".json" ".png" 4 (q +:+ ".json")
          else String c (replace_from ".json" ".png" 0 (q +:+ ".json"))).
  assert (String.prefix ".json" (String c (q +:+ ".json")) = false) as ->.
  { rewrite prefix_cons. destruct (ascii_dec "." c); [|done].
    apply prefix_app_false; [done|]. by apply occurs_false_prefix. }
  by rewrite IH.
Qed.

(** Replacing [".json"] by [".png"] changes every text that has a
    [".json"]. *)
Lemma replace_dot_json_changes s :
  occurs ".json" s = true -> replace ".json" ".png" s <> s.
Proof.
  unfold replace. induction s as [|c s IH]; [done|].
  intros Hocc.
  change (replace_from ".json" ".png" 0 (String c s))
    with (if String.prefix ".json" (String c s)
          then ".png" +:+ replace_from ".json" ".png" 4 s
          else String c (replace_from ".json" ".png" 0 s)).
  destruct (String.prefix ".json" (String c s)) eqn:E.
  - rewrite prefix_cons in E. destruct (ascii_dec "." c) as [<-|]; [|done].
    destruct s as [|c2 s]; [done|]. rewrite prefix_cons in E.
    destruct (ascii_dec "j" c2) as [<-|]; [|done].
    rewrite !app_String. discriminate.
  - change (occurs ".json" (String c s))
      with (String.prefix ".json" (String c s) || occurs ".json" s) in Hocc.
    rewrite E in Hocc. simpl in Hocc.
    intros [= H]. by apply IH.
Qed.

Lemma ends_plain_inv p :
  ends_plain p = true ->
  exists r c, p = r +:+ String c "" /\ is_sep c = false.
Proof.
  induction p as [|a p IH]; [done|].
  destruct p as [|b p].
  - simpl. intros Ha%negb_true_iff. by exists "", a.
  - intros H. destruct (IH H) as (r & c & -> & Hc).
    exists (String a r), c. by rewrite app_String.
Qed.

Lemma no_sep_ends_plain d : no_sep d = true -> d <> "" -> ends_plain d = true.
Proof.
  induction d as [|a d IH]; [done|]. simpl.
  intros [Ha Hd]%andb_true_iff _. destruct d; [done|]. by apply IH.
Qed.

Lemma ends_plain_app s t : ends_plain t = true -> ends_plain (s +:+ t) = true.
Proof.
  intros Ht. induction s as [|a s IH]; [done|].
  rewrite app_String. simpl. by destruct (s +:+ t).
Qed.

Lemma rstrip_sep_snoc r c :
  is_sep c = false -> rstrip_sep ((r +:+ String c "") +:+ "/") = r +:+ String c "".
Proof.
  intros Hc. induction r as [|a r IH].
  - rewrite !app_empty_l. simpl. by rewrite Hc.
  - rewrite !app_String. simpl. rewrite IH. by destruct r.
Qed.

Lemma all_sep_snoc r c t :
  is_sep c = false -> all_sep ((r +:+ String c "") +:+ t) = false.
Proof.
  intros Hc. induction r as [|a r IH].
  - rewrite app_empty_l, app_String. simpl. by rewrite Hc.
  - rewrite !app_String. simpl. rewrite IH. apply andb_false_r.
Qed.

Lemma ends_plain_not_ends_with_sep p :
  ends_plain p = true -> p <> "" /\ ends_with_sep p = false.
Proof.
  intros (r & c & -> & Hc)%ends_plain_inv. split; [by destruct r|].
  unfold ends_with_sep. rewrite cut_last_sep_app by (simpl; by rewrite Hc).
  simpl. destruct (cut_last_sep r) as [[|? ?] t]; simpl; [done|].
  by destruct t.
Qed.

(** [posixpath.split] gives back the two parts of a path put together with
    one ["/"]. *)
Lemma osp_split_join p x :
  ends_plain p = true -> no_sep x = true ->
  osp_split (p +:+ "/" +:+ x) = (p, x).
Proof.
  intros (r & c & -> & Hc)%ends_plain_inv Hx. unfold osp_split.
  rewrite <- app_assoc_string, cut_last_sep_app, cut_last_sep_snoc_sep by done.
  simpl. rewrite all_sep_snoc, rstrip_sep_snoc by done.
  rewrite bool_decide_false; [done|]. by destruct r.
Qed.

Lemma osp_join_plain p x :
  ends_plain p = true -> no_sep x = true ->
  osp_join p [x] = p +:+ "/" +:+ x.
Proof.
  intros [Hne Hend]%ends_plain_not_ends_with_sep Hx.
  unfold osp_join, join_step. simpl.
  rewrite (starts_with_sep_no_sep x Hx), Hend.
  by rewrite bool_decide_false.
Qed.

Lemma join_step_app p b t :
  starts_with_sep (b +:+ t) = false -> starts_with_sep b = false ->
  join_step p (b +:+ t) = join_step p b +:+ t.
Proof.
  intros Hbt Hb. unfold join_step. rewrite Hbt, Hb.
  destruct (bool_decide (p = "") || ends_with_sep p).
  - by rewrite app_assoc_string.
  - by rewrite !app_assoc_string.
Qed.

Lemma join_step_suffix p b : exists q, join_step p b = q +:+ b.
Proof.
  unfold join_step. destruct (starts_with_sep b); [by exists ""|].
  destruct (bool_decide (p = "") || ends_with_sep p); [by exists p|].
  exists (p +:+ "/"). by rewrite app_assoc_string.
Qed.

Lemma img_save_path_ne_json fp : img_save_path fp <> json_save_path fp.
Proof.
  unfold img_save_path. apply replace_dot_json_changes.
  unfold json_save_path, osp_join. simpl.
  destruct (join_step_suffix (save_folder fp) (name_str fp +:+ ".json"))
    as [q ->].
  rewrite <- app_assoc_string. apply occurs_app_suffix.
Qed.

(** ** The networks and their modes *)

Section ValidationFacts.

Context {tensor input output py_state np_state torch_state other_state : Type}.
Variable net : network -> bool -> input -> output.
Variable matcher : network -> bool -> @test_data tensor ->
                   list int64 * list (list float32).
Variable recolorize_gt : image -> tensor.
Variable render : gmap string color -> image -> image.
Variable set_random_seed :
  Z -> @generators py_state np_state torch_state other_state ->
  @generators py_state np_state torch_state other_state.

(** X15. [test] always answers with a network in evaluation mode: the
    moving average when the model has one, the generator otherwise.  Without
    a moving average it leaves the generator in training mode, whatever
    mode it was in before; with one it leaves the mode of the generator as
    it was and the moving average in evaluation mode. *)
Theorem test_runs_in_evaluation_mode data s :
  exists s',
    test net data s
    = Some (s', net (if has_ema s then NetGEma else NetG) false data) /\
    (net_g_ema_training s = None -> s' = Nets true None) /\
    (forall b, net_g_ema_training s = Some b ->
       s' = Nets (net_g_training s) (Some false)).
Proof.
  destruct s as [g [b|]]; unfold test; simpl.
  - exists (Nets g (Some false)). split; [done|]. split; [done|]. done.
  - exists (Nets true None). split; [done|]. split; [done|]. done.
Qed.

(** X16. The validation of lines 109-129 walks with the moving average when
    the model has one and with the generator otherwise, in evaluation mode,
    with seed 42, under [visualization/current_iter/dataset_name], and with
    [save_img], [accu] and [self_prop] as the options of [opt["val"]] say
    ([False] when not set): the argument [save_img] has no part in it.
    After it the generator is in training mode exactly when the model has a
    moving average: in a model without one line 217 undoes line 127.  The
    states [_recover_seed] restores later are those from before the
    validation. *)
Theorem validation_walk_modes visualization dataset_name opt current_iter
    (save_img : bool) test_loader (s : session) :
  let model := if has_ema (networks s) then NetGEma else NetG in
  exists model_inference modes,
    validation_walk matcher recolorize_gt render set_random_seed
      visualization dataset_name opt current_iter save_img test_loader s
    = Some (model_inference, modes, set_random_seed 42 (rng s),
            inference_frame_by_frame (matcher model false) recolorize_gt
              render (osp_join visualization [str current_iter; dataset_name])
              (default false (val_save_img opt))
              (default false (val_accu opt))
              (default false (val_self_prop opt)) test_loader (store s)) /\
    net_g_training modes = has_ema (networks s) /\
    net_g_ema_training modes
    = (fun _ => false) <$> net_g_ema_training (networks s) /\
    (forall g : @generators py_state np_state torch_state other_state,
       py_rng (_recover_seed model_inference g) = py_rng (rng s) /\
               np_rng (_recover_seed model_inference g) = np_rng (rng s) /\
               torch_rng (_recover_seed model_inference g)
               = torch_rng (rng s)) /\
    (ends_plain visualization = true -> no_sep dataset_name = true ->
     osp_join visualization [str current_iter; dataset_name]
     = visualization +:+ "/" +:+ str current_iter +:+ "/" +:+ dataset_name).
Proof.
  intros model.
  assert (ends_plain visualization = true -> no_sep dataset_name = true ->
          osp_join visualization [str current_iter; dataset_name]
          = visualization +:+ "/" +:+ str current_iter
            +:+ "/" +:+ dataset_name) as Hpath.
  { intros Hv Hn.
    change (osp_join visualization [str current_iter; dataset_name])
      with (osp_join (osp_join visualization [str current_iter])
              [dataset_name]).
    assert (no_sep (str current_iter) = true) as Hs.
    { rewrite no_sep_all_chars.
      apply all_chars_str; [apply no_sep_digit|done]. }
    rewrite (osp_join_plain visualization) by done.
    rewrite osp_join_plain; [by rewrite !app_assoc_string| |done].
    apply ends_plain_app, ends_plain_app, no_sep_ends_plain; [done|].
    intros E. pose proof (parse_int_zfill_str current_iter 0) as Hint.
    unfold zfill in Hint. simpl in Hint. by rewrite E in Hint. }
  destruct s as [[g [b|]] r st]; subst model; simpl in *.
  - eexists _, _. unfold validation_walk. simpl.
    split; [reflexivity|]. done.
  - eexists _, _. unfold validation_walk. simpl.
    split; [reflexivity|]. done.
Qed.

End ValidationFacts.

Section WalkExtras.

Context {tensor : Type}.
Variable model : @test_data tensor -> list int64 * list (list float32).
Variable recolorize_gt : image -> tensor.
Variable render : gmap string color -> image -> image.

Lemma int_parse_int s n : int s = Some n -> parse_int s = Some n.
Proof.
  unfold int. destruct (parse_int s) as [m|]; [|done]. simpl.
  by destruct (count_digits s <=? int_max_str_digits)%nat.
Qed.

Lemma paths_of_names save_path (td : @test_data tensor) w fp w' :
  paths_of save_path td w = Done fp w' ->
  no_sep (name_str fp) = true /\
  no_sep (prev_name_str fp) = true /\
  parse_int (prev_name_str fp) = Some (prev_index fp).
Proof.
  intros Hp.
  destruct (paths_of_done _ _ _ _ _ Hp) as (_ & _ & Hprev & _).
  split; [|split].
  - revert Hp. unfold paths_of, osp_split.
    pose proof (cut_last_sep_tail_no_sep (file_name td)) as Ht.
    destruct (cut_last_sep (file_name td)) as [h name]. simpl in Ht.
    unfold_M. destruct (int name) as [index|]; [|done].
    unfold_M. cbv beta iota.
    destruct (str_within_limit (index - 1)); [|done]. by intros [= <- _].
  - rewrite Hprev, no_sep_all_chars. apply all_chars_zfill; [done|].
    apply all_chars_str; [apply no_sep_digit|done].
  - rewrite Hprev. apply parse_int_zfill_str.
Qed.

(** X2. Of the names lines 219-244 and 268 derive for a frame whose name
    [int] reads, four are apart: the name of the previous frame is not the
    name of the frame; the colour map of the frame goes to a path that is
    neither the colour map of the data set the frame loads nor, under self
    propagation, the one of the result folder; and the image goes to a path
    that is not the one of the colour map.  Nothing is said of the other
    files the step reads: the image can go to the path of the label image
    of the frame. *)
Theorem frame_keeps_results_apart save_path (td : @test_data tensor) w fp w' :
  paths_of save_path td w = Done fp w' ->
  name_str fp <> prev_name_str fp /\
  json_save_path fp <> prev_json_path fp /\
  json_save_path fp <> out_json fp /\
  img_save_path fp <> json_save_path fp.
Proof.
  intros Hp.
  destruct (paths_of_done _ _ _ _ _ Hp) as (_ & Hname & _ & Hseed & _).
  destruct (paths_of_names _ _ _ _ _ Hp) as (Hn & Hpn & Hprev).
  assert (name_str fp <> prev_name_str fp) as Hne.
  { intros E. apply int_parse_int in Hname.
    rewrite E, Hprev in Hname. injection Hname. lia. }
  split; [done|].
  split; [|split; [|apply img_save_path_ne_json]].
  - rewrite Hseed. intros E. apply (f_equal osp_basename) in E.
    unfold json_save_path in E.
    rewrite basename_join1, basename_seed_json in E
      by (rewrite ?no_sep_app, ?Hn; done).
    by apply app_inv_tail_string in E.
  - intros E. apply join1_inj in E; [|by rewrite no_sep_app, ?Hn, ?Hpn..].
    by apply app_inv_tail_string in E.
Qed.

(** X3. For the line art [C/d/name] of a character folder [C] (not empty, no
    ["/"] at its end; [d] and [name] without ["/"]; [name] a text that [int]
    reads as [index], with [index - 1] short of the digits at which [str]
    raises), lines 219-224 find the character folder [C], read the previous
    colour map from [C/seg/<previous name>.json], the previous name being
    the previous index filled with zeros to the width of [name], and send
    the results to the folder named after [C] under [save_path]. *)
Theorem paths_of_line_art save_path (td : @test_data tensor) w C d name index :
  ends_plain C = true ->
  no_sep d = true -> d <> "" ->
  no_sep name = true ->
  int name = Some index ->
  Z.abs (index - 1) < 10 ^ Z.of_nat int_max_str_digits ->
  file_name td = (C +:+ "/" +:+ d) +:+ "/" +:+ name ->
  let previous := zfill (str (index - 1)) (String.length name) in
  paths_of save_path td w
  = Done {| character_root := C;
            name_str := name;
            prev_index := index - 1;
            prev_name_str := previous;
            prev_json_path := C +:+ "/seg/" +:+ previous +:+ ".json";
            save_folder := osp_join save_path [osp_basename C] |} w.
Proof.
  intros HC Hd Hdne Hname Hint Hlimit Hfile previous. unfold paths_of.
  rewrite Hfile, osp_split_join;
    [|by apply ends_plain_app, ends_plain_app, no_sep_ends_plain|done].
  rewrite (osp_split_join C d) by done. simpl fst.
  unfold_M. rewrite Hint. unfold_M. cbv beta iota.
  unfold str_within_limit. rewrite bool_decide_true by done.
  cbv beta iota. f_equal. f_equal.
  2: { unfold osp_split, osp_basename. by destruct (cut_last_sep C). }
  fold previous.
  change (osp_join C ["seg"; previous +:+ ".json"])
    with (osp_join (osp_join C ["seg"]) [previous +:+ ".json"]).
  rewrite (osp_join_plain C "seg") by done.
  rewrite osp_join_plain.
  - by rewrite !app_assoc_string.
  - by apply ends_plain_app.
  - unfold previous. rewrite no_sep_app, no_sep_all_chars.
    rewrite all_chars_zfill; [done..|].
    apply all_chars_str; [apply no_sep_digit|done].
Qed.

Lemma seed_json_ne_out_png fp :
  no_sep (prev_name_str fp) = true -> seed_json fp <> out_png fp.
Proof.
  intros Hn E. apply (f_equal osp_basename) in E.
  unfold out_png in E.
  rewrite basename_seed_json, basename_join1 in E
    by (by rewrite ?no_sep_app, ?Hn).
  by apply app_inv_head_string in E.
Qed.

(** Lines 226-233 leave the dicts and the colour map of the data set that
    the frame loads as they are. *)
Lemma bootstrap_keeps_input save_path (td : @test_data tensor) w fp w0
    save_img wb :
  paths_of save_path td w = Done fp w0 ->
  bootstrap save_img fp w = Done tt wb ->
  dicts wb = dicts w /\
  files wb !! prev_json_path fp = files w !! prev_json_path fp /\
  (prev_index fp <> 0 -> wb = w).
Proof.
  intros Hp Hboot.
  destruct (decide (prev_index fp = 0)) as [H0|Hne].
  - pose proof (paths_of_seed_name _ _ _ _ _ Hp H0) as Hn.
    destruct (paths_of_done _ _ _ _ _ Hp) as (_ & _ & _ & Hseed & _).
    rewrite (bootstrap_spec save_img fp w H0 Hseed Hn) in Hboot.
    destruct (files w !! save_folder fp); [done|].
    destruct (bool_decide (seed_json fp = out_json fp)) eqn:E; [done|].
    apply bool_decide_eq_false in E.
    destruct (files w !! seed_json fp) as [seed|]; [|done].
    rewrite Hseed. destruct save_img.
    + destruct (bool_decide (seed_png fp = out_png fp)); [done|].
      destruct (files w !! seed_png fp) as [gt|]; [|done].
      injection Hboot as <-. simpl. split; [done|]. split; [|done].
      rewrite !lookup_insert_ne; [done|done|].
      intros E'. symmetry in E'. by eapply seed_json_ne_out_png.
    + injection Hboot as <-. simpl. split; [done|]. split; [|done].
      by rewrite lookup_insert_ne.
  - unfold bootstrap in Hboot. rewrite bool_decide_false in Hboot by done.
    injection Hboot as <-. done.
Qed.

Lemma resolves_to_any_store (accu : bool) color_dict C_prev match_
    match_scores w l w' :
  dicts w !! color_dict = Some C_prev ->
  resolve_colors accu color_dict match_ match_scores w = Done l w' ->
  exists d, dicts w' !! l = Some d /\
    resolves_to accu C_prev match_ match_scores d.
Proof.
  intros Hprev Hrun.
  destruct (resolved_entry accu _ _ _ _ _ _ _ Hprev Hrun) as (m & Hm & Hall).
  exists m. split; [done|]. unfold resolves_to.
  assert (dicts (store_of C_prev) !! 0%nat = Some C_prev) as H0 by done.
  destruct accu.
  - rewrite (resolve_colors_accu _ _ C_prev) by done. simpl. rewrite Hall.
    eexists _, _. split; [done|]. simpl. apply lookup_insert_eq.
  - rewrite (resolve_colors_direct _ _ C_prev) by done. simpl. rewrite Hall.
    eexists _, _. split; [done|]. simpl. apply lookup_insert_eq.
Qed.

(** X7. Lines 265-269 write two files at most, the colour map of the frame
    and, when images are saved, its image; rendering the image does not
    touch the colour map: after the step the file of the colour map holds
    the entries of [color_next_frame], and the dicts are as before. *)
Theorem persist_keeps_color_map (save_img : bool) fp color_next_frame w w' :
  persist render save_img fp color_next_frame w = Done tt w' ->
  exists d,
    dicts w !! color_next_frame = Some d /\
    files w' !! json_save_path fp = Some (JsonFile d) /\
    dicts w' = dicts w /\
    (forall p, p <> json_save_path fp -> p <> img_save_path fp ->
       files w' !! p = files w !! p) /\
    (save_img = false ->
     files w' !! img_save_path fp = files w !! img_save_path fp).
Proof.
  unfold persist, dump_json, with_dict. unfold_M.
  fold (json_save_path fp). fold (img_save_path fp).
  destruct (dicts w !! color_next_frame) as [d|]; [|done].
  unfold write_file at 1.
  pose proof (img_save_path_ne_json fp) as Hne.
  destruct save_img.
  - unfold colorize_label_image, read_img_2_np. unfold_M.
    unfold read_file at 1.
    match goal with
    | |- context [files ?w1 !! ?p] =>
        destruct (files w1 !! p) as [[?|label]|]; [done| |done]
    end.
    unfold read_file. simpl. rewrite lookup_insert_eq.
    unfold write_file. intros [= <-]. exists d. simpl.
    split; [done|]. split; [by rewrite lookup_insert_ne, lookup_insert_eq|].
    split; [done|]. split; [|done].
    intros p Hp1 Hp2. by rewrite !lookup_insert_ne.
  - intros [= <-]. exists d. simpl.
    split; [done|]. split; [apply lookup_insert_eq|]. split; [done|].
    split; intros; by rewrite lookup_insert_ne.
Qed.

(** X8. Without self propagation a frame is resolved against the colour map
    at [seg/<previous name>.json] of its character, as that file is when
    the step begins, whoever wrote it: when the step ends, the file of the
    colour map of the frame holds the resolution of that map with the
    answer of the network for the frame. *)
Theorem frame_resolves_data_set_map save_path (save_img accu : bool) td w w' :
  frame_step model recolorize_gt render save_path save_img accu false td w
  = Done tt w' ->
  exists fp C_prev d,
    paths_of save_path td w = Done fp w /\
    files w !! prev_json_path fp = Some (JsonFile C_prev) /\
    resolves_to accu C_prev (model td).1 (model td).2 d /\
    files w' !! json_save_path fp = Some (JsonFile d).
Proof.
  intros Hstep.
  destruct (frame_step_done _ _ _ _ _ _ _ _ _ _ Hstep)
    as (fp & cd & td' & w1 & cnf & w2 & Hprep & Hres & Hpersist).
  revert Hprep. unfold prepare. unfold_M.
  destruct (paths_of save_path td w) as [fp0 w0|] eqn:Ep; [|done].
  pose proof (paths_of_done _ _ _ _ _ Ep) as [-> _].
  destruct (bootstrap save_img fp0 w) as [[] wb|] eqn:Eb; [|done].
  destruct (bootstrap_keeps_input _ _ _ _ _ _ _ Ep Eb) as (Hd & Hf & _).
  simpl. unfold load_json, read_file. unfold_M.
  rewrite Hf.
  destruct (files w !! prev_json_path fp0) as [[C_prev|]|] eqn:Efile; [|done..].
  unfold alloc_dict. intros [= <- <- <- <-].
  assert (dicts (World (files wb) (<[fresh (dom (dicts wb)) := C_prev]>
                                     (dicts wb)))
            !! fresh (dom (dicts wb)) = Some C_prev) as Hloaded.
  { simpl. apply lookup_insert_eq. }
  destruct (resolves_to_any_store accu _ C_prev _ _ _ _ _ Hloaded Hres)
    as (d & Hd' & Hto).
  destruct (persist_keeps_color_map _ _ _ _ _ Hpersist)
    as (d' & Hd'' & Hjson & _).
  rewrite Hd' in Hd''. injection Hd'' as <-.
  exists fp0, C_prev, d. done.
Qed.

(** X9. With self propagation a frame is resolved against the colour map
    the walk wrote for the frame of the previous name, and its reference
    image is the recolorized image under that name: when the step of that
    frame has ended and the frame at hand is not the first one, the dict
    line 242 loads has the entries of the file the previous step wrote. *)
Theorem self_propagation_reads_own_results save_path (accu : bool)
    td1 td2 w0 w1 fp1 fp2 color_dict td2' w2 :
  frame_step model recolorize_gt render save_path true accu true td1 w0
  = Done tt w1 ->
  paths_of save_path td1 w0 = Done fp1 w0 ->
  prepare recolorize_gt save_path true true td2 w1
  = Done (fp2, color_dict, td2') w2 ->
  save_folder fp2 = save_folder fp1 ->
  prev_name_str fp2 = name_str fp1 ->
  prev_index fp2 <> 0 ->
  exists d prev_result,
    files w1 !! json_save_path fp1 = Some (JsonFile d) /\
    dicts w2 !! color_dict = Some d /\
    files w1 !! replace "json" "png" (json_save_path fp1)
    = Some (ImgFile prev_result) /\
    tensors td2' !! "recolorized_img" = Some (recolorize_gt prev_result) /\
    files w2 = files w1.
Proof.
  intros Hstep Hp1 Hprep Hfolder Hname Hne.
  destruct (frame_step_done _ _ _ _ _ _ _ _ _ _ Hstep)
    as (fp & cd & td' & w1' & cnf & w3 & Hprep1 & _ & Hpersist).
  destruct (prepare_done _ _ _ _ _ _ _ _ _ _ Hprep1) as (Hp1' & _).
  rewrite Hp1 in Hp1'. injection Hp1' as <-.
  destruct (persist_keeps_color_map _ _ _ _ _ Hpersist) as (d & _ & Hjson & _).
  revert Hprep. unfold prepare. unfold_M.
  destruct (paths_of save_path td2 w1) as [fp0 w0'|] eqn:Ep; [|done].
  pose proof (paths_of_done _ _ _ _ _ Ep) as [-> _].
  destruct (bootstrap true fp0 w1) as [[] wb|] eqn:Eb; [|done].
  unfold self_reference, read_img_2_np, read_file. unfold_M.
  destruct (files wb !! replace "json" "png"
              (osp_join (save_folder fp0) [prev_name_str fp0 +:+ ".json"]))
    as [[?|prev_result]|] eqn:Eimg; [done| |done].
  cbn [fst snd]. unfold load_json, read_file. unfold_M.
  destruct (files wb !! osp_join (save_folder fp0)
              [prev_name_str fp0 +:+ ".json"]) as [[C_prev|]|] eqn:Ejson;
    cbv beta iota; [|done..].
  unfold alloc_dict. intros [= <- <- <- <-].
  destruct (bootstrap_keeps_input _ _ _ _ _ _ _ Ep Eb) as (_ & _ & Hsame).
  rewrite (Hsame Hne) in Ejson, Eimg.
  unfold json_save_path. rewrite <- Hfolder, <- Hname.
  rewrite Hfolder, Hname in Ejson. unfold json_save_path in Hjson.
  rewrite Hjson in Ejson. injection Ejson as <-.
  exists d, prev_result. split; [by rewrite Hfolder, Hname|].
  split; [simpl; apply lookup_insert_eq|]. split; [done|].
  split; [simpl; apply lookup_insert_eq|]. simpl. by rewrite (Hsame Hne).
Qed.


(** X11. Under self propagation the frame after a frame named [name] looks
    for its reference under the paths lines 236-237 derive: the colour map
    at the path the step of [name] wrote it to (line 244), and the image,
    found by replacing every ["json"] of that path, at the path line 268
    wrote it to, as long as the result folder and the name have no
    ["json"] in them. *)
Theorem self_propagation_paths fp1 fp2 :
  save_folder fp2 = save_folder fp1 ->
  prev_name_str fp2 = name_str fp1 ->
  no_sep (name_str fp1) = true ->
  occurs "json" (osp_join (save_folder fp1) [name_str fp1]) = false ->
  out_json fp2 = json_save_path fp1 /\
  replace "json" "png" (out_json fp2) = img_save_path fp1.
Proof.
  intros Hfolder Hname Hn Hocc.
  assert (out_json fp2 = json_save_path fp1) as Heq.
  { unfold out_json, json_save_path. by rewrite Hfolder, Hname. }
  split; [done|]. rewrite Heq. unfold img_save_path, json_save_path.
  unfold osp_join in *. simpl foldl in *.
  pose proof (starts_with_sep_no_sep _ Hn) as Hs.
  rewrite join_step_app; [|by destruct (name_str fp1)|done].
  by rewrite replace_json_suffix, replace_dot_json_suffix.
Qed.

(** X19. When the result folder of a character is its [seg] folder (as for
    [save_path] ["data/seg"] and the character ["data/seg"]), the image of a
    frame goes to the path of its label image: line 269 reads the label
    image and puts the rendering in its place. *)
Theorem rendering_replaces_label_image fp color_next_frame w w' :
  save_folder fp = osp_join (character_root fp) ["seg"] ->
  no_sep (name_str fp) = true ->
  occurs "json" (osp_join (save_folder fp) [name_str fp]) = false ->
  persist render true fp color_next_frame w = Done tt w' ->
  img_save_path fp = label_path fp /\
  exists d label,
    dicts w !! color_next_frame = Some d /\
    files w !! label_path fp = Some (ImgFile label) /\
    files w' !! label_path fp = Some (ImgFile (render d label)).
Proof.
  intros Hfolder Hn Hocc.
  assert (img_save_path fp = label_path fp) as Hsame.
  { unfold img_save_path, json_save_path, label_path.
    rewrite Hfolder in *. unfold osp_join in *. simpl foldl in *.
    pose proof (starts_with_sep_no_sep _ Hn) as Hs.
    rewrite !join_step_app; [by rewrite replace_dot_json_suffix|..];
      first [done|by destruct (name_str fp)]. }
  intros Hpersist. split; [done|]. revert Hpersist.
  unfold persist, dump_json, with_dict. unfold_M.
  fold (json_save_path fp). fold (img_save_path fp). fold (label_path fp).
  destruct (dicts w !! color_next_frame) as [d|]; [|done].
  unfold write_file at 1. unfold colorize_label_image, read_img_2_np.
  unfold_M. unfold read_file at 1. simpl files.
  rewrite lookup_insert_ne; last first.
  { rewrite <- Hsame. intros E. symmetry in E. revert E.
    by apply img_save_path_ne_json. }
  destruct (files w !! label_path fp) as [[?|label]|]; [done| |done].
  unfold read_file. simpl. rewrite lookup_insert_eq.
  unfold write_file. intros [= <-]. exists d, label.
  split; [done|]. split; [done|]. simpl. rewrite Hsame.
  apply lookup_insert_eq.
Qed.

(** X20. With the result folder of a character being its [seg] folder, the
    colour map a frame saves (lines 244 and 265) is at the path from which
    the frame that has it as previous loads its colour map (lines 223 and
    242): the next frame reads what the walk wrote. *)
Theorem next_frame_loads_saved_result save_path
    (td1 td2 : @test_data tensor) w1 w2 fp1 fp2 w1' w2' :
  paths_of save_path td1 w1 = Done fp1 w1' ->
  paths_of save_path td2 w2 = Done fp2 w2' ->
  character_root fp2 = character_root fp1 ->
  prev_name_str fp2 = name_str fp1 ->
  save_folder fp1 = osp_join (character_root fp1) ["seg"] ->
  prev_json_path fp2 = json_save_path fp1.
Proof.
  intros _ Hp2 Hroot Hname Hfolder.
  destruct (paths_of_done _ _ _ _ _ Hp2) as (_ & _ & _ & Hseed & _).
  rewrite Hseed. unfold seed_json, json_save_path.
  by rewrite Hfolder, Hroot, Hname.
Qed.

End WalkExtras.

Lemma rendering_replaces_label_image_witness :
  img_save_path seg_frame2_paths = label_path seg_frame2_paths.
Proof.
  refine (proj1
            (rendering_replaces_label_image flat_render seg_frame2_paths
               0%nat (World seg_files {[ 0%nat := only_red ]})
               (world_of (persist flat_render true seg_frame2_paths 0%nat
                            (World seg_files {[ 0%nat := only_red ]})))
               _ _ _ _)); vm_compute; reflexivity.
Defined.

Lemma next_frame_loads_saved_result_witness :
  prev_json_path seg_frame2_paths = json_save_path seg_frame1_paths.
Proof.
  refine (next_frame_loads_saved_result "data/seg" seg_frame1 seg_frame2
            (World seg_files ∅) (World seg_files ∅)
            seg_frame1_paths seg_frame2_paths
            (World seg_files ∅) (World seg_files ∅) _ _ _ _ _);
    vm_compute; reflexivity.
Defined.

Lemma frame_keeps_results_apart_witness :
  json_save_path first_frame_paths <> prev_json_path first_frame_paths.
Proof.
  refine (proj1 (proj2
            (frame_keeps_results_apart "out" first_frame (World seed_files ∅)
               first_frame_paths (World seed_files ∅) _))).
  vm_compute. reflexivity.
Defined.

Lemma paths_of_line_art_witness :
  paths_of "out" first_frame (World seed_files ∅)
  = Done {| character_root := "d/A";
            name_str := "0001";
            prev_index := 1 - 1;
            prev_name_str := zfill (str (1 - 1)) (String.length "0001");
            prev_json_path :=
              "d/A" +:+ "/seg/"
              +:+ zfill (str (1 - 1)) (String.length "0001") +:+ ".json";
            save_folder := osp_join "out" [osp_basename "d/A"] |}
      (World seed_files ∅).
Proof.
  apply (paths_of_line_art "out" first_frame (World seed_files ∅)
           "d/A" "line" "0001" 1); reflexivity || discriminate.
Defined.

Lemma persist_keeps_color_map_witness :
  exists d,
    files (world_of (persist flat_render true first_frame_paths 0%nat
                       (World seed_files {[ 0%nat := only_red ]})))
      !! json_save_path first_frame_paths = Some (JsonFile d).
Proof.
  destruct (persist_keeps_color_map flat_render true first_frame_paths 0%nat
              (World seed_files {[ 0%nat := only_red ]})
              (world_of (persist flat_render true first_frame_paths 0%nat
                           (World seed_files {[ 0%nat := only_red ]}))))
    as (d & _ & Hjson & _).
  - vm_compute. reflexivity.
  - exists d. exact Hjson.
Defined.

Lemma frame_resolves_data_set_map_witness :
  exists fp d,
    files (world_of (frame_step stray_model (fun _ => tt) flat_render "out"
                       false true false first_frame (World seed_files ∅)))
      !! json_save_path fp = Some (JsonFile d).
Proof.
  destruct (frame_resolves_data_set_map stray_model (fun _ => tt) flat_render
              "out" false true first_frame (World seed_files ∅)
              (world_of (frame_step stray_model (fun _ => tt) flat_render
                           "out" false true false first_frame
                           (World seed_files ∅))))
    as (fp & C_prev & d & _ & _ & _ & Hjson).
  - vm_compute. reflexivity.
  - exists fp, d. exact Hjson.
Defined.

Lemma self_propagation_reads_own_results_witness :
  exists d,
    files (world_of (frame_step stray_model (fun _ => tt) flat_render "out"
                       true true true first_frame (World seed_files ∅)))
      !! json_save_path first_frame_paths = Some (JsonFile d).
Proof.
  edestruct (self_propagation_reads_own_results stray_model (fun _ => tt)
               flat_render "out" true first_frame second_frame
               (World seed_files ∅)
               (world_of (frame_step stray_model (fun _ => tt) flat_render
                            "out" true true true first_frame
                            (World seed_files ∅)))
               first_frame_paths second_frame_paths)
    as (d & prev_result & Hjson & _).
  - vm_compute. reflexivity.
  - vm_compute. reflexivity.
  - vm_compute. reflexivity.
  - reflexivity.
  - reflexivity.
  - discriminate.
  - exists d. exact Hjson.
Defined.


Lemma self_propagation_paths_witness :
  replace "json" "png" (out_json second_frame_paths)
  = img_save_path first_frame_paths.
Proof.
  refine (proj2 (self_propagation_paths first_frame_paths second_frame_paths
                   _ _ _ _)); vm_compute; reflexivity.
Defined.

Lemma dis_data_to_cuda_moves_tensors_witness :
  dis_data_to_cuda S 0%nat {[ 0%nat := example_batch ]}
  = (inr 0%nat, <[0%nat := moved S example_batch]> {[ 0%nat := example_batch ]}).
Proof.
  refine (proj1 (dis_data_to_cuda_moves_tensors S 0%nat example_batch
                   {[ 0%nat := example_batch ]} _ _) _).
  - reflexivity.
  - repeat constructor; vm_compute; intros H;
      repeat (apply elem_of_cons in H as [H|H]; [discriminate|]);
      by apply elem_of_nil in H.
  - apply Forall_cons_2; [left; apply list_elem_of_singleton; reflexivity|].
    apply Forall_cons_2; [right; by eexists|].
    apply Forall_cons_2; [right; by eexists|].
    apply Forall_nil_2.
Defined.

Lemma feed_data_aliases_batch_witness :
  feed_data S 0%nat {[ 0%nat := example_batch ]}
  = (None, (0%nat, <[0%nat := moved S example_batch]>
                     {[ 0%nat := example_batch ]})).
Proof.
  refine (proj1 (feed_data_aliases_batch S 0%nat example_batch
                   {[ 0%nat := example_batch ]} _ _) _).
  - reflexivity.
  - repeat constructor; vm_compute; intros H;
      repeat (apply elem_of_cons in H as [H|H]; [discriminate|]);
      by apply elem_of_nil in H.
  - apply Forall_cons_2; [left; apply list_elem_of_singleton; reflexivity|].
    apply Forall_cons_2; [right; by eexists|].
    apply Forall_cons_2; [right; by eexists|].
    apply Forall_nil_2.
Defined.

Lemma test_runs_in_evaluation_mode_witness :
  exists s',
    test (fun (n : network) (training : bool) (x : nat) => x) 0%nat
      (Nets false None)
    = Some (s', 0%nat) /\ s' = Nets true None.
Proof.
  destruct (test_runs_in_evaluation_mode
              (fun (n : network) (training : bool) (x : nat) => x) 0%nat
              (Nets false None)) as (s' & Hrun & Hnone & _).
  exists s'. split; [exact Hrun|]. apply Hnone. reflexivity.
Defined.

Lemma validation_walk_modes_witness :
  osp_join "results/vis" [str 1000; "val"] = "results/vis/1000/val".
Proof.
  destruct (validation_walk_modes
              (fun (n : network) (training : bool) (td : @test_data unit) =>
                 ([i64 5], [[one]]))
              (fun _ => tt) flat_render
              (fun (seed : Z) (g : @generators unit unit unit unit) => g)
              "results/vis" "val" (ValOptions None None None None) 1000 true
              [] (Session (Nets true None) (Generators tt tt tt tt)
                    (World ∅ ∅)))
    as (mi & modes & _ & _ & _ & _ & Hpath).
  rewrite Hpath; reflexivity.
Defined.
